(** * generate_dds_messages.py: a shallow embedding and its properties

    The script [modules/libmicroxrcedds/generate_dds_messages.py] reads a list
    of [<package>/<msg_type>] entries, asks the ROS 2 package registry for the
    share directory of each package, collects the IDL files found there and
    runs [microxrceddsgen] once per package.

    The embedding follows the script function by function.  Python [str]
    values are Rocq strings whose characters are the code points below 256;
    [pathlib.Path] values are modelled after the POSIX flavour; a [dict] is an
    association list in insertion order; the operating system (file system and
    child processes) is an interface, [OS], over an abstract type of worlds;
    the command-line parser that [argparse] builds is a parameter,
    [parse_args]; exceptions and the logger are threaded through a small
    monad. *)

From Stdlib Require Import String Ascii List Bool Arith ZArith Lia.
Import ListNotations.
Local Open Scope string_scope.
Local Open Scope list_scope.
Local Open Scope nat_scope.

(** ** Python [str] operations used by the script *)

Module Str.

(** [c.isspace()] for a code point below 256: TAB..CR, FS..US, SPACE,
    NEL (0x85) and NBSP (0xA0). *)
Definition isspace (c : ascii) : bool :=
  let n := nat_of_ascii c in
  (((9 <=? n) && (n <=? 13)) || ((28 <=? n) && (n <=? 32))
   || (n =? 133) || (n =? 160))%nat.

(** [c.lower()] for a code point below 256: A..Z and the Latin-1 capitals
    0xC0..0xDE (the multiplication sign 0xD7 apart) move up by 32. *)
Definition lower_char (c : ascii) : ascii :=
  let n := nat_of_ascii c in
  if (((65 <=? n) && (n <=? 90))
      || ((192 <=? n) && (n <=? 222) && negb (n =? 215)))%nat
  then ascii_of_nat (n + 32) else c.

(** [s.lower()] *)
Fixpoint lower (s : string) : string :=
  match s with
  | EmptyString => EmptyString
  | String c r => String (lower_char c) (lower r)
  end.

(** [s.lstrip()] *)
Fixpoint lstrip (s : string) : string :=
  match s with
  | EmptyString => EmptyString
  | String c r => if isspace c then lstrip r else s
  end.

(** [s.rstrip()] *)
Fixpoint rstrip (s : string) : string :=
  match s with
  | EmptyString => EmptyString
  | String c r =>
      match rstrip r with
      | EmptyString => if isspace c then EmptyString else String c EmptyString
      | r' => String c r'
      end
  end.

(** [s.strip()] *)
Definition strip (s : string) : string := rstrip (lstrip s).

(** [not s]: the truth value of a string is its non-emptiness. *)
Definition is_empty (s : string) : bool :=
  match s with EmptyString => true | _ => false end.

(** [s.startswith(c)] for a one-character prefix. *)
Definition startswith_char (c : ascii) (s : string) : bool :=
  match s with
  | EmptyString => false
  | String d _ => Ascii.eqb d c
  end.

(** [c in s] for a one-character needle. *)
Fixpoint contains_char (c : ascii) (s : string) : bool :=
  match s with
  | EmptyString => false
  | String d r => Ascii.eqb d c || contains_char c r
  end.

(** The number of occurrences of [c] in [s] ([s.count(c)]). *)
Fixpoint count_char (c : ascii) (s : string) : nat :=
  match s with
  | EmptyString => 0
  | String d r => (if Ascii.eqb d c then 1 else 0) + count_char c r
  end.

(** The text before the first [c], or all of [s] when there is none. *)
Fixpoint before_first (c : ascii) (s : string) : string :=
  match s with
  | EmptyString => EmptyString
  | String d r => if Ascii.eqb d c then EmptyString else String d (before_first c r)
  end.

(** The text after the first [c], or nothing when there is none. *)
Fixpoint after_first (c : ascii) (s : string) : string :=
  match s with
  | EmptyString => EmptyString
  | String d r => if Ascii.eqb d c then r else after_first c r
  end.

(** [s.split(c, 1)]: at most one split, at the first [c]. *)
Definition split1 (c : ascii) (s : string) : list string :=
  if contains_char c s then [before_first c s; after_first c s] else [s].

(** [s.split(c)]: split at every [c]. *)
Fixpoint split (c : ascii) (s : string) : list string :=
  match s with
  | EmptyString => [EmptyString]
  | String d r =>
      if Ascii.eqb d c then EmptyString :: split c r
      else match split c r with
           | [] => [String d EmptyString]
           | w :: ws => String d w :: ws
           end
  end.

(** [sep.join(parts)] *)
Fixpoint join (sep : string) (parts : list string) : string :=
  match parts with
  | [] => EmptyString
  | [p] => p
  | p :: ps => p ++ sep ++ join sep ps
  end.

Definition LF : ascii := "010"%char.
Definition CR : ascii := "013"%char.

(** Universal newlines, as a text-mode file object applies them on reading:
    CR LF and a lone CR are both delivered as LF. *)
Fixpoint universal_newlines (s : string) : string :=
  match s with
  | EmptyString => EmptyString
  | String c r =>
      if Ascii.eqb c CR then
        match r with
        | String d r' =>
            if Ascii.eqb d LF then String LF (universal_newlines r')
            else String LF (universal_newlines r)
        | EmptyString => String LF EmptyString
        end
      else String c (universal_newlines r)
  end.

(** The lines of a text, each with its terminating LF; the last line may
    lack it ([cur] collects the characters of the line being read). *)
Fixpoint lines_from (cur : string -> string) (s : string) : list string :=
  match s with
  | EmptyString =>
      match cur EmptyString with
      | EmptyString => []
      | l => [l]
      end
  | String c r =>
      if Ascii.eqb c LF then cur (String LF EmptyString) :: lines_from (fun x => x) r
      else lines_from (fun x => cur (String c x)) r
  end.

(** [for line in f]: the lines a text-mode file object yields. *)
Definition lines (s : string) : list string :=
  lines_from (fun x => x) (universal_newlines s).

End Str.

(** ** [pathlib.PurePosixPath] *)

Module Path.

(** A parsed path: its root ([""], ["/"] or ["//"]) and its components, none
    of which is empty or ["."]. *)
Record t := mk { root : string; names : list string }.

Definition is_name (x : string) : bool :=
  negb (Str.is_empty x) && negb (String.eqb x ".").

(** The components of a path text. *)
Definition names_of (s : string) : list string :=
  filter is_name (Str.split "/" s).

(** The root of a path text: exactly two leading slashes are kept as they
    are, any other number of them is one. *)
Definition root_of (s : string) : string :=
  match s with
  | String "/" (String "/" (String "/" _)) => "/"
  | String "/" (String "/" _) => "//"
  | String "/" _ => "/"
  | _ => ""
  end.

(** [Path(s)] *)
Definition of_str (s : string) : t := mk (root_of s) (names_of s).

(** [p / s]: an absolute right operand replaces the left one. *)
Definition div (p : t) (s : string) : t :=
  if Str.startswith_char "/" s then of_str s
  else mk (root p) (names p ++ names_of s).

(** [str(p)] *)
Definition str (p : t) : string :=
  match root p ++ Str.join "/" (names p) with
  | EmptyString => "."
  | s => s
  end.

Fixpoint is_prefix (xs ys : list string) : bool :=
  match xs, ys with
  | [], _ => true
  | x :: xs', y :: ys' => String.eqb x y && is_prefix xs' ys'
  | _ :: _, [] => false
  end.

(** [p.is_relative_to(other)] *)
Definition is_relative_to (p other : t) : bool :=
  String.eqb (root p) (root other) && is_prefix (names other) (names p).

(** [p.relative_to(other)]; [None] stands for the [ValueError] raised when
    [p] is not below [other]. *)
Definition relative_to (p other : t) : option t :=
  if is_relative_to p other
  then Some (mk "" (skipn (length (names other)) (names p)))
  else None.

(** [p.absolute()] with [os.getcwd()] being [cwd]: a path with a root is
    left as it is, any other is taken from the working directory. *)
Definition absolute (cwd : string) (p : t) : t :=
  if Str.is_empty (root p) then mk (root_of cwd) (names_of cwd ++ names p) else p.

Definition eqb (p q : t) : bool :=
  String.eqb (root p) (root q)
  && (if list_eq_dec string_dec (names p) (names q) then true else false).

End Path.

Declare Scope path_scope.
Delimit Scope path_scope with path.
Bind Scope path_scope with Path.t.
Infix "/" := Path.div : path_scope.

(** ** Dictionaries

    A Python [dict] keeps its keys in insertion order, and the script iterates
    over [items()]; an association list with distinct keys keeps that order. *)

Definition dict (V : Type) : Type := list (string * V).

Fixpoint dict_get {V} (k : string) (d : dict V) : option V :=
  match d with
  | [] => None
  | (k', v) :: d' => if String.eqb k k' then Some v else dict_get k d'
  end.

(** [d[k].append(v)] on a [defaultdict(list)]: a missing key is first bound,
    after the existing ones, to the empty list. *)
Fixpoint dict_append {V} (k : string) (v : V) (d : dict (list V)) : dict (list V) :=
  match d with
  | [] => [(k, [v])]
  | (k', vs) :: d' =>
      if String.eqb k k' then (k', vs ++ [v]) :: d'
      else (k', vs) :: dict_append k v d'
  end.

Definition dict_keys {V} (d : dict V) : list string := map fst d.

(** ** Exceptions, child processes and the operating system *)

Inductive exn : Type :=
| FileNotFoundError (path : Path.t)
| ValueError (what : string)
| CalledProcessError (cmd : list string) (returncode : Z) (stderr : string)
| OSError (what : string)
| SystemExit (code : Z).

(** [except Exception] catches everything the script can raise but
    [SystemExit], which derives from [BaseException] only. *)
Definition is_Exception (e : exn) : bool :=
  match e with SystemExit _ => false | _ => true end.

Definition is_CalledProcessError (e : exn) : bool :=
  match e with CalledProcessError _ _ _ => true | _ => false end.

(** What [subprocess.run(cmd, capture_output=True, text=True)] observes: the
    child ran and exited, or it could not be started. *)
Inductive run_result : Type :=
| Exited (returncode : Z) (stdout stderr : string)
| NotStarted (what : string).

(** What [p.exists()] observes: an answer, or an [OSError] other than the
    ones it takes for "no such file" (a name too long, a directory that
    cannot be searched, ...), which it raises. *)
Inductive stat_result : Type :=
| Known (b : bool)
| StatFailed (what : string).

(** How the reading of an open file fails: the bytes that follow cannot be
    decoded ([UnicodeDecodeError], a [ValueError]), or the system call fails
    (an [OSError]). *)
Inductive read_failure : Type :=
| DecodeError (what : string)
| ReadError (what : string).

Definition read_failure_exn (f : read_failure) : exn :=
  match f with
  | DecodeError what => ValueError what
  | ReadError what => OSError what
  end.

(** What [open(p, 'r')] and the iteration over the file observe: the file
    cannot be opened, or it delivers the lines of [text] and then either
    ends or fails. *)
Inductive read_result : Type :=
| CannotOpen (what : string)
| Content (text : string) (failure : option read_failure).

(** What [os.getcwd()] observes. *)
Inductive cwd_result : Type :=
| Cwd (dir : string)
| NoCwd (what : string).

(** The operating system as the script uses it, over a type [W] of worlds. *)
Class OS (W : Type) : Type := {
  (** [p.exists()] *)
  os_exists : Path.t -> W -> stat_result;
  (** [open(p, 'r')] and the iteration over its lines *)
  os_read : Path.t -> W -> read_result;
  (** [p.mkdir(parents=True, exist_ok=True)]: the world it leaves and, when
      it raises, the reason *)
  os_mkdir : Path.t -> W -> option string * W;
  (** running a child process to its end *)
  os_run : list string -> W -> run_result * W;
  (** [os.getcwd()] *)
  os_getcwd : W -> cwd_result
}.


(** ** The logger *)

Inductive level : Type := DEBUG | INFO | WARNING | ERROR.

Definition level_num (l : level) : nat :=
  match l with DEBUG => 10 | INFO => 20 | WARNING => 30 | ERROR => 40 end.

(** One constructor per logging call of the script, with the values its
    message interpolates. *)
Inductive event : Type :=
| PackageNotFound (package : string)
| ErrorDetails (stderr : string)
| ErrorLocatingShareDir (package : string) (e : exn)
| InvalidMessageFormat (line : string)
| NoMsgDirectory (package : string) (msg_dir : Path.t)
| IdlFileNotFound (idl_path : Path.t)
| FailedToProcessPackage (package : string) (e : exn)
| MissingPackages (packages : list string)
| ProcessingPackage (package : string)
| RunningCommand (cmd : list string)
| GenerationOutput (package : string) (stdout : string)
| Generated (rel : Path.t)
| MissingGeneratedFiles (package msg_type : string)
| FailedToGenerate (package : string)
| FailedCommand (cmd : list string)
| FailedErrorCode (returncode : Z)
| FailedStderr (stderr : string)
| UnexpectedError (package : string) (e : exn)
| ParsingMessageList (message_file : Path.t)
| FailedToParse (e : exn)
| NoValidMessages
| FoundPackages (n : nat)
| LocatingIdlFiles
| NoValidIdlFiles
| FoundIdlFiles (n : nat)
| GeneratingCodeTo (output : Path.t)
| GenerationCompleted
| TotalFilesGenerated (n : nat)
| OutputDirectory (output : Path.t).

(** ** The data of the script *)

(** [class IdlGenerator]: the fields [__init__] sets. *)
Record IdlGenerator : Type := mkIdlGenerator {
  package : string;
  msg_type : string;
  idl_path : Path.t;
  h_name : string;
  c_name : string;
  rel_dir : Path.t
}.

(** [IdlGenerator.__init__] *)
Definition IdlGenerator_init (package msg_type : string) (idl_path : Path.t)
  : IdlGenerator :=
  {| package := package;
     msg_type := msg_type;
     idl_path := idl_path;
     h_name := (Str.lower msg_type ++ ".h")%string;
     c_name := (Str.lower msg_type ++ ".c")%string;
     rel_dir := (Path.of_str package / "msg")%path |}.

(** The local variables of [locate_idl_files]. *)
Record locate_locals : Type := mkLocate {
  idl_generators : list IdlGenerator;
  missing_packages : list string
}.

(** The command line of one package group (the [cmd] of
    [generate_uxr_code]). *)
Definition generator_cmd (replace : bool) (pkg_output_dir : Path.t)
    (include_paths : option (list Path.t)) (idl_files : list string)
  : list string :=
  let cmd :=
    [ "microxrceddsgen";
      "-cs";
      (if replace then "-replace" else "");
      "-d"; Path.str pkg_output_dir ] in
  let cmd :=
    match include_paths with
    | Some ((_ :: _) as paths) =>
        cmd ++ flat_map (fun path => ["-I"; Path.str path]) paths
    | _ => cmd
    end in
  let cmd := cmd ++ idl_files in
  filter (fun arg => negb (Str.is_empty arg)) cmd.

(** The command line arguments [argparse] hands to [main]. *)
Record args : Type := mkArgs {
  message_file : Path.t;
  output : Path.t;
  include : list Path.t;
  replace : bool;
  verbose : bool
}.

(** What [parser.parse_args()] does with the command line: it returns the
    arguments, or prints a usage message and exits with status 2, or, for
    [-h], prints the help and exits with status 0. *)
Inductive parse_result : Type :=
| Parsed (a : args)
| UsageError
| HelpRequested.

(** The default of [--output], with [os.getcwd()] being [cwd]. *)
Definition default_output (cwd : string) : Path.t :=
  (Path.of_str cwd / "uxr_generated")%path.

Declare Scope py_scope.
Delimit Scope py_scope with py.

(** ** A simulated operating system

    A small file system and a table of child processes, on which the script
    can be run. *)

Module Sim.

Inductive node : Type :=
| Directory
| Regular (text : option string)    (* [None]: a file that cannot be opened *)
| Damaged (text : string).          (* the text is delivered, then decoding fails *)

Definition world : Type := list (Path.t * node).

Fixpoint lookup (p : Path.t) (w : world) : option node :=
  match w with
  | [] => None
  | (q, n) :: w' => if Path.eqb p q then Some n else lookup p w'
  end.

(** A path one of whose names is longer than the file system allows. *)
Definition too_long (p : Path.t) : bool :=
  existsb (fun name => 255 <? String.length name) (Path.names p).

Definition exists_ (p : Path.t) (w : world) : stat_result :=
  if too_long p then StatFailed "File name too long"
  else Known (match lookup p w with Some _ => true | None => false end).

Definition read (p : Path.t) (w : world) : read_result :=
  match lookup p w with
  | Some (Regular (Some text)) => Content text None
  | Some (Regular None) => CannotOpen "Permission denied"
  | Some (Damaged text) => Content text (Some (DecodeError "invalid start byte"))
  | Some Directory => CannotOpen "Is a directory"
  | None => CannotOpen "No such file or directory"
  end.

(** The ancestors of a path and the path itself, from the top down. *)
Definition ancestors_and_self (p : Path.t) : list Path.t :=
  map (fun n => Path.mk (Path.root p) (firstn n (Path.names p)))
      (seq 1 (length (Path.names p))).

Fixpoint make_dirs (ps : list Path.t) (w : world) : option string * world :=
  match ps with
  | [] => (None, w)
  | p :: ps' =>
      match lookup p w with
      | Some Directory => make_dirs ps' w
      | Some (Regular _) | Some (Damaged _) =>
          (Some (match ps' with [] => "File exists" | _ => "Not a directory" end), w)
      | None => make_dirs ps' (w ++ [(p, Directory)])
      end
  end.

Definition mkdir (p : Path.t) (w : world) : option string * world :=
  make_dirs (ancestors_and_self p) w.

(** The child processes: what each command line does to the file system. *)
Definition processes : Type := list string -> world -> run_result * world.

(** The working directory of the runs. *)
Definition cwd : string := "/work".

Definition os (procs : processes) : OS world :=
  {| os_exists := exists_;
     os_read := read;
     os_mkdir := mkdir;
     os_run := procs;
     os_getcwd := fun _ => Cwd cwd |}.

(** The same system seen from a working directory that is gone. *)
Definition os_no_cwd (procs : processes) : OS world :=
  {| os_exists := exists_;
     os_read := read;
     os_mkdir := mkdir;
     os_run := procs;
     os_getcwd := fun _ => NoCwd "No such file or directory" |}.

(** A registry that knows the packages of [table] and their share
    directories, and a generator that exits with [gen_code] after writing the
    files [gen_files]. *)
Definition simple_processes (table : list (string * string))
    (gen_code : Z) (gen_files : list Path.t) : processes :=
  fun cmd w =>
    match cmd with
    | ["ros2"; "pkg"; "prefix"; "--share"; package] =>
        match dict_get package table with
        | Some share => (Exited 0 (share ++ String Str.LF "")%string "", w)
        | None => (Exited 1 "" "Package not found", w)
        end
    | "microxrceddsgen" :: _ =>
        (Exited gen_code "" "", w ++ map (fun p => (p, Regular (Some ""))) gen_files)
    | _ => (NotStarted "No such file or directory", w)
    end.

(** A command-line parser for the runs below: the list file alone or
    followed by [-o <dir>] and [-v], and [-h]; anything else is a usage
    error. *)
Definition parse_args (default : Path.t) (argv : list string) : parse_result :=
  match argv with
  | ["-h"] => HelpRequested
  | [f] => Parsed (mkArgs (Path.of_str f) default [] true false)
  | [f; "-v"] => Parsed (mkArgs (Path.of_str f) default [] true true)
  | [f; "-o"; d] => Parsed (mkArgs (Path.of_str f) (Path.of_str d) [] true false)
  | [f; "-o"; d; "-v"] => Parsed (mkArgs (Path.of_str f) (Path.of_str d) [] true true)
  | _ => UsageError
  end.

End Sim.

(** ** Example worlds

    An installation with two message packages, a package without a [msg]
    directory, and the files the runs below read and write. *)

Module Examples.

Definition nl : string := String Str.LF "".

Definition file (p : string) (text : string) : Path.t * Sim.node :=
  (Path.of_str p, Sim.Regular (Some text)).

Definition dir (p : string) : Path.t * Sim.node := (Path.of_str p, Sim.Directory).

(** The registry: package name and share directory. *)
Definition registry : list (string * string) :=
  [ ("sensor_msgs", "/opt/ros/share/sensor_msgs");
    ("std_msgs", "/opt/ros/share/std_msgs");
    ("bare_pkg", "/opt/ros/share/bare_pkg");
    ("p", "/opt/ros/share/p") ].

Definition list_text : string :=
  ("sensor_msgs/Imu" ++ nl ++ "# comment" ++ nl ++ nl ++ "std_msgs/Header")%string.

Definition installed : Sim.world :=
  [ file "msgs.txt" list_text;
    file "nested.txt" ("nav_msgs/msg/Path" ++ nl)%string;
    file "abs.txt" ("p//x" ++ nl)%string;
    dir "/opt/ros/share/sensor_msgs/msg";
    file "/opt/ros/share/sensor_msgs/msg/Imu.idl" "";
    dir "/opt/ros/share/std_msgs/msg";
    file "/opt/ros/share/std_msgs/msg/Header.idl" "";
    dir "/opt/ros/share/bare_pkg" ].

(** The same installation where [out] is a regular file. *)
Definition blocked : Sim.world := installed ++ [file "out" ""].

(** The same installation with a package [p] and the files [/x.idl], [/x.h]
    and [/x.c] at the root of the file system. *)
Definition rooted : Sim.world :=
  installed
  ++ [dir "/opt/ros/share/p/msg"; file "/x.idl" ""; file "/x.h" ""; file "/x.c" ""].

(** A generator that succeeds and writes the two files of [sensor_msgs/Imu]
    and only the header of [std_msgs/Header]. *)
Definition generator_ok : Sim.processes :=
  Sim.simple_processes registry 0
    [ Path.of_str "out/sensor_msgs/msg/imu.h";
      Path.of_str "out/sensor_msgs/msg/imu.c";
      Path.of_str "out/std_msgs/msg/header.h" ].

(** A generator that succeeds and writes [x.h] and [x.c] into the output
    directory of the package [p]. *)
Definition generator_p : Sim.processes :=
  Sim.simple_processes registry 0
    [ Path.of_str "out/p/msg/x.h"; Path.of_str "out/p/msg/x.c" ].

(** A generator that fails. *)
Definition generator_fails : Sim.processes := Sim.simple_processes registry 1 [].

Definition os_ok : OS Sim.world := Sim.os generator_ok.
Definition os_fails : OS Sim.world := Sim.os generator_fails.
Definition os_p : OS Sim.world := Sim.os generator_p.

Definition imu : IdlGenerator :=
  IdlGenerator_init "sensor_msgs" "Imu"
    (Path.of_str "/opt/ros/share/sensor_msgs/msg/Imu.idl").

Definition header : IdlGenerator :=
  IdlGenerator_init "std_msgs" "Header"
    (Path.of_str "/opt/ros/share/std_msgs/msg/Header.idl").

(** The descriptor the line [p//x] leads to. *)
Definition rooted_gen : IdlGenerator :=
  IdlGenerator_init "p" "/x" (Path.of_str "/x.idl").

Definition cli : args :=
  mkArgs (Path.of_str "msgs.txt") (Path.of_str "out") [] true false.

(** The installation with a list file that names no message. *)
Definition commented : Sim.world :=
  installed ++ [file "comments.txt" ("# nothing here" ++ nl ++ "no separator" ++ nl ++ " /Imu")%string].

Definition cli_commented : args :=
  mkArgs (Path.of_str "comments.txt") (Path.of_str "out") [] true false.

(** The installation with a list file whose second line is malformed and
    whose reading fails after the third. *)
Definition damaged : Sim.world :=
  installed
  ++ [(Path.of_str "damaged.txt",
       Sim.Damaged ("sensor_msgs/Imu" ++ nl ++ "no separator" ++ nl
                    ++ "std_msgs/Header" ++ nl)%string)].

(** A message name too long for a file name. *)
Definition long_name : string := String.concat "" (repeat "A" 252).

(** The command lines of the runs. *)
Definition argv_cli : list string := ["msgs.txt"; "-o"; "out"].
Definition argv_commented : list string := ["comments.txt"; "-o"; "out"].

End Examples.

(** ** The monad of the script

    A computation runs over its function's local variables [L] (the lists and
    dictionaries the function mutates in place, which keep their contents
    when an exception leaves a [try] block) and the global state: the world,
    the logger's level and the records logged so far. *)

Section Script.

Context {W : Type} {os : OS W}.

(** *** The monad *)

Record state : Type := mkState {
  world : W;
  logger_level : level;
  log : list (level * event)
}.

Inductive outcome (A : Type) : Type :=
| Return (a : A)
| Raise (e : exn).
#[global] Arguments Return {A} a.
#[global] Arguments Raise {A} e.

Definition M (L A : Type) : Type := L -> state -> outcome A * L * state.

Definition ret {L A} (a : A) : M L A := fun l s => (Return a, l, s).

Definition bind {L A B} (m : M L A) (k : A -> M L B) : M L B :=
  fun l s =>
    match m l s with
    | (Return a, l', s') => k a l' s'
    | (Raise e, l', s') => (Raise e, l', s')
    end.

Definition raise {L A} (e : exn) : M L A := fun l s => (Raise e, l, s).

(** [try: body  except <catches>: handler] *)
Definition try_except {L A} (body : M L A) (catches : exn -> bool)
    (handler : exn -> M L A) : M L A :=
  fun l s =>
    match body l s with
    | (Raise e, l', s') =>
        if catches e then handler e l' s' else (Raise e, l', s')
    | r => r
    end.

Definition get_local {L} : M L L := fun l s => (Return l, l, s).

Definition modify_local {L} (f : L -> L) : M L unit :=
  fun l s => (Return tt, f l, s).

(** Calling a function: it runs over its own locals, from [init]. *)
Definition call {L L' A} (init : L') (m : M L' A) : M L A :=
  fun l s => let '(o, _, s') := m init s in (o, l, s').

Definition with_world {L A} (f : W -> A * W) : M L A :=
  fun l s =>
    let '(a, w') := f (world s) in
    (Return a, l, mkState w' (logger_level s) (log s)).

(** [logger.setLevel(lvl)] *)
Definition logger_setLevel {L} (lvl : level) : M L unit :=
  fun l s => (Return tt, l, mkState (world s) lvl (log s)).

(** The state after a logging call: the record is emitted when its level is
    not below the logger's. *)
Definition emit (lvl : level) (ev : event) (s : state) : state :=
  if level_num (logger_level s) <=? level_num lvl
  then mkState (world s) (logger_level s) (log s ++ [(lvl, ev)])
  else s.

(** [logger.debug/info/warning/error(...)] *)
Definition logger_log {L} (lvl : level) (ev : event) : M L unit :=
  fun l s => (Return tt, l, emit lvl ev s).

Notation "x <- m ;; k" := (bind m (fun x => k))
  (at level 61, m at next level, right associativity) : py_scope.
Notation "m ;; k" := (bind m (fun _ => k))
  (at level 61, right associativity) : py_scope.
Local Open Scope py_scope.

(** [for x in xs: body] *)
Fixpoint for_ {L A} (xs : list A) (body : A -> M L unit) : M L unit :=
  match xs with
  | [] => ret tt
  | x :: xs' => body x ;; for_ xs' body
  end.

(** [p.exists()] *)
Definition path_exists {L} (p : Path.t) : M L bool :=
  fun l s =>
    match os_exists p (world s) with
    | Known b => (Return b, l, s)
    | StatFailed what => (Raise (OSError what), l, s)
    end.

(** [with open(p, 'r') as f: for line in f: body]: the body is run on each
    line as it is delivered; a failure of the reading, if any, is raised
    after the lines before it have been dealt with. *)
Definition for_lines_of {L} (p : Path.t) (body : string -> M L unit) : M L unit :=
  fun l s =>
    match os_read p (world s) with
    | CannotOpen what => (Raise (OSError what), l, s)
    | Content text failure =>
        bind (for_ (Str.lines text) body)
             (fun _ => match failure with
                       | Some f => raise (read_failure_exn f)
                       | None => ret tt
                       end) l s
    end.

(** [os.getcwd()] *)
Definition getcwd {L} : M L string :=
  fun l s =>
    match os_getcwd (world s) with
    | Cwd dir => (Return dir, l, s)
    | NoCwd what => (Raise (OSError what), l, s)
    end.

(** [p.absolute()]: the working directory is asked for only when [p] has
    no root. *)
Definition path_absolute {L} (p : Path.t) : M L Path.t :=
  if Str.is_empty (Path.root p)
  then bind getcwd (fun cwd => ret (Path.absolute cwd p))
  else ret p.

(** [p.mkdir(parents=True, exist_ok=True)] *)
Definition mkdir {L} (p : Path.t) : M L unit :=
  r <- with_world (os_mkdir p) ;;
  match r with
  | Some what => raise (OSError what)
  | None => ret tt
  end.

(** [subprocess.run(cmd, capture_output=True, text=True, check=True)],
    returning [result.stdout]. *)
Definition subprocess_run {L} (cmd : list string) : M L string :=
  r <- with_world (os_run cmd) ;;
  match r with
  | Exited returncode stdout stderr =>
      if Z.eqb returncode 0 then ret stdout
      else raise (CalledProcessError cmd returncode stderr)
  | NotStarted what => raise (OSError what)
  end.

(** [sys.exit(code)] *)
Definition sys_exit {L A} (code : Z) : M L A := raise (SystemExit code).

Definition find_ros_share_dir {L} (package : string) : M L Path.t :=
  try_except
    (stdout <- subprocess_run ["ros2"; "pkg"; "prefix"; "--share"; package] ;;
     let share_path := Str.strip stdout in
     if Str.is_empty share_path
     then raise (ValueError ("Empty share path for package '" ++ package ++ "'"))
     else ret (Path.of_str share_path))
    is_Exception
    (fun e =>
       match e with
       | CalledProcessError _ _ stderr =>
           logger_log ERROR (PackageNotFound package) ;;
           logger_log DEBUG (ErrorDetails stderr) ;;
           raise e
       | _ =>
           logger_log ERROR (ErrorLocatingShareDir package e) ;;
           raise e
       end).

(** The body of the [for line in f] loop of [parse_message_list]. *)
Definition parse_line (line : string) : M (dict (list string)) unit :=
  let line := Str.strip line in
  if Str.is_empty line || Str.startswith_char "#" line then ret tt
  else if negb (Str.contains_char "/" line) then
    logger_log WARNING (InvalidMessageFormat line)
  else
    match Str.split1 "/" line with
    | [package; msg_type] =>
        let package := Str.strip package in
        let msg_type := Str.strip msg_type in
        if Str.is_empty package || Str.is_empty msg_type then
          logger_log WARNING (InvalidMessageFormat line)
        else modify_local (dict_append package msg_type)
    | _ => raise (ValueError "not enough values to unpack")
    end.

Definition parse_message_list {L} (message_file : Path.t)
  : M L (dict (list string)) :=
  call (L' := dict (list string)) []
    (ex <- path_exists message_file ;;
     if negb ex then raise (FileNotFoundError message_file)
     else
       for_lines_of message_file parse_line ;;
       get_local).

(** The body of the [for msg_type in msg_types] loop of [locate_idl_files]. *)
Definition locate_msg (package : string) (msg_dir : Path.t) (msg_type : string)
  : M locate_locals unit :=
  let idl_path := (msg_dir / (msg_type ++ ".idl"))%path in
  ex <- path_exists idl_path ;;
  if negb ex then logger_log WARNING (IdlFileNotFound idl_path)
  else
    modify_local (fun l =>
      mkLocate (idl_generators l ++ [IdlGenerator_init package msg_type idl_path])
               (missing_packages l)).

(** The [try] block of the [for package, msg_types in package_msgs.items()]
    loop. *)
Definition locate_package_body (package : string) (msg_types : list string)
  : M locate_locals unit :=
  share_dir <- find_ros_share_dir package ;;
  let msg_dir := (share_dir / "msg")%path in
  ex <- path_exists msg_dir ;;
  if negb ex then logger_log WARNING (NoMsgDirectory package msg_dir)
  else for_ msg_types (locate_msg package msg_dir).

(** The body of that loop. *)
Definition locate_package (item : string * list string) : M locate_locals unit :=
  let '(package, msg_types) := item in
  try_except
    (locate_package_body package msg_types)
    is_Exception
    (fun e =>
       logger_log ERROR (FailedToProcessPackage package e) ;;
       modify_local (fun l =>
         mkLocate (idl_generators l) (missing_packages l ++ [package]))).

Definition locate_idl_files {L} (package_msgs : dict (list string))
  : M L (list IdlGenerator) :=
  call (mkLocate [] [])
    (for_ package_msgs locate_package ;;
     l <- get_local ;;
     match missing_packages l with
     | _ :: _ => logger_log ERROR (MissingPackages (missing_packages l))
     | [] => ret tt
     end ;;
     ret (idl_generators l)).

(** The grouping loop of [generate_uxr_code]. *)
Definition group_by_package (idl_generators : list IdlGenerator)
  : dict (list IdlGenerator) :=
  fold_left (fun package_groups gen => dict_append (package gen) gen package_groups)
            idl_generators [].

(** The body of the [for gen in generators] loop of [generate_uxr_code]. *)
Definition record_generated (output_dir pkg_output_dir : Path.t)
    (package : string) (gen : IdlGenerator) : M (list Path.t) unit :=
  let h_file := (pkg_output_dir / h_name gen)%path in
  let c_file := (pkg_output_dir / c_name gen)%path in
  h_exists <- path_exists h_file ;;
  c_exists <- (if h_exists : bool then path_exists c_file else ret false) ;;
  if c_exists : bool then
    match Path.relative_to h_file output_dir with
    | None => raise (ValueError "is not in the subpath of")
    | Some rel_h =>
        logger_log INFO (Generated rel_h) ;;
        match Path.relative_to c_file output_dir with
        | None => raise (ValueError "is not in the subpath of")
        | Some rel_c =>
            logger_log INFO (Generated rel_c) ;;
            modify_local (fun generated_files => generated_files ++ [h_file]) ;;
            modify_local (fun generated_files => generated_files ++ [c_file])
        end
    end
  else logger_log WARNING (MissingGeneratedFiles package (msg_type gen)).

(** The rest of that loop body, from the command line [cmd] on: the
    generator is run and its output files are recorded. *)
Definition run_generator (output_dir pkg_output_dir : Path.t)
    (package : string) (generators : list IdlGenerator) (cmd : list string)
  : M (list Path.t) unit :=
  logger_log DEBUG (RunningCommand cmd) ;;
  try_except
    (stdout <- subprocess_run cmd ;;
     logger_log DEBUG (GenerationOutput package stdout) ;;
     for_ generators (record_generated output_dir pkg_output_dir package))
    is_Exception
    (fun e =>
       match e with
       | CalledProcessError cmd returncode stderr =>
           logger_log ERROR (FailedToGenerate package) ;;
           logger_log ERROR (FailedCommand cmd) ;;
           logger_log ERROR (FailedErrorCode returncode) ;;
           logger_log ERROR (FailedStderr stderr)
       | _ => logger_log ERROR (UnexpectedError package e)
       end).

(** The body of the [for package, generators in package_groups.items()]
    loop of [generate_uxr_code]. *)
Definition generate_package (output_dir : Path.t)
    (include_paths : option (list Path.t)) (replace : bool)
    (group : string * list IdlGenerator) : M (list Path.t) unit :=
  let '(package, generators) := group in
  logger_log INFO (ProcessingPackage package) ;;
  let pkg_output_dir := (output_dir / package / "msg")%path in
  mkdir pkg_output_dir ;;
  let idl_files := map (fun gen => Path.str (idl_path gen)) generators in
  let cmd := generator_cmd replace pkg_output_dir include_paths idl_files in
  run_generator output_dir pkg_output_dir package generators cmd.

Definition generate_uxr_code {L} (idl_generators : list IdlGenerator)
    (output_dir : Path.t) (include_paths : option (list Path.t))
    (replace : bool) : M L (list Path.t) :=
  call (L' := list Path.t) []
    (let package_groups := group_by_package idl_generators in
     mkdir output_dir ;;
     for_ package_groups (generate_package output_dir include_paths replace) ;;
     get_local).

(** [main] from the parsed arguments on. *)
Definition main_with (a : args) : M unit unit :=
  (if verbose a then logger_setLevel DEBUG else ret tt) ;;
  logger_log INFO (ParsingMessageList (message_file a)) ;;
  package_msgs <-
    try_except (parse_message_list (message_file a))
      is_Exception
      (fun e => logger_log ERROR (FailedToParse e) ;; sys_exit 1) ;;
  match package_msgs with
  | [] => logger_log ERROR NoValidMessages ;; sys_exit 1
  | _ :: _ =>
      logger_log INFO (FoundPackages (length package_msgs)) ;;
      logger_log INFO LocatingIdlFiles ;;
      idl_generators <- locate_idl_files package_msgs ;;
      match idl_generators with
      | [] => logger_log ERROR NoValidIdlFiles ;; sys_exit 1
      | _ :: _ =>
          logger_log INFO (FoundIdlFiles (length idl_generators)) ;;
          logger_log INFO (GeneratingCodeTo (output a)) ;;
          generated_files <-
            generate_uxr_code idl_generators (output a) (Some (include a))
                              (replace a) ;;
          logger_log INFO GenerationCompleted ;;
          logger_log INFO (TotalFilesGenerated (length generated_files)) ;;
          output_dir <- path_absolute (output a) ;;
          logger_log INFO (OutputDirectory output_dir)
      end
  end.

(** The command-line parser [argparse] builds from the script's
    [add_argument] calls, given the default of [--output]. *)
Variable parse_args : Path.t -> list string -> parse_result.

(** [main]: the parser is built (its [--output] default asks for the
    working directory), the command line is parsed, and the stages run. *)
Definition main (argv : list string) : M unit unit :=
  cwd <- getcwd ;;
  match parse_args (default_output cwd) argv with
  | Parsed a => main_with a
  | UsageError => sys_exit 2
  | HelpRequested => sys_exit 0
  end.

(** The exit status of the process that runs [main]: 0 when [main] returns,
    the code of a [SystemExit], and 1 for any other exception, which the
    interpreter reports with a traceback. *)
Definition exit_status (o : outcome unit) : Z :=
  match o with
  | Return _ => 0
  | Raise (SystemExit code) => code
  | Raise _ => 1
  end%Z.

(** The script started on the command line [argv], with the logger as
    [logging.basicConfig] leaves it. *)
Definition run_script (argv : list string) (w : W) : Z * state :=
  let '(o, _, s) := main argv tt (mkState w INFO []) in (exit_status o, s).

(** *** The specification's vocabulary

    The notions the specification uses, written after its words, to be
    compared with what the functions above compute; and each function of
    the script as a plain function of the world it runs in. *)

(** A blank line: nothing but white space. *)
Definition is_blank (line : string) : bool := Str.is_empty (Str.strip line).

(** A comment line: its first visible character is [#]. *)
Definition is_comment (line : string) : bool :=
  Str.startswith_char "#" (Str.strip line).

(** The package and message parts of a line: what stands before and after
    its first [/], white space trimmed. *)
Definition package_part (line : string) : string :=
  Str.strip (Str.before_first "/" (Str.strip line)).

Definition message_part (line : string) : string :=
  Str.strip (Str.after_first "/" (Str.strip line)).

(** A line that names a message: neither blank nor a comment, with a [/]
    and non-empty package and message parts. *)
Definition is_entry (line : string) : bool :=
  negb (is_blank line) && negb (is_comment line)
  && Str.contains_char "/" line
  && negb (Str.is_empty (package_part line))
  && negb (Str.is_empty (message_part line)).

Definition entry_of (line : string) : option (string * string) :=
  if is_entry line then Some (package_part line, message_part line) else None.

(** The entries of a file, in the order of its lines. *)
Definition entries (lines : list string) : list (string * string) :=
  flat_map (fun line => match entry_of line with Some e => [e] | None => [] end)
           lines.

(** The messages listed for a package, in the order of the entries. *)
Definition messages_of (p : string) (es : list (string * string)) : list string :=
  map snd (filter (fun e => String.eqb (fst e) p) es).

(** The distinct elements of a list, in the order of their first
    occurrences. *)
Definition distinct (xs : list string) : list string :=
  fold_left (fun seen x => if existsb (String.eqb x) seen then seen else seen ++ [x])
            xs [].

(** A registry lookup that fails: the command could not be run, exited
    non-zero, or printed nothing but white space. *)
Definition lookup_fails (r : run_result) : Prop :=
  match r with
  | Exited returncode stdout _ => returncode <> 0%Z \/ Str.strip stdout = ""
  | NotStarted _ => True
  end.

(** A generator invocation that succeeded. *)
Definition succeeded (r : run_result) : Prop :=
  match r with
  | Exited returncode _ _ => returncode = 0%Z
  | NotStarted _ => False
  end.

(** The command line of the registry lookup. *)
Definition registry_cmd (package : string) : list string :=
  ["ros2"; "pkg"; "prefix"; "--share"; package].

(** The expected header and source files of a descriptor under an output
    root. *)
Definition h_file (output_dir : Path.t) (gen : IdlGenerator) : Path.t :=
  (output_dir / package gen / "msg" / h_name gen)%path.

Definition c_file (output_dir : Path.t) (gen : IdlGenerator) : Path.t :=
  (output_dir / package gen / "msg" / c_name gen)%path.

(** The descriptor of a message of a package whose [msg] directory is
    [msg_dir]. *)
Definition descriptor (package : string) (msg_dir : Path.t) (msg_type : string)
  : IdlGenerator :=
  IdlGenerator_init package msg_type (msg_dir / (msg_type ++ ".idl"))%path.

(** [p.exists()] returned [True]. *)
Definition exists_true (w : W) (p : Path.t) : bool :=
  match os_exists p w with Known true => true | _ => false end.

(** [p.exists()] returns: it does not raise. *)
Definition checked (w : W) (p : Path.t) : Prop :=
  exists b, os_exists p w = Known b.

(** How the lookup of a package ends: the package is missing (the lookup
    fails, or the [msg] subdirectory cannot be examined), its share directory
    has no [msg] subdirectory, or its [msg] directory is found.
    [r] is what the registry command did and [w] the world it left. *)
Inductive resolution : Type :=
| Missing
| NoMsgDir (msg_dir : Path.t)
| Resolved (msg_dir : Path.t).

Definition resolution_of (r : run_result) (w : W) : resolution :=
  match r with
  | Exited returncode stdout _ =>
      if (returncode =? 0)%Z then
        if Str.is_empty (Str.strip stdout) then Missing
        else
          let msg_dir := (Path.of_str (Str.strip stdout) / "msg")%path in
          match os_exists msg_dir w with
          | Known true => Resolved msg_dir
          | Known false => NoMsgDir msg_dir
          | StatFailed _ => Missing
          end
      else Missing
  | NotStarted _ => Missing
  end.

(** The message types of a package that are looked at: those before the
    first one whose existence check raises. *)
Fixpoint checked_prefix (w : W) (msg_dir : Path.t) (msg_types : list string)
  : list string :=
  match msg_types with
  | [] => []
  | msg_type :: rest =>
      match os_exists (msg_dir / (msg_type ++ ".idl"))%path w with
      | Known _ => msg_type :: checked_prefix w msg_dir rest
      | StatFailed _ => []
      end
  end.

(** The reason of the first existence check of a package that raises, if
    there is one. *)
Fixpoint check_failure (w : W) (msg_dir : Path.t) (msg_types : list string)
  : option string :=
  match msg_types with
  | [] => None
  | msg_type :: rest =>
      match os_exists (msg_dir / (msg_type ++ ".idl"))%path w with
      | Known _ => check_failure w msg_dir rest
      | StatFailed what => Some what
      end
  end.

(** The descriptors of the messages of a package that are looked at and
    whose IDL files exist, in the order of the package's list. *)
Definition found (w : W) (package : string) (msg_dir : Path.t)
    (msg_types : list string) : list IdlGenerator :=
  map (descriptor package msg_dir)
      (filter (fun msg_type => exists_true w (msg_dir / (msg_type ++ ".idl"))%path)
              (checked_prefix w msg_dir msg_types)).

(** What a package contributes in a world where the registry leaves the
    world as it is. *)
Definition contribution (w : W) (item : string * list string) : list IdlGenerator :=
  match resolution_of (fst (os_run (registry_cmd (fst item)) w)) w with
  | Resolved msg_dir => found w (fst item) msg_dir (snd item)
  | _ => []
  end.

(** The resolver as a function of the world: the descriptors found, the
    packages missing and the world left, the registry being asked once per
    package, in the order of the map. *)
Fixpoint resolve_all (package_msgs : dict (list string)) (w : W)
  : list IdlGenerator * list string * W :=
  match package_msgs with
  | [] => ([], [], w)
  | (package, msg_types) :: rest =>
      let '(r, w') := os_run (registry_cmd package) w in
      let '(gens, missing, w'') := resolve_all rest w' in
      match resolution_of r w' with
      | Missing => (gens, package :: missing, w'')
      | NoMsgDir _ => (gens, missing, w'')
      | Resolved msg_dir =>
          (found w' package msg_dir msg_types ++ gens,
           match check_failure w' msg_dir msg_types with
           | Some _ => package :: missing
           | None => missing
           end,
           w'')
      end
  end.

(** A descriptor as [IdlGenerator.__init__] leaves it. *)
Definition initialised (gen : IdlGenerator) : Prop :=
  gen = IdlGenerator_init (package gen) (msg_type gen) (idl_path gen).

(** [h.exists() and c.exists()]: the second check is made only when the
    first one returns [True]. *)
Definition both_exist (w : W) (h c : Path.t) : stat_result :=
  match os_exists h w with
  | Known true => os_exists c w
  | r => r
  end.

(** The verification loop of one package group as a function of the world:
    the paths it appends and the exception, if any, that ends it. *)
Fixpoint recorded (output_dir pkg_output_dir : Path.t) (w : W)
    (generators : list IdlGenerator) : list Path.t * option exn :=
  match generators with
  | [] => ([], None)
  | gen :: rest =>
      let h := (pkg_output_dir / h_name gen)%path in
      let c := (pkg_output_dir / c_name gen)%path in
      match both_exist w h c with
      | Known true =>
          if Path.is_relative_to h output_dir && Path.is_relative_to c output_dir
          then
            let '(files, e) := recorded output_dir pkg_output_dir w rest in
            (h :: c :: files, e)
          else ([], Some (ValueError "is not in the subpath of"))
      | Known false => recorded output_dir pkg_output_dir w rest
      | StatFailed what => ([], Some (OSError what))
      end
  end.

(** What one package group adds to the generated files, [r] being what the
    generator did and [w] the world it left. *)
Definition group_files (output_dir pkg_output_dir : Path.t) (r : run_result)
    (w : W) (generators : list IdlGenerator) : list Path.t :=
  match r with
  | Exited returncode _ _ =>
      if (returncode =? 0)%Z
      then fst (recorded output_dir pkg_output_dir w generators)
      else []
  | NotStarted _ => []
  end.

(** The generator's loop over the package groups as a function of the
    world: the reason of the [mkdir] failure that ends it, if any, the files
    recorded and the world left. *)
Fixpoint generate_groups (output_dir : Path.t)
    (include_paths : option (list Path.t)) (replace : bool)
    (groups : dict (list IdlGenerator)) (w : W)
  : option string * list Path.t * W :=
  match groups with
  | [] => (None, [], w)
  | (package, generators) :: rest =>
      let pkg_output_dir := (output_dir / package / "msg")%path in
      match os_mkdir pkg_output_dir w with
      | (Some what, w1) => (Some what, [], w1)
      | (None, w1) =>
          let cmd := generator_cmd replace pkg_output_dir include_paths
                       (map (fun gen => Path.str (idl_path gen)) generators) in
          let '(r, w2) := os_run cmd w1 in
          let '(failure, files, w3) :=
            generate_groups output_dir include_paths replace rest w2 in
          (failure, group_files output_dir pkg_output_dir r w2 generators ++ files, w3)
      end
  end.

(** [generate_uxr_code] as a function of the world. *)
Definition generate_all (idl_generators : list IdlGenerator)
    (output_dir : Path.t) (include_paths : option (list Path.t))
    (replace : bool) (w : W) : outcome (list Path.t) * W :=
  match os_mkdir output_dir w with
  | (Some what, w0) => (Raise (OSError what), w0)
  | (None, w0) =>
      match generate_groups output_dir include_paths replace
              (group_by_package idl_generators) w0 with
      | (Some what, _, w3) => (Raise (OSError what), w3)
      | (None, files, w3) => (Return files, w3)
      end
  end.

(** [parse_message_list] as a function of the world. *)
Definition parse_outcome (message_file : Path.t) (w : W)
  : outcome (dict (list string)) :=
  match os_exists message_file w with
  | StatFailed what => Raise (OSError what)
  | Known false => Raise (FileNotFoundError message_file)
  | Known true =>
      match os_read message_file w with
      | CannotOpen what => Raise (OSError what)
      | Content _ (Some f) => Raise (read_failure_exn f)
      | Content text None =>
          Return (fold_left (fun d e => dict_append (fst e) (snd e) d)
                            (entries (Str.lines text)) [])
      end
  end.

(** [p.absolute()] as a function of the world. *)
Definition absolute_outcome (p : Path.t) (w : W) : outcome Path.t :=
  if Str.is_empty (Path.root p) then
    match os_getcwd w with
    | Cwd cwd => Return (Path.absolute cwd p)
    | NoCwd what => Raise (OSError what)
    end
  else Return p.

(** [main], from the parsed arguments on, as a function of the world. *)
Definition main_with_outcome (a : args) (w : W) : outcome unit * W :=
  match parse_outcome (message_file a) w with
  | Raise _ => (Raise (SystemExit 1), w)
  | Return [] => (Raise (SystemExit 1), w)
  | Return ((_ :: _) as package_msgs) =>
      let '(idl_generators, _, w2) := resolve_all package_msgs w in
      match idl_generators with
      | [] => (Raise (SystemExit 1), w2)
      | _ :: _ =>
          match generate_all idl_generators (output a) (Some (include a))
                  (replace a) w2 with
          | (Return _, w3) =>
              match absolute_outcome (output a) w3 with
              | Return _ => (Return tt, w3)
              | Raise e => (Raise e, w3)
              end
          | (Raise e, w3) => (Raise e, w3)
          end
      end
  end.

(** [main] as a function of the world. *)
Definition main_outcome (argv : list string) (w : W) : outcome unit * W :=
  match os_getcwd w with
  | NoCwd what => (Raise (OSError what), w)
  | Cwd cwd =>
      match parse_args (default_output cwd) argv with
      | Parsed a => main_with_outcome a w
      | UsageError => (Raise (SystemExit 2), w)
      | HelpRequested => (Raise (SystemExit 0), w)
      end
  end.

(** The outcome of a computation started in world [w] with a fresh logger,
    and the world it leaves. *)
Definition in_world {A} (m : M unit A) (w : W) : outcome A * W :=
  let '(o, _, s) := m tt (mkState w INFO []) in (o, world s).

(** *** Further vocabulary *)

(** The number of messages a map lists, over all its packages. *)
Definition total_messages {V} (d : dict (list V)) : nat :=
  list_sum (map (fun kv => length (snd kv)) d).

(** What [find_ros_share_dir] does with the registry's answer. *)
Definition share_dir_outcome (package : string) (r : run_result) : outcome Path.t :=
  match r with
  | Exited returncode stdout stderr =>
      if (returncode =? 0)%Z then
        if Str.is_empty (Str.strip stdout)
        then Raise (ValueError ("Empty share path for package '" ++ package ++ "'"))
        else Return (Path.of_str (Str.strip stdout))
      else Raise (CalledProcessError (registry_cmd package) returncode stderr)
  | NotStarted what => Raise (OSError what)
  end.

(** A package whose processing raises in a world the registry leaves as it
    is: the lookup fails, or an existence check raises. *)
Definition raises_in (w : W) (item : string * list string) : bool :=
  match resolution_of (fst (os_run (registry_cmd (fst item)) w)) w with
  | Missing => true
  | NoMsgDir _ => false
  | Resolved msg_dir =>
      match check_failure w msg_dir (snd item) with
      | Some _ => true
      | None => false
      end
  end.

(** The packages of a map whose processing raises, in the order of the
    map. *)
Definition missing_in (w : W) (package_msgs : dict (list string)) : list string :=
  map fst (filter (raises_in w) package_msgs).

(** A state whose logger is at the default level and has emitted no debug
    record. *)
Definition quiet (s : state) : Prop :=
  logger_level s = INFO /\ forall ev, ~ In (DEBUG, ev) (log s).

(** A state whose logger lets [INFO] records through. *)
Definition loud (s : state) : Prop := level_num (logger_level s) <= level_num INFO.

(** A computation that keeps an invariant of the state. *)
Definition keeps (I : state -> Prop) {L A} (m : M L A) : Prop :=
  forall l s, I s -> I (snd (m l s)).

(** ** Strings *)

Lemma eqb_space_nonspace (c d : ascii) :
  Str.isspace d = true -> Str.isspace c = false -> Ascii.eqb d c = false.
Proof.
  intros Hd Hc. destruct (Ascii.eqb_spec d c) as [->|]; congruence.
Qed.

Lemma rstrip_cons_nonspace (c : ascii) (r : string) :
  Str.isspace c = false -> exists r', Str.rstrip (String c r) = String c r'.
Proof.
  intros Hc. simpl. destruct (Str.rstrip r); rewrite ?Hc; eauto.
Qed.

Lemma startswith_char_strip (c : ascii) (s : string) :
  Str.isspace c = false ->
  Str.startswith_char c s = true -> Str.startswith_char c (Str.strip s) = true.
Proof.
  intros Hc Hs. destruct s as [|d r]; [discriminate|].
  simpl in Hs. apply Ascii.eqb_eq in Hs. subst d.
  unfold Str.strip. cbn [Str.lstrip]. rewrite Hc.
  destruct (rstrip_cons_nonspace c r Hc) as [r' ->].
  simpl. apply Ascii.eqb_refl.
Qed.

Lemma contains_char_lstrip (c : ascii) (s : string) :
  Str.isspace c = false ->
  Str.contains_char c (Str.lstrip s) = Str.contains_char c s.
Proof.
  intros Hc. induction s as [|d r IH]; [reflexivity|].
  cbn [Str.lstrip]. destruct (Str.isspace d) eqn:Hd; [|reflexivity].
  rewrite IH. simpl. now rewrite (eqb_space_nonspace c d Hd Hc).
Qed.

Lemma contains_char_rstrip (c : ascii) (s : string) :
  Str.isspace c = false ->
  Str.contains_char c (Str.rstrip s) = Str.contains_char c s.
Proof.
  intros Hc. induction s as [|d r IH]; [reflexivity|].
  cbn [Str.rstrip Str.contains_char].
  destruct (Str.rstrip r) as [|e r'] eqn:Hr.
  - rewrite <- IH. destruct (Str.isspace d) eqn:Hd; simpl.
    + now rewrite (eqb_space_nonspace c d Hd Hc).
    + reflexivity.
  - rewrite <- IH. reflexivity.
Qed.

Lemma contains_char_strip (c : ascii) (s : string) :
  Str.isspace c = false ->
  Str.contains_char c (Str.strip s) = Str.contains_char c s.
Proof.
  intros Hc. unfold Str.strip.
  now rewrite contains_char_rstrip, contains_char_lstrip.
Qed.

Lemma count_char_contains (c : ascii) (s : string) :
  0 < Str.count_char c s <-> Str.contains_char c s = true.
Proof.
  induction s as [|d r IH]; simpl.
  - split; [lia | discriminate].
  - destruct (Ascii.eqb d c); simpl; [split; auto; lia | exact IH].
Qed.

(** ** Dictionaries *)

Lemma dict_keys_append {V} (k : string) (v : V) (d : dict (list V)) :
  dict_keys (dict_append k v d)
  = if existsb (String.eqb k) (dict_keys d) then dict_keys d
    else dict_keys d ++ [k].
Proof.
  induction d as [|[k' vs] d IH]; [reflexivity|].
  simpl. destruct (String.eqb k k'); simpl; [reflexivity|].
  rewrite IH. now destruct (existsb (String.eqb k) (dict_keys d)).
Qed.

Lemma dict_get_append_same {V} (k : string) (v : V) (d : dict (list V)) :
  dict_get k (dict_append k v d)
  = Some (match dict_get k d with Some vs => vs | None => [] end ++ [v]).
Proof.
  induction d as [|[k' vs] d IH]; simpl.
  - now rewrite String.eqb_refl.
  - destruct (String.eqb k k') eqn:E; simpl; rewrite E; [reflexivity | exact IH].
Qed.

Lemma dict_get_append_other {V} (k k' : string) (v : V) (d : dict (list V)) :
  k' <> k -> dict_get k' (dict_append k v d) = dict_get k' d.
Proof.
  intros Hne. induction d as [|[k0 vs] d IH]; simpl.
  - destruct (String.eqb_spec k' k); congruence.
  - destruct (String.eqb_spec k k0) as [->|]; simpl.
    + destruct (String.eqb_spec k' k0); congruence.
    + now rewrite IH.
Qed.

Lemma dict_get_in_keys {V} (k : string) (d : dict V) :
  In k (dict_keys d) <-> dict_get k d <> None.
Proof.
  induction d as [|[k' v] d IH]; simpl.
  - tauto.
  - destruct (String.eqb_spec k k') as [->|Hne].
    + split; [discriminate | auto].
    + rewrite <- IH. split; [intros [?|?]; congruence || auto | auto].
Qed.

Lemma existsb_eqb_in (x : string) (xs : list string) :
  existsb (String.eqb x) xs = true <-> In x xs.
Proof.
  rewrite existsb_exists. split.
  - intros (y & Hy & E). apply String.eqb_eq in E. now subst.
  - intros H. exists x. split; [assumption | apply String.eqb_refl].
Qed.

Lemma NoDup_snoc (x : string) (xs : list string) :
  NoDup xs -> ~ In x xs -> NoDup (xs ++ [x]).
Proof.
  intros Hnd Hx. induction Hnd as [|y ys Hy Hnd IH]; simpl.
  - constructor; [tauto | constructor].
  - constructor.
    + rewrite in_app_iff. simpl in *. intuition.
    + apply IH. simpl in Hx. tauto.
Qed.

Lemma dict_append_nodup {V} (k : string) (v : V) (d : dict (list V)) :
  NoDup (dict_keys d) -> NoDup (dict_keys (dict_append k v d)).
Proof.
  intros Hnd. rewrite dict_keys_append.
  destruct (existsb (String.eqb k) (dict_keys d)) eqn:E; [assumption|].
  apply NoDup_snoc; [assumption|].
  rewrite <- existsb_eqb_in. congruence.
Qed.

(** Adding the entries of a file to a dictionary, one after the other. *)
Lemma dict_keys_add_entries (es : list (string * string)) (d : dict (list string)) :
  dict_keys (fold_left (fun d e => dict_append (fst e) (snd e) d) es d)
  = fold_left (fun seen x => if existsb (String.eqb x) seen then seen else seen ++ [x])
              (map fst es) (dict_keys d).
Proof.
  revert d. induction es as [|[p m] es IH]; intros d; [reflexivity|].
  simpl. rewrite IH, dict_keys_append. reflexivity.
Qed.

Lemma nodup_add_entries (es : list (string * string)) (d : dict (list string)) :
  NoDup (dict_keys d) ->
  NoDup (dict_keys (fold_left (fun d e => dict_append (fst e) (snd e) d) es d)).
Proof.
  revert d. induction es as [|[p m] es IH]; intros d Hd; [assumption|].
  simpl. apply IH, dict_append_nodup, Hd.
Qed.

Lemma dict_get_add_entries (p : string) (es : list (string * string))
    (d : dict (list string)) :
  dict_get p (fold_left (fun d e => dict_append (fst e) (snd e) d) es d)
  = match dict_get p d, messages_of p es with
    | None, [] => None
    | None, ms => Some ms
    | Some ms0, ms => Some (ms0 ++ ms)
    end.
Proof.
  revert d. induction es as [|[q m] es IH]; intros d.
  - simpl. destruct (dict_get p d); [now rewrite app_nil_r | reflexivity].
  - cbn [fold_left fst snd]. rewrite IH. unfold messages_of. cbn [filter fst].
    destruct (String.eqb_spec q p) as [->|Hne].
    + rewrite dict_get_append_same. cbn [map snd].
      destruct (dict_get p d); simpl; [now rewrite <- app_assoc | reflexivity].
    + rewrite dict_get_append_other by congruence. reflexivity.
Qed.

Lemma in_keys_add_entries (p : string) (es : list (string * string)) :
  In p (dict_keys (fold_left (fun d e => dict_append (fst e) (snd e) d) es []))
  <-> In p (map fst es).
Proof.
  rewrite dict_get_in_keys, dict_get_add_entries. simpl.
  unfold messages_of. induction es as [|[q m] es IH]; simpl.
  - tauto.
  - destruct (String.eqb_spec q p) as [->|Hne]; simpl.
    + split; [auto | discriminate].
    + rewrite <- IH. split; [auto | intros [?|?]; congruence || auto].
Qed.

(** ** The monad *)

Lemma world_emit (lvl : level) (ev : event) (s : state) :
  world (emit lvl ev s) = world s.
Proof.
  unfold emit. now destruct (level_num (logger_level s) <=? level_num lvl).
Qed.

Lemma bind_log {L A} (lvl : level) (ev : event) (k : unit -> M L A) l s :
  bind (logger_log lvl ev) k l s = k tt l (emit lvl ev s).
Proof. reflexivity. Qed.

Lemma bind_Return {L A B} (m : M L A) (k : A -> M L B) l s a l' s' :
  m l s = (Return a, l', s') -> bind m k l s = k a l' s'.
Proof. unfold bind. now intros ->. Qed.

Lemma bind_Raise {L A B} (m : M L A) (k : A -> M L B) l s e l' s' :
  m l s = (Raise e, l', s') -> bind m k l s = (Raise e, l', s').
Proof. unfold bind. now intros ->. Qed.

Lemma try_Return {L A} (body : M L A) catches handler l s a l' s' :
  body l s = (Return a, l', s') ->
  try_except body catches handler l s = (Return a, l', s').
Proof. unfold try_except. now intros ->. Qed.

Lemma try_Raise {L A} (body : M L A) catches handler l s e l' s' :
  body l s = (Raise e, l', s') ->
  try_except body catches handler l s
  = if catches e then handler e l' s' else (Raise e, l', s').
Proof. unfold try_except. now intros ->. Qed.

Lemma for_cons {L A} (x : A) (xs : list A) (body : A -> M L unit) l s :
  for_ (x :: xs) body l s
  = match body x l s with
    | (Return _, l', s') => for_ xs body l' s'
    | (Raise e, l', s') => (Raise e, l', s')
    end.
Proof. reflexivity. Qed.

(** ** The list parser *)

Lemma is_entry_stripped (line : string) :
  is_entry line
  = negb (Str.is_empty (Str.strip line) || Str.startswith_char "#" (Str.strip line))
    && Str.contains_char "/" (Str.strip line)
    && negb (Str.is_empty (package_part line) || Str.is_empty (message_part line)).
Proof.
  unfold is_entry, is_blank, is_comment.
  rewrite (contains_char_strip "/" line) by reflexivity.
  rewrite !negb_orb, !andb_assoc. reflexivity.
Qed.

(** One turn of the parser's loop: the line's entry, if it has one, goes to
    the dictionary; no line raises. *)
Lemma parse_line_run (line : string) (d : dict (list string)) (s : state) :
  exists s',
    parse_line line d s
    = (Return tt,
       match entry_of line with
       | Some (p, m) => dict_append p m d
       | None => d
       end, s')
    /\ world s' = world s.
Proof.
  unfold entry_of. rewrite is_entry_stripped.
  unfold parse_line, package_part, message_part.
  destruct (Str.is_empty (Str.strip line) || Str.startswith_char "#" (Str.strip line)).
  { exists s. split; reflexivity. }
  cbn [negb andb].
  destruct (Str.contains_char "/" (Str.strip line)) eqn:Hslash; cbn [negb andb].
  2:{ eexists. split; [reflexivity | apply world_emit]. }
  unfold Str.split1. rewrite Hslash.
  destruct (Str.is_empty (Str.strip (Str.before_first "/" (Str.strip line)))
            || Str.is_empty (Str.strip (Str.after_first "/" (Str.strip line)))).
  - eexists. split; [reflexivity | apply world_emit].
  - exists s. split; reflexivity.
Qed.

Lemma parse_lines_run (lines : list string) (d : dict (list string)) (s : state) :
  exists s',
    for_ lines parse_line d s
    = (Return tt,
       fold_left (fun d e => dict_append (fst e) (snd e) d) (entries lines) d, s')
    /\ world s' = world s.
Proof.
  revert d s. induction lines as [|line lines IH]; intros d s.
  - exists s. split; reflexivity.
  - rewrite for_cons.
    destruct (parse_line_run line d s) as (s1 & -> & Hw1).
    destruct (IH (match entry_of line with
                  | Some (p, m) => dict_append p m d
                  | None => d
                  end) s1) as (s2 & -> & Hw2).
    exists s2. split; [|congruence].
    unfold entries. cbn [flat_map]. rewrite fold_left_app.
    destruct (entry_of line) as [[p m]|]; reflexivity.
Qed.

Lemma startswith_hash_comment (line : string) :
  Str.startswith_char "#" line = true -> is_comment line = true.
Proof. apply startswith_char_strip. reflexivity. Qed.

Lemma not_entry_blank_comment (line : string) :
  is_blank line = true \/ is_comment line = true -> entry_of line = None.
Proof.
  unfold entry_of, is_entry.
  intros [-> | ->]; cbn; [reflexivity|].
  now destruct (is_blank line).
Qed.

Lemma in_entries (e : string * string) (lines : list string) :
  In e (entries lines) <-> exists line, In line lines /\ entry_of line = Some e.
Proof.
  unfold entries. rewrite in_flat_map. split.
  - intros (line & Hin & He). exists line. split; [assumption|].
    destruct (entry_of line); simpl in He; [|tauto].
    destruct He as [->|[]]. reflexivity.
  - intros (line & Hin & He). exists line. rewrite He. simpl. auto.
Qed.

(** C1: for a readable input file, [parse_message_list] returns a map whose
    keys are exactly the packages named by the lines that are neither blank
    nor comments, contain a [/] and have non-empty package and message
    parts, each key once and in the order of first appearance; each package
    is bound to its messages in the order of the lines; blank lines and
    lines beginning with [#] name nothing. *)
Theorem parse_message_list_entries {L} (message_file : Path.t) (text : string)
    (l : L) (s : state) :
  os_exists message_file (world s) = Known true ->
  os_read message_file (world s) = Content text None ->
  let es := entries (Str.lines text) in
  exists package_msgs s',
    parse_message_list message_file l s = (Return package_msgs, l, s')
    /\ world s' = world s
    /\ NoDup (dict_keys package_msgs)
    /\ dict_keys package_msgs = distinct (map fst es)
    /\ (forall p, In p (dict_keys package_msgs) <->
                  exists line, In line (Str.lines text) /\ is_entry line = true
                               /\ package_part line = p)
    /\ (forall p, In p (dict_keys package_msgs) ->
                  dict_get p package_msgs = Some (messages_of p es))
    /\ (forall line, is_blank line = true \/ Str.startswith_char "#" line = true ->
                     entry_of line = None).
Proof.
  intros Hex Hread es.
  destruct (parse_lines_run (Str.lines text) [] s) as (s' & Hrun & Hw).
  exists (fold_left (fun d e => dict_append (fst e) (snd e) d) es []), s'.
  split.
  { unfold parse_message_list, call, bind, path_exists, for_lines_of, get_local.
    rewrite Hex. cbn [negb]. rewrite Hread. unfold bind. rewrite Hrun. reflexivity. }
  split; [assumption|].
  split; [apply nodup_add_entries; constructor|].
  split; [apply (dict_keys_add_entries es [])|].
  split; [|split].
  - intros p. rewrite in_keys_add_entries, in_map_iff. split.
    + intros ([p' m] & <- & Hin). apply in_entries in Hin.
      destruct Hin as (line & Hin & He). exists line.
      unfold entry_of in He. destruct (is_entry line); [|discriminate].
      injection He as <- <-. auto.
    + intros (line & Hin & He & <-).
      exists (package_part line, message_part line). split; [reflexivity|].
      apply in_entries. exists line. unfold entry_of. now rewrite He.
  - intros p Hin. rewrite dict_get_add_entries. cbn [dict_get].
    apply in_keys_add_entries in Hin.
    destruct (messages_of p es) eqn:E; [|reflexivity].
    exfalso. apply in_map_iff in Hin. destruct Hin as ([p' m] & <- & Hin).
    unfold messages_of in E. apply map_eq_nil in E.
    assert (Hf : In (p', m) (filter (fun e => String.eqb (fst e) p') es)).
    { apply filter_In. split; [assumption | apply String.eqb_refl]. }
    unfold fst in E at 2. simpl in E. rewrite E in Hf. destruct Hf.
  - intros line [Hb | Hc]; apply not_entry_blank_comment; auto.
    right. now apply startswith_hash_comment.
Qed.

Lemma is_empty_true (x : string) : Str.is_empty x = true <-> x = "".
Proof. destruct x; simpl; split; congruence. Qed.

(** C2, as amended: a line is judged on its first [/] alone.  A line that is
    neither blank nor a comment is skipped exactly when it has no [/] or when
    the text before or after its first [/] is empty once trimmed; any other
    line is added as (text before the first [/], text after it), so a line
    with more than one [/] and non-empty sides is added too.  No line stops
    the parser: the loop goes on with the rest of the file. *)
Theorem parse_line_first_slash (line : string) (rest : list string)
    (d : dict (list string)) (s : state) :
  let d' := if is_entry line
            then dict_append (package_part line) (message_part line) d
            else d in
  (exists s',
     parse_line line d s = (Return tt, d', s')
     /\ world s' = world s
     /\ for_ (line :: rest) parse_line d s = for_ rest parse_line d' s')
  /\ (is_blank line = false -> is_comment line = false ->
      (is_entry line = false <->
       Str.contains_char "/" line = false
       \/ package_part line = "" \/ message_part line = ""))
  /\ (is_blank line = false -> is_comment line = false ->
      1 < Str.count_char "/" line ->
      package_part line <> "" -> message_part line <> "" ->
      is_entry line = true).
Proof.
  intros d'. split; [|split].
  - destruct (parse_line_run line d s) as (s' & Hrun & Hw).
    exists s'. unfold entry_of in Hrun. fold d' in Hrun.
    assert (Hd : match (if is_entry line
                        then Some (package_part line, message_part line)
                        else None) with
                 | Some (p, m) => dict_append p m d
                 | None => d
                 end = d') by (unfold d'; now destruct (is_entry line)).
    rewrite Hd in Hrun.
    split; [assumption|]. split; [assumption|].
    rewrite for_cons, Hrun. reflexivity.
  - intros Hb Hc. unfold is_entry. rewrite Hb, Hc. cbn [negb andb].
    rewrite <- !is_empty_true.
    destruct (Str.contains_char "/" line), (Str.is_empty (package_part line)),
      (Str.is_empty (message_part line)); cbn; intuition congruence.
  - intros Hb Hc Hcount Hp Hm. unfold is_entry. rewrite Hb, Hc.
    assert (Hs : Str.contains_char "/" line = true)
      by (apply count_char_contains; lia).
    rewrite Hs. cbn [negb andb].
    rewrite <- is_empty_true in Hp, Hm.
    destruct (Str.is_empty (package_part line)), (Str.is_empty (message_part line));
      cbn; congruence.
Qed.

(** ** Paths *)

Lemma is_prefix_app (xs ys : list string) : Path.is_prefix xs (xs ++ ys) = true.
Proof.
  induction xs as [|x xs IH]; [reflexivity|].
  simpl. now rewrite String.eqb_refl.
Qed.

(** ** The path resolver *)

Lemma lookup_fails_missing (r : run_result) (w : W) :
  lookup_fails r -> resolution_of r w = Missing.
Proof.
  destruct r as [rc out err|what]; simpl; [|reflexivity].
  intros [Hrc | Hout].
  - destruct (Z.eqb_spec rc 0); [contradiction | reflexivity].
  - rewrite Hout. now destruct (rc =? 0)%Z.
Qed.

(** The registry lookup: it returns the share directory when the command
    exits with 0 and prints a path, and raises an [Exception] otherwise. *)
Lemma find_ros_share_dir_run {L} (package : string) (l : L) (s : state)
    (r : run_result) (w' : W) :
  os_run (registry_cmd package) (world s) = (r, w') ->
  exists s',
    world s' = w'
    /\ match r with
       | Exited returncode stdout _ =>
           if ((returncode =? 0)%Z && negb (Str.is_empty (Str.strip stdout)))%bool
           then find_ros_share_dir package l s
                = (Return (Path.of_str (Str.strip stdout)), l, s')
           else exists e, find_ros_share_dir package l s = (Raise e, l, s')
                          /\ is_Exception e = true
       | NotStarted _ =>
           exists e, find_ros_share_dir package l s = (Raise e, l, s')
                     /\ is_Exception e = true
       end.
Proof.
  intros Hrun. unfold registry_cmd in Hrun.
  unfold find_ros_share_dir, try_except, subprocess_run, bind, with_world.
  rewrite Hrun. destruct r as [rc out err|what].
  - destruct (rc =? 0)%Z; cbn.
    + destruct (Str.is_empty (Str.strip out)); cbn.
      * eexists. split; [|eexists; split; reflexivity].
        rewrite world_emit. reflexivity.
      * eexists. split; [|reflexivity]. reflexivity.
    + eexists. split; [|eexists; split; reflexivity].
      rewrite !world_emit. reflexivity.
  - cbn. eexists. split; [|eexists; split; reflexivity].
    rewrite world_emit. reflexivity.
Qed.

(** The loop over the messages of a package: the descriptors of the IDL
    files that exist are appended, in order. *)
Lemma locate_msgs_run (package : string) (msg_dir : Path.t)
    (msg_types : list string) (l : locate_locals) (s : state) :
  exists s',
    for_ msg_types (locate_msg package msg_dir) l s
    = (match check_failure (world s) msg_dir msg_types with
       | None => Return tt
       | Some what => Raise (OSError what)
       end,
       mkLocate (idl_generators l ++ found (world s) package msg_dir msg_types)
                (missing_packages l), s')
    /\ world s' = world s.
Proof.
  revert l s. induction msg_types as [|m ms IH]; intros l s.
  - exists s. unfold found. simpl. rewrite app_nil_r. now destruct l.
  - rewrite for_cons. unfold locate_msg at 1, bind, path_exists, found, exists_true.
    cbn [checked_prefix check_failure].
    destruct (os_exists (msg_dir / (m ++ ".idl"))%path (world s)) as [[|]|what] eqn:Hex;
      cbn [negb filter map].
    + unfold exists_true. rewrite Hex. cbn [filter map].
      destruct (IH (mkLocate (idl_generators l
                              ++ [IdlGenerator_init package m (msg_dir / (m ++ ".idl"))%path])
                             (missing_packages l)) s) as (s' & Hrun & Hw).
      cbn [modify_local]. rewrite Hrun.
      exists s'. split; [|assumption].
      cbn [idl_generators missing_packages]. unfold found, descriptor, exists_true.
      now rewrite <- app_assoc.
    + unfold exists_true. rewrite Hex. cbn [filter map].
      destruct (IH l (emit WARNING (IdlFileNotFound (msg_dir / (m ++ ".idl"))%path) s))
        as (s' & Hrun & Hw).
      cbn [logger_log]. rewrite Hrun.
      rewrite world_emit in *. exists s'. split; [reflexivity | assumption].
    + exists s. cbn. rewrite app_nil_r. split; [now destruct l | reflexivity].
Qed.

(** The [try] block of one turn of the resolver's loop: it raises when the
    lookup or an existence check does; the descriptors appended before the
    exception stay. *)
Lemma locate_package_body_run (package : string) (msg_types : list string)
    (l : locate_locals) (s : state) (r : run_result) (w' : W) :
  os_run (registry_cmd package) (world s) = (r, w') ->
  exists s',
    world s' = w'
    /\ match resolution_of r w' with
       | Missing =>
           exists e, locate_package_body package msg_types l s = (Raise e, l, s')
                     /\ is_Exception e = true
       | NoMsgDir _ => locate_package_body package msg_types l s = (Return tt, l, s')
       | Resolved msg_dir =>
           locate_package_body package msg_types l s
           = (match check_failure w' msg_dir msg_types with
              | None => Return tt
              | Some what => Raise (OSError what)
              end,
              mkLocate (idl_generators l ++ found w' package msg_dir msg_types)
                       (missing_packages l), s')
       end.
Proof.
  intros Hrun.
  destruct (find_ros_share_dir_run package l s r w' Hrun) as (s1 & Hw1 & Hfind).
  assert (Hmiss : (exists e, find_ros_share_dir package l s = (Raise e, l, s1)
                             /\ is_Exception e = true) ->
            exists s',
              world s' = w'
              /\ exists e, locate_package_body package msg_types l s = (Raise e, l, s')
                           /\ is_Exception e = true).
  { intros (e & Hf & He). exists s1. split; [assumption|]. exists e.
    split; [|assumption]. unfold locate_package_body.
    now erewrite bind_Raise by exact Hf. }
  destruct r as [rc out err|what]; [|exact (Hmiss Hfind)].
  cbn [resolution_of] in *.
  destruct (rc =? 0)%Z; cbn [andb] in Hfind; [|exact (Hmiss Hfind)].
  destruct (Str.is_empty (Str.strip out)); cbn [negb] in Hfind; [exact (Hmiss Hfind)|].
  clear Hmiss. unfold locate_package_body.
  erewrite bind_Return by exact Hfind.
  set (msg_dir := (Path.of_str (Str.strip out) / "msg")%path).
  unfold bind, path_exists. rewrite Hw1.
  destruct (os_exists msg_dir w') as [[|]|what] eqn:Hex; cbn [negb].
  - destruct (locate_msgs_run package msg_dir msg_types l s1) as (s' & Hmsgs & Hw).
    rewrite Hw1 in *. exists s'. split; assumption.
  - eexists. split; [|reflexivity]. now rewrite world_emit.
  - exists s1. split; [assumption|]. exists (OSError what). split; reflexivity.
Qed.

(** One turn of the resolver's loop: an exception of the lookup or of an
    existence check is caught, and the package is then counted as missing;
    the descriptors appended before the exception stay. *)
Lemma locate_package_run (package : string) (msg_types : list string)
    (l : locate_locals) (s : state) (r : run_result) (w' : W) :
  os_run (registry_cmd package) (world s) = (r, w') ->
  exists s',
    locate_package (package, msg_types) l s
    = (Return tt,
       match resolution_of r w' with
       | Missing =>
           mkLocate (idl_generators l) (missing_packages l ++ [package])
       | NoMsgDir _ => l
       | Resolved msg_dir =>
           mkLocate (idl_generators l ++ found w' package msg_dir msg_types)
                    (missing_packages l
                     ++ match check_failure w' msg_dir msg_types with
                        | Some _ => [package]
                        | None => []
                        end)
       end, s')
    /\ world s' = w'.
Proof.
  intros Hrun.
  destruct (locate_package_body_run package msg_types l s r w' Hrun)
    as (s1 & Hw1 & Hbody).
  unfold locate_package.
  destruct (resolution_of r w') as [|d|msg_dir].
  - destruct Hbody as (e & Hb & He). erewrite try_Raise by exact Hb. rewrite He.
    cbn. eexists. split; [reflexivity|]. now rewrite world_emit.
  - exists s1. split; [|assumption]. apply try_Return. exact Hbody.
  - destruct (check_failure w' msg_dir msg_types) as [what|].
    + erewrite try_Raise by exact Hbody.
      cbn. eexists. split; [reflexivity|]. now rewrite world_emit.
    + exists s1. rewrite app_nil_r. split; [|assumption].
      apply try_Return. exact Hbody.
Qed.

(** The resolver's loop computes [resolve_all] and never raises. *)
Lemma locate_loop_run (package_msgs : dict (list string)) (l : locate_locals)
    (s : state) :
  exists s',
    for_ package_msgs locate_package l s
    = (Return tt,
       mkLocate (idl_generators l ++ fst (fst (resolve_all package_msgs (world s))))
                (missing_packages l ++ snd (fst (resolve_all package_msgs (world s)))),
       s')
    /\ world s' = snd (resolve_all package_msgs (world s)).
Proof.
  revert l s. induction package_msgs as [|[package msg_types] rest IH]; intros l s.
  - exists s. simpl. rewrite !app_nil_r. now destruct l.
  - rewrite for_cons. cbn [resolve_all].
    destruct (os_run (registry_cmd package) (world s)) as [r w'] eqn:Hrun.
    destruct (locate_package_run package msg_types l s r w' Hrun) as (s1 & -> & Hw1).
    match goal with |- context [for_ rest locate_package ?l1 s1] =>
      destruct (IH l1 s1) as (s2 & -> & Hw2) end.
    rewrite Hw1 in *.
    destruct (resolve_all rest w') as [[gens missing] w''].
    exists s2. split; [|now destruct (resolution_of r w')].
    destruct (resolution_of r w') as [|d|msg_dir];
      cbn [idl_generators missing_packages fst snd];
      rewrite <- ?app_assoc; try reflexivity.
    now destruct (check_failure w' msg_dir msg_types).
Qed.

Lemma locate_idl_files_run {L} (package_msgs : dict (list string)) (l : L)
    (s : state) :
  exists s',
    locate_idl_files package_msgs l s
    = (Return (fst (fst (resolve_all package_msgs (world s)))), l, s')
    /\ world s' = snd (resolve_all package_msgs (world s)).
Proof.
  destruct (locate_loop_run package_msgs (mkLocate [] []) s) as (s1 & Hloop & Hw).
  unfold locate_idl_files, call, bind, get_local. rewrite Hloop.
  cbn [idl_generators missing_packages app].
  destruct (snd (fst (resolve_all package_msgs (world s)))).
  - exists s1. split; [reflexivity | assumption].
  - eexists. split; [reflexivity|]. now rewrite world_emit.
Qed.

Lemma resolve_all_read_only (package_msgs : dict (list string)) (w : W) :
  (forall package w, snd (os_run (registry_cmd package) w) = w) ->
  fst (fst (resolve_all package_msgs w)) = flat_map (contribution w) package_msgs
  /\ snd (resolve_all package_msgs w) = w.
Proof.
  intros Hro. induction package_msgs as [|[package msg_types] rest [IHg IHw]].
  - split; reflexivity.
  - cbn [resolve_all flat_map]. unfold contribution at 1. cbn [fst snd].
    specialize (Hro package w).
    destruct (os_run (registry_cmd package) w) as [r w']. cbn [fst snd] in *.
    subst w'. destruct (resolve_all rest w) as [[gens missing] w''].
    cbn [fst snd] in *. subst.
    destruct (resolution_of r w); split; reflexivity.
Qed.

(** The message types looked at are a prefix of the package's list: all of
    it when no existence check raises. *)
Lemma checked_prefix_firstn (w : W) (msg_dir : Path.t) (msg_types : list string) :
  exists n, checked_prefix w msg_dir msg_types = firstn n msg_types.
Proof.
  induction msg_types as [|m ms [n IH]]; [now exists 0|].
  cbn [checked_prefix]. destruct (os_exists _ w).
  - exists (S n). cbn [firstn]. now rewrite IH.
  - now exists 0.
Qed.

Lemma checked_prefix_all (w : W) (msg_dir : Path.t) (msg_types : list string) :
  (forall m, In m msg_types -> checked w (msg_dir / (m ++ ".idl"))%path) ->
  checked_prefix w msg_dir msg_types = msg_types
  /\ check_failure w msg_dir msg_types = None.
Proof.
  induction msg_types as [|m ms IH]; intros H; [split; reflexivity|].
  cbn [checked_prefix check_failure].
  destruct (H m (or_introl eq_refl)) as [b ->].
  destruct IH as [-> ->]; [intros x Hx; apply H; now right|].
  split; reflexivity.
Qed.

(** C5: a package whose registry lookup fails (the command exits non-zero,
    prints an empty path, or cannot be run) adds no descriptor, is appended
    to [missing_packages], and the loop goes on with the remaining packages;
    a package whose share directory has no [msg] subdirectory adds no
    descriptor either, and the loop goes on likewise. *)
Theorem locate_package_skips (package : string) (msg_types : list string)
    (rest : dict (list string)) (l : locate_locals) (s : state)
    (r : run_result) (w' : W) :
  os_run (registry_cmd package) (world s) = (r, w') ->
  (lookup_fails r ->
   exists s',
     locate_package (package, msg_types) l s
     = (Return tt, mkLocate (idl_generators l) (missing_packages l ++ [package]), s')
     /\ world s' = w'
     /\ for_ ((package, msg_types) :: rest) locate_package l s
        = for_ rest locate_package
               (mkLocate (idl_generators l) (missing_packages l ++ [package])) s')
  /\ (forall stdout stderr,
        r = Exited 0 stdout stderr ->
        Str.strip stdout <> "" ->
        os_exists (Path.of_str (Str.strip stdout) / "msg")%path w' = Known false ->
        exists s',
          locate_package (package, msg_types) l s = (Return tt, l, s')
          /\ world s' = w'
          /\ for_ ((package, msg_types) :: rest) locate_package l s
             = for_ rest locate_package l s').
Proof.
  intros Hrun.
  destruct (locate_package_run package msg_types l s r w' Hrun) as (s' & Hp & Hw).
  split.
  - intros Hfail. rewrite (lookup_fails_missing r w' Hfail) in Hp.
    exists s'. repeat split; try assumption. now rewrite for_cons, Hp.
  - intros out err -> Hout Hex. cbn [resolution_of Z.eqb] in Hp.
    rewrite <- is_empty_true in Hout.
    destruct (Str.is_empty (Str.strip out)); [congruence|].
    rewrite Hex in Hp.
    exists s'. repeat split; try assumption. now rewrite for_cons, Hp.
Qed.

Lemma idl_under_msg_dir (msg_dir : Path.t) (msg_type : string) :
  Str.startswith_char "/" msg_type = false ->
  Path.is_relative_to (msg_dir / (msg_type ++ ".idl"))%path msg_dir = true.
Proof.
  intros Hm. unfold Path.div.
  assert (Hs : Str.startswith_char "/" (msg_type ++ ".idl") = false)
    by (destruct msg_type; [reflexivity | exact Hm]).
  rewrite Hs. unfold Path.is_relative_to. cbn [Path.root Path.names].
  rewrite String.eqb_refl. apply is_prefix_app.
Qed.

Lemma checked_prefix_stops (w : W) (msg_dir : Path.t)
    (before : list string) (m : string) (after : list string) (what : string) :
  (forall m', In m' before -> checked w (msg_dir / (m' ++ ".idl"))%path) ->
  os_exists (msg_dir / (m ++ ".idl"))%path w = StatFailed what ->
  checked_prefix w msg_dir (before ++ m :: after) = before
  /\ check_failure w msg_dir (before ++ m :: after) = Some what.
Proof.
  intros Hbefore Hm. induction before as [|x before IH];
    cbn [app checked_prefix check_failure].
  - rewrite Hm. split; reflexivity.
  - destruct (Hbefore x (or_introl eq_refl)) as [b ->].
    destruct IH as [-> ->]; [intros m' H; apply Hbefore; now right|].
    split; reflexivity.
Qed.


(** C9: when the registry command leaves the world as it is, running
    [locate_idl_files] a second time, after the first, returns the same
    descriptor list: the concatenation, in the order of the map, of what each
    package contributes, each contribution following the order of the
    package's message list (of the part of it that is looked at, which is
    all of it when no existence check raises). *)
Theorem locate_idl_files_idempotent {L} (package_msgs : dict (list string))
    (l : L) (s : state) :
  (forall package w, snd (os_run (registry_cmd package) w) = w) ->
  let gens := flat_map (contribution (world s)) package_msgs in
  (exists s1 s2,
     locate_idl_files package_msgs l s = (Return gens, l, s1)
     /\ world s1 = world s
     /\ locate_idl_files package_msgs l s1 = (Return gens, l, s2)
     /\ world s2 = world s)
  /\ (forall item, In item package_msgs ->
        exists keep n,
          map msg_type (contribution (world s) item) = filter keep (firstn n (snd item))
          /\ ((forall msg_dir m,
                 resolution_of (fst (os_run (registry_cmd (fst item)) (world s)))
                               (world s) = Resolved msg_dir ->
                 In m (snd item) ->
                 checked (world s) (msg_dir / (m ++ ".idl"))%path) ->
              map msg_type (contribution (world s) item) = filter keep (snd item))
          /\ forall gen, In gen (contribution (world s) item) ->
                         package gen = fst item).
Proof.
  intros Hro gens. split.
  - destruct (locate_idl_files_run package_msgs l s) as (s1 & H1 & Hw1).
    destruct (locate_idl_files_run package_msgs l s1) as (s2 & H2 & Hw2).
    destruct (resolve_all_read_only package_msgs (world s) Hro) as [Hg Hw].
    rewrite Hw in Hw1. rewrite Hw1 in H2, Hw2. rewrite Hw in Hw2.
    rewrite Hg in H1, H2. exists s1, s2. auto.
  - intros [package msg_types] _. unfold contribution. cbn [fst snd].
    destruct (resolution_of _ _) as [|d|msg_dir].
    + exists (fun _ => false), 0. repeat split; try (intros ? []).
      intros _. induction msg_types; simpl; auto.
    + exists (fun _ => false), 0. repeat split; try (intros ? []).
      intros _. induction msg_types; simpl; auto.
    + destruct (checked_prefix_firstn (world s) msg_dir msg_types) as [n Hn].
      exists (fun m => exists_true (world s) (msg_dir / (m ++ ".idl"))%path), n.
      unfold found. rewrite map_map. cbn [descriptor IdlGenerator_init msg_type].
      rewrite map_id. split; [now rewrite Hn|]. split.
      * intros Hall.
        destruct (checked_prefix_all (world s) msg_dir msg_types
                    (fun m => Hall msg_dir m eq_refl)) as [-> _].
        reflexivity.
      * intros gen Hin. apply in_map_iff in Hin. now destruct Hin as (m & <- & _).
Qed.

(** ** The batch generator *)

Lemma path_str_not_empty (p : Path.t) : Str.is_empty (Path.str p) = false.
Proof.
  unfold Path.str. now destruct (Path.root p ++ Str.join "/" (Path.names p))%string.
Qed.

Lemma flat_map_ext_In {A B} (f g : A -> list B) (xs : list A) :
  (forall x, In x xs -> f x = g x) -> flat_map f xs = flat_map g xs.
Proof.
  induction xs as [|x xs IH]; intros H; [reflexivity|].
  simpl. rewrite (H x) by (now left). f_equal. apply IH. intros y Hy. apply H. now right.
Qed.

Lemma filter_keeps_all {A} (f : A -> bool) (xs : list A) :
  (forall x, In x xs -> f x = true) -> filter f xs = xs.
Proof.
  induction xs as [|x xs IH]; intros H; [reflexivity|].
  simpl. rewrite (H x) by (now left). f_equal. apply IH. intros y Hy. apply H. now right.
Qed.

(** The command line, argument by argument: the empty string that stands
    for a disabled overwrite flag is the only argument filtered out. *)
Lemma generator_cmd_order (replace : bool) (pkg_output_dir : Path.t)
    (include_paths : option (list Path.t)) (idl_paths : list Path.t) :
  generator_cmd replace pkg_output_dir include_paths (map Path.str idl_paths)
  = ["microxrceddsgen"; "-cs"]
    ++ (if replace then ["-replace"] else [])
    ++ ["-d"; Path.str pkg_output_dir]
    ++ flat_map (fun path => ["-I"; Path.str path])
                (match include_paths with Some paths => paths | None => [] end)
    ++ map Path.str idl_paths.
Proof.
  unfold generator_cmd.
  assert (Hinc : forall paths : list Path.t,
            filter (fun arg => negb (Str.is_empty arg))
                   (flat_map (fun path => ["-I"; Path.str path]) paths)
            = flat_map (fun path => ["-I"; Path.str path]) paths).
  { intros paths. apply filter_keeps_all. intros x Hx.
    apply in_flat_map in Hx. destruct Hx as (q & _ & [<-|[<-|[]]]);
      [reflexivity | now rewrite path_str_not_empty]. }
  assert (Hidl : filter (fun arg => negb (Str.is_empty arg)) (map Path.str idl_paths)
                 = map Path.str idl_paths).
  { apply filter_keeps_all. intros x Hx. apply in_map_iff in Hx.
    destruct Hx as (q & <- & _). now rewrite path_str_not_empty. }
  assert (Hhead : filter (fun arg => negb (Str.is_empty arg))
                    ["microxrceddsgen"; "-cs"; if replace then "-replace" else "";
                     "-d"; Path.str pkg_output_dir]
                  = ["microxrceddsgen"; "-cs"]
                    ++ (if replace then ["-replace"] else [])
                    ++ ["-d"; Path.str pkg_output_dir]).
  { cbn. rewrite path_str_not_empty. now destruct replace. }
  destruct include_paths as [[|q paths]|];
    rewrite ?filter_app, ?Hinc, ?Hidl, Hhead, <- ?app_assoc; cbn [flat_map app];
    reflexivity.
Qed.

(** One turn of the verification loop. *)
Lemma both_exist_true (w : W) (h c : Path.t) :
  both_exist w h c = Known true <->
  os_exists h w = Known true /\ os_exists c w = Known true.
Proof.
  unfold both_exist. destruct (os_exists h w) as [[|]|what]; split;
    try discriminate; try (intros H; now split); try (now intros [_ H]);
    intros [H _]; discriminate.
Qed.

Lemma record_generated_run (output_dir pkg_output_dir : Path.t)
    (package : string) (gen : IdlGenerator) (l : list Path.t) (s : state) :
  let h := (pkg_output_dir / h_name gen)%path in
  let c := (pkg_output_dir / c_name gen)%path in
  exists s',
    world s' = world s
    /\ record_generated output_dir pkg_output_dir package gen l s
       = match both_exist (world s) h c with
         | Known true =>
             if Path.is_relative_to h output_dir && Path.is_relative_to c output_dir
             then (Return tt, l ++ [h; c], s')
             else (Raise (ValueError "is not in the subpath of"), l, s')
         | Known false =>
             (Return tt, l, emit WARNING (MissingGeneratedFiles package (msg_type gen)) s)
         | StatFailed what => (Raise (OSError what), l, s)
         end.
Proof.
  intros h c. unfold record_generated, bind, path_exists, ret, both_exist.
  fold h c. unfold Path.relative_to.
  destruct (os_exists h (world s)) as [[|]|what].
  2:{ exists s. split; reflexivity. }
  2:{ exists s. split; reflexivity. }
  destruct (os_exists c (world s)) as [[|]|what].
  2:{ exists s. split; reflexivity. }
  2:{ exists s. split; reflexivity. }
  destruct (Path.is_relative_to h output_dir); cbn [andb].
  2:{ exists s. split; reflexivity. }
  destruct (Path.is_relative_to c output_dir); cbn.
  - eexists. split; [|unfold modify_local; rewrite <- app_assoc; reflexivity].
    now rewrite !world_emit.
  - eexists. split; [|reflexivity]. now rewrite world_emit.
Qed.

Lemma record_loop_run (output_dir pkg_output_dir : Path.t) (package : string)
    (generators : list IdlGenerator) (l : list Path.t) (s : state) :
  exists s',
    world s' = world s
    /\ for_ generators (record_generated output_dir pkg_output_dir package) l s
       = (match snd (recorded output_dir pkg_output_dir (world s) generators) with
          | None => Return tt
          | Some e => Raise e
          end,
          l ++ fst (recorded output_dir pkg_output_dir (world s) generators), s').
Proof.
  revert l s. induction generators as [|gen rest IH]; intros l s.
  - exists s. simpl. now rewrite app_nil_r.
  - rewrite for_cons. cbn [recorded].
    destruct (record_generated_run output_dir pkg_output_dir package gen l s)
      as (s1 & Hw1 & ->).
    destruct (both_exist (world s) _ _) as [[|]|what].
    + destruct (Path.is_relative_to _ output_dir && Path.is_relative_to _ output_dir).
      * destruct (IH (l ++ [(pkg_output_dir / h_name gen)%path;
                            (pkg_output_dir / c_name gen)%path]) s1)
          as (s2 & Hw2 & ->).
        rewrite Hw1 in *.
        destruct (recorded output_dir pkg_output_dir (world s) rest) as [files e].
        exists s2. split; [assumption|]. cbn [fst snd].
        now rewrite <- app_assoc.
      * exists s1. split; [assumption|]. cbn [fst snd]. now rewrite app_nil_r.
    + destruct (IH l (emit WARNING (MissingGeneratedFiles package (msg_type gen)) s))
        as (s2 & Hw2 & ->).
      rewrite world_emit in *. exists s2. split; [assumption | reflexivity].
    + exists s. split; [reflexivity|]. cbn [fst snd]. now rewrite app_nil_r.
Qed.

Lemma recorded_exception (output_dir pkg_output_dir : Path.t) (w : W)
    (generators : list IdlGenerator) (e : exn) :
  snd (recorded output_dir pkg_output_dir w generators) = Some e ->
  is_Exception e = true /\ is_CalledProcessError e = false.
Proof.
  induction generators as [|gen rest IH]; cbn [recorded]; [discriminate|].
  destruct (both_exist w _ _) as [[|]|what]; [|exact IH|].
  - destruct (Path.is_relative_to _ output_dir && Path.is_relative_to _ output_dir).
    + destruct (recorded output_dir pkg_output_dir w rest). exact IH.
    + cbn. intros [= <-]. split; reflexivity.
  - cbn. intros [= <-]. split; reflexivity.
Qed.

(** Running the generator for one group never raises: every exception of
    the [try] block is caught and logged. *)
Lemma run_generator_run (output_dir pkg_output_dir : Path.t) (package : string)
    (generators : list IdlGenerator) (cmd : list string) (l : list Path.t)
    (s : state) (r : run_result) (w2 : W) :
  os_run cmd (world s) = (r, w2) ->
  exists s',
    run_generator output_dir pkg_output_dir package generators cmd l s
    = (Return tt, l ++ group_files output_dir pkg_output_dir r w2 generators, s')
    /\ world s' = w2.
Proof.
  intros Hrun. unfold run_generator. rewrite bind_log.
  assert (Hw : world (emit DEBUG (RunningCommand cmd) s) = world s)
    by apply world_emit.
  set (s0 := emit DEBUG (RunningCommand cmd) s) in *.
  rewrite <- Hw in Hrun.
  assert (Hsub : subprocess_run (L := list Path.t) cmd l s0
                 = match r with
                   | Exited rc out err =>
                       if (rc =? 0)%Z
                       then (Return out, l, mkState w2 (logger_level s0) (log s0))
                       else (Raise (CalledProcessError cmd rc err), l,
                             mkState w2 (logger_level s0) (log s0))
                   | NotStarted what =>
                       (Raise (OSError what), l, mkState w2 (logger_level s0) (log s0))
                   end).
  { unfold subprocess_run, bind, with_world. rewrite Hrun.
    destruct r as [rc out err|what]; [|reflexivity]. now destruct (rc =? 0)%Z. }
  destruct r as [rc out err|what]; cbn [group_files].
  - destruct (rc =? 0)%Z.
    + set (s1 := mkState w2 (logger_level s0) (log s0)) in *.
      destruct (record_loop_run output_dir pkg_output_dir package generators l
                  (emit DEBUG (GenerationOutput package out) s1))
        as (s2 & Hw2 & Hloop).
      rewrite world_emit in Hw2, Hloop. change (world s1) with w2 in *.
      destruct (snd (recorded output_dir pkg_output_dir w2 generators)) as [e|] eqn:He.
      * destruct (recorded_exception _ _ _ _ _ He) as [Hex Hcpe].
        erewrite try_Raise
          by (erewrite bind_Return by exact Hsub; rewrite bind_log; exact Hloop).
        rewrite Hex. destruct e; try discriminate;
          (eexists; split; [reflexivity | now rewrite world_emit]).
      * exists s2. split; [|assumption]. apply try_Return.
        erewrite bind_Return by exact Hsub. rewrite bind_log. exact Hloop.
    + erewrite try_Raise by (erewrite bind_Raise by exact Hsub; reflexivity).
      cbn. rewrite app_nil_r. eexists. split; [reflexivity|].
      now rewrite !world_emit.
  - erewrite try_Raise by (erewrite bind_Raise by exact Hsub; reflexivity).
    cbn. rewrite app_nil_r. eexists. split; [reflexivity|].
    now rewrite world_emit.
Qed.

(** One turn of the generator's loop, when the output directory of the
    package can be created. *)
Lemma generate_package_run (output_dir : Path.t)
    (include_paths : option (list Path.t)) (replace : bool) (package : string)
    (generators : list IdlGenerator) (l : list Path.t) (s : state)
    (w1 w2 : W) (r : run_result) :
  let pkg_output_dir := (output_dir / package / "msg")%path in
  let cmd := generator_cmd replace pkg_output_dir include_paths
               (map (fun gen => Path.str (idl_path gen)) generators) in
  os_mkdir pkg_output_dir (world s) = (None, w1) ->
  os_run cmd w1 = (r, w2) ->
  exists s',
    generate_package output_dir include_paths replace (package, generators) l s
    = (Return tt, l ++ group_files output_dir pkg_output_dir r w2 generators, s')
    /\ world s' = w2.
Proof.
  intros pkg_output_dir cmd Hmk Hrun.
  unfold generate_package. rewrite bind_log. fold pkg_output_dir. fold cmd.
  unfold mkdir, bind at 1, bind at 1, with_world. rewrite world_emit, Hmk.
  cbn [ret].
  apply run_generator_run. exact Hrun.
Qed.

(** The same turn when the directory cannot be created: the exception
    leaves the loop. *)
Lemma generate_package_mkdir_fails (output_dir : Path.t)
    (include_paths : option (list Path.t)) (replace : bool) (package : string)
    (generators : list IdlGenerator) (l : list Path.t) (s : state)
    (w1 : W) (what : string) :
  os_mkdir (output_dir / package / "msg")%path (world s) = (Some what, w1) ->
  exists s',
    generate_package output_dir include_paths replace (package, generators) l s
    = (Raise (OSError what), l, s')
    /\ world s' = w1.
Proof.
  intros Hmk. unfold generate_package. rewrite bind_log.
  unfold mkdir, bind, with_world. rewrite world_emit, Hmk.
  eexists. split; reflexivity.
Qed.

(** The generator's loop computes [generate_groups]; only a failing
    [mkdir] ends it early. *)
Lemma generate_loop_run (output_dir : Path.t)
    (include_paths : option (list Path.t)) (replace : bool)
    (groups : dict (list IdlGenerator)) (l : list Path.t) (s : state) :
  exists s',
    for_ groups (generate_package output_dir include_paths replace) l s
    = (match fst (fst (generate_groups output_dir include_paths replace groups (world s))) with
       | None => Return tt
       | Some what => Raise (OSError what)
       end,
       l ++ snd (fst (generate_groups output_dir include_paths replace groups (world s))),
       s')
    /\ world s' = snd (generate_groups output_dir include_paths replace groups (world s)).
Proof.
  revert l s. induction groups as [|[package generators] rest IH]; intros l s.
  - exists s. simpl. now rewrite app_nil_r.
  - rewrite for_cons. cbn [generate_groups].
    destruct (os_mkdir (output_dir / package / "msg")%path (world s))
      as [[what|] w1] eqn:Hmk.
    + destruct (generate_package_mkdir_fails output_dir include_paths replace
                  package generators l s w1 what Hmk) as (s1 & -> & Hw1).
      exists s1. cbn [fst snd]. now rewrite app_nil_r.
    + destruct (os_run _ w1) as [r w2] eqn:Hrun.
      destruct (generate_package_run output_dir include_paths replace
                  package generators l s w1 w2 r Hmk Hrun) as (s1 & -> & Hw1).
      match goal with |- context [for_ rest _ ?l1 s1] =>
        destruct (IH l1 s1) as (s2 & -> & Hw2) end.
      rewrite Hw1 in *.
      destruct (generate_groups output_dir include_paths replace rest w2)
        as [[failure files] w3].
      exists s2. cbn [fst snd] in *. now rewrite <- app_assoc.
Qed.

Lemma generate_uxr_code_run {L} (idl_generators : list IdlGenerator)
    (output_dir : Path.t) (include_paths : option (list Path.t))
    (replace : bool) (l : L) (s : state) :
  exists s',
    generate_uxr_code idl_generators output_dir include_paths replace l s
    = (fst (generate_all idl_generators output_dir include_paths replace (world s)),
       l, s')
    /\ world s'
       = snd (generate_all idl_generators output_dir include_paths replace (world s)).
Proof.
  unfold generate_uxr_code, generate_all, call, mkdir, bind at 1, bind at 1, with_world.
  destruct (os_mkdir output_dir (world s)) as [[what|] w0].
  - eexists. split; reflexivity.
  - cbn [ret].
    destruct (generate_loop_run output_dir include_paths replace
                (group_by_package idl_generators) []
                (mkState w0 (logger_level s) (log s))) as (s1 & Hloop & Hw1).
    cbn [world] in Hloop, Hw1. unfold bind, get_local. rewrite Hloop.
    destruct (generate_groups output_dir include_paths replace
                (group_by_package idl_generators) w0) as [[[what|] files] w3];
      cbn [fst snd app] in *; exists s1; split; auto.
Qed.

(** Every recorded path is the header or the source of a descriptor of the
    group whose two files exist. *)
Lemma recorded_verified (output_dir pkg_output_dir : Path.t) (w : W)
    (generators : list IdlGenerator) (f : Path.t) :
  In f (fst (recorded output_dir pkg_output_dir w generators)) ->
  exists gen,
    In gen generators
    /\ (f = (pkg_output_dir / h_name gen)%path \/ f = (pkg_output_dir / c_name gen)%path)
    /\ os_exists (pkg_output_dir / h_name gen)%path w = Known true
    /\ os_exists (pkg_output_dir / c_name gen)%path w = Known true.
Proof.
  induction generators as [|gen rest IH]; cbn [recorded]; [intros []|].
  destruct (both_exist w _ _) as [[|]|what] eqn:Hex.
  - apply both_exist_true in Hex. destruct Hex as [Hh Hc].
    destruct (Path.is_relative_to _ output_dir && Path.is_relative_to _ output_dir);
      [|intros []].
    destruct (recorded output_dir pkg_output_dir w rest) as [files e].
    cbn [fst In] in *. intros [<-|[<-|Hin]].
    + exists gen. auto with datatypes.
    + exists gen. auto with datatypes.
    + destruct (IH Hin) as (g & Hg & H). exists g. auto with datatypes.
  - intros Hin. destruct (IH Hin) as (g & Hg & H). exists g. auto with datatypes.
  - intros [].
Qed.

(** The recorded paths come in header/source pairs. *)
Lemma recorded_pairs (output_dir pkg_output_dir : Path.t) (w : W)
    (generators : list IdlGenerator) :
  exists ds,
    incl ds generators
    /\ fst (recorded output_dir pkg_output_dir w generators)
       = flat_map (fun gen => [(pkg_output_dir / h_name gen)%path;
                               (pkg_output_dir / c_name gen)%path]) ds.
Proof.
  induction generators as [|gen rest (ds & Hincl & IH)]; cbn [recorded].
  - exists []. split; [apply incl_nil_l | reflexivity].
  - destruct (both_exist w _ _) as [[|]|what].
    + destruct (Path.is_relative_to _ output_dir && Path.is_relative_to _ output_dir).
      * destruct (recorded output_dir pkg_output_dir w rest) as [files e].
        exists (gen :: ds). cbn [fst] in *. split.
        -- apply incl_cons; [now left | now apply incl_tl].
        -- cbn [flat_map app]. now rewrite IH.
      * exists []. split; [apply incl_nil_l | reflexivity].
    + exists ds. split; [now apply incl_tl | exact IH].
    + exists []. split; [apply incl_nil_l | reflexivity].
Qed.

Lemma group_files_pairs (output_dir pkg_output_dir : Path.t) (r : run_result)
    (w : W) (generators : list IdlGenerator) :
  exists ds,
    incl ds generators
    /\ group_files output_dir pkg_output_dir r w generators
       = flat_map (fun gen => [(pkg_output_dir / h_name gen)%path;
                               (pkg_output_dir / c_name gen)%path]) ds.
Proof.
  unfold group_files.
  destruct r as [rc out err|what];
    [destruct (rc =? 0)%Z; [apply recorded_pairs|]|];
    exists []; (split; [apply incl_nil_l | reflexivity]).
Qed.

(** Grouping keeps every descriptor under its own package. *)
Lemma dict_append_in {V} (k k0 : string) (v : V) (vs : list V) (d : dict (list V)) :
  In (k0, vs) (dict_append k v d) ->
  forall x, In x vs -> (x = v /\ k0 = k) \/ exists vs0, In (k0, vs0) d /\ In x vs0.
Proof.
  induction d as [|[k1 vs1] d IH]; simpl.
  - intros [E|[]] x Hx. injection E as <- <-. destruct Hx as [<-|[]]. now left.
  - destruct (String.eqb_spec k k1) as [->|Hne]; simpl.
    + intros [E|Hin] x Hx.
      * injection E as <- <-.
        apply in_app_iff in Hx. destruct Hx as [Hx|[<-|[]]]; [right | now left].
        exists vs1. auto.
      * right. exists vs. auto.
    + intros [E|Hin] x Hx.
      * injection E as <- <-. right. exists vs1. auto.
      * destruct (IH Hin x Hx) as [?|(vs0 & ? & ?)]; [now left | right].
        exists vs0. auto.
Qed.

Lemma group_by_package_sound (idl_generators : list IdlGenerator)
    (p : string) (gens : list IdlGenerator) :
  In (p, gens) (group_by_package idl_generators) ->
  forall gen, In gen gens -> package gen = p /\ In gen idl_generators.
Proof.
  unfold group_by_package.
  assert (H : forall (gs : list IdlGenerator) (d : dict (list IdlGenerator)),
            In (p, gens) (fold_left (fun groups gen => dict_append (package gen) gen groups) gs d) ->
            forall gen, In gen gens ->
              (package gen = p /\ In gen gs)
              \/ exists gens0, In (p, gens0) d /\ In gen gens0).
  { induction gs as [|g gs IH]; intros d Hin gen Hgen; cbn [fold_left] in Hin.
    - right. exists gens. auto with datatypes.
    - destruct (IH _ Hin gen Hgen) as [[? ?]|(gens0 & Hin0 & Hgen0)].
      + left. split; [assumption | now right].
      + destruct (dict_append_in _ _ _ _ _ Hin0 gen Hgen0) as [[-> ->]|?].
        * left. split; [reflexivity | now left].
        * now right. }
  intros Hin gen Hgen.
  destruct (H idl_generators [] Hin gen Hgen) as [?|(gens0 & [] & _)]. assumption.
Qed.

Lemma generate_groups_pairs (output_dir : Path.t)
    (include_paths : option (list Path.t)) (replace : bool)
    (idl_generators : list IdlGenerator) (groups : dict (list IdlGenerator)) (w : W) :
  (forall p gens, In (p, gens) groups ->
     forall gen, In gen gens -> package gen = p /\ In gen idl_generators) ->
  exists ds,
    incl ds idl_generators
    /\ snd (fst (generate_groups output_dir include_paths replace groups w))
       = flat_map (fun gen => [h_file output_dir gen; c_file output_dir gen]) ds.
Proof.
  revert w. induction groups as [|[pkg generators] rest IH]; intros w Hgroups.
  - exists []. split; [apply incl_nil_l | reflexivity].
  - cbn [generate_groups].
    destruct (os_mkdir _ w) as [[what|] w1].
    + exists []. split; [apply incl_nil_l | reflexivity].
    + destruct (os_run _ w1) as [r w2].
      destruct (IH w2) as (ds2 & Hincl2 & Hfiles2).
      { intros p gens Hin. apply Hgroups. now right. }
      destruct (group_files_pairs output_dir (output_dir / pkg / "msg")%path
                  r w2 generators) as (ds1 & Hincl1 & Hfiles1).
      destruct (generate_groups output_dir include_paths replace rest w2)
        as [[failure files] w3].
      cbn [fst snd] in *. exists (ds1 ++ ds2). split.
      * apply incl_app; [|assumption].
        intros gen Hgen. apply (Hgroups pkg generators); [now left | auto].
      * rewrite Hfiles1, Hfiles2, flat_map_app. f_equal.
        apply flat_map_ext_In. intros gen Hgen. unfold h_file, c_file.
        assert (Hp : package gen = pkg).
        { apply (Hgroups pkg generators); [now left | auto]. }
        now rewrite Hp.
Qed.

(** C4: the command line of a package group is the generator's name, the
    case-sensitivity flag, the overwrite flag when [replace] is set (and
    nothing in its place when it is not), the output-directory flag with the
    package's output directory, one include flag per include path, then the
    IDL files; no argument is blank; and this is the command the loop body
    runs once the package's output directory is made. *)
Theorem generate_package_cmd (output_dir : Path.t)
    (include_paths : option (list Path.t)) (replace : bool)
    (package : string) (generators : list IdlGenerator) :
  let pkg_output_dir := (output_dir / package / "msg")%path in
  let cmd :=
    ["microxrceddsgen"; "-cs"]
    ++ (if replace then ["-replace"] else [])
    ++ ["-d"; Path.str pkg_output_dir]
    ++ flat_map (fun path => ["-I"; Path.str path])
                (match include_paths with Some paths => paths | None => [] end)
    ++ map (fun gen => Path.str (idl_path gen)) generators in
  generate_package output_dir include_paths replace (package, generators)
  = (logger_log INFO (ProcessingPackage package) ;;
     mkdir pkg_output_dir ;;
     run_generator output_dir pkg_output_dir package generators cmd)
  /\ ~ In "" cmd
  /\ forall l s w1,
       os_mkdir pkg_output_dir (world s) = (None, w1) ->
       world (snd (generate_package output_dir include_paths replace
                     (package, generators) l s))
       = snd (os_run cmd w1).
Proof.
  intros pkg_output_dir cmd.
  assert (Hcmd : generator_cmd replace pkg_output_dir include_paths
                   (map (fun gen => Path.str (idl_path gen)) generators) = cmd).
  { rewrite <- (map_map idl_path Path.str). rewrite generator_cmd_order.
    unfold cmd. now rewrite (map_map idl_path Path.str). }
  split; [|split].
  - unfold generate_package. fold pkg_output_dir. now rewrite Hcmd.
  - rewrite <- Hcmd. unfold generator_cmd. rewrite filter_In.
    intros [_ H]. discriminate.
  - intros l s w1 Hmk.
    destruct (os_run cmd w1) as [r w2] eqn:Hrun. rewrite <- Hcmd in Hrun.
    destruct (generate_package_run output_dir include_paths replace package
                generators l s w1 w2 r Hmk Hrun) as (s' & -> & Hw).
    exact Hw.
Qed.

(** C7: when the generator does not succeed for a package group (it exits
    non-zero or cannot be run), the loop body returns with the generated
    files as they were and the loop goes on with the next group; whatever a
    group adds is the header or the source of one of its descriptors, after
    an invocation that succeeded, both files existing then. *)
Theorem generator_failure_is_isolated (output_dir : Path.t)
    (include_paths : option (list Path.t)) (replace : bool) (package : string)
    (generators : list IdlGenerator) (rest : dict (list IdlGenerator))
    (l : list Path.t) (s : state) (w1 w2 : W) (r : run_result) :
  let pkg_output_dir := (output_dir / package / "msg")%path in
  let cmd := generator_cmd replace pkg_output_dir include_paths
               (map (fun gen => Path.str (idl_path gen)) generators) in
  os_mkdir pkg_output_dir (world s) = (None, w1) ->
  os_run cmd w1 = (r, w2) ->
  exists new s',
    generate_package output_dir include_paths replace (package, generators) l s
    = (Return tt, l ++ new, s')
    /\ world s' = w2
    /\ for_ ((package, generators) :: rest)
            (generate_package output_dir include_paths replace) l s
       = for_ rest (generate_package output_dir include_paths replace) (l ++ new) s'
    /\ (~ succeeded r -> new = [])
    /\ (forall f, In f new ->
          succeeded r
          /\ exists gen,
               In gen generators
               /\ (f = (pkg_output_dir / h_name gen)%path
                   \/ f = (pkg_output_dir / c_name gen)%path)
               /\ os_exists (pkg_output_dir / h_name gen)%path w2 = Known true
               /\ os_exists (pkg_output_dir / c_name gen)%path w2 = Known true).
Proof.
  intros pkg_output_dir cmd Hmk Hrun.
  destruct (generate_package_run output_dir include_paths replace package
              generators l s w1 w2 r Hmk Hrun) as (s' & Hp & Hw).
  exists (group_files output_dir pkg_output_dir r w2 generators), s'.
  split; [exact Hp|]. split; [exact Hw|]. split; [now rewrite for_cons, Hp|].
  unfold group_files, succeeded. destruct r as [rc out err|what].
  - destruct (Z.eqb_spec rc 0) as [->|Hne].
    + split; [intros H; now elim H|].
      intros f Hin. split; [reflexivity|]. now apply recorded_verified in Hin.
    + split; [reflexivity | intros f []].
  - split; [reflexivity | intros f []].
Qed.

Lemma under_output_dir (output_dir : Path.t) (package name : string) :
  Str.startswith_char "/" package = false ->
  Str.startswith_char "/" name = false ->
  Path.is_relative_to (output_dir / package / "msg" / name)%path output_dir = true.
Proof.
  intros Hp Hn. unfold Path.div. rewrite Hp, Hn.
  change (Str.startswith_char "/" "msg") with false. cbv iota.
  unfold Path.is_relative_to. cbn [Path.root Path.names].
  rewrite String.eqb_refl, <- !app_assoc. apply is_prefix_app.
Qed.

Lemma lower_char_slash (c : ascii) :
  Ascii.eqb (Str.lower_char c) "/" = Ascii.eqb c "/".
Proof. destruct c as [[] [] [] [] [] [] [] []]; reflexivity. Qed.

Lemma startswith_slash_lower (m ext : string) :
  Str.startswith_char "/" ext = false ->
  Str.startswith_char "/" m = false ->
  Str.startswith_char "/" (Str.lower m ++ ext) = false.
Proof.
  intros Hext Hm. destruct m as [|c r]; [exact Hext|].
  simpl in *. now rewrite lower_char_slash.
Qed.

(** Under an output root, with relative package and message names, the
    verification loop records exactly the pairs whose two files exist. *)
Lemma both_exist_checked (w : W) (h c : Path.t) :
  checked w h -> checked w c ->
  both_exist w h c = Known (exists_true w h && exists_true w c).
Proof.
  intros [bh Hh] [bc Hc]. unfold both_exist, exists_true. rewrite Hh, Hc.
  now destruct bh, bc.
Qed.

Lemma recorded_relative (output_dir : Path.t) (package : string) (w : W)
    (generators : list IdlGenerator) :
  Str.startswith_char "/" package = false ->
  (forall gen, In gen generators ->
     initialised gen /\ Str.startswith_char "/" (msg_type gen) = false) ->
  (forall gen, In gen generators ->
     checked w (output_dir / package / "msg" / (Str.lower (msg_type gen) ++ ".h"))%path
     /\ checked w (output_dir / package / "msg" / (Str.lower (msg_type gen) ++ ".c"))%path) ->
  recorded output_dir (output_dir / package / "msg")%path w generators
  = (flat_map
       (fun gen =>
          let h := (output_dir / package / "msg" / (Str.lower (msg_type gen) ++ ".h"))%path in
          let c := (output_dir / package / "msg" / (Str.lower (msg_type gen) ++ ".c"))%path in
          if exists_true w h && exists_true w c then [h; c] else [])
       generators, None).
Proof.
  intros Hp. induction generators as [|gen rest IH]; intros Hgens Hchk; [reflexivity|].
  cbn [recorded flat_map].
  destruct (Hgens gen (or_introl eq_refl)) as [Hinit Hm].
  destruct (Hchk gen (or_introl eq_refl)) as [Hch Hcc].
  assert (Hh : h_name gen = (Str.lower (msg_type gen) ++ ".h")%string)
    by (rewrite Hinit; reflexivity).
  assert (Hc : c_name gen = (Str.lower (msg_type gen) ++ ".c")%string)
    by (rewrite Hinit; reflexivity).
  rewrite Hh, Hc, IH
    by (intros g Hg; first [apply Hgens | apply Hchk]; now right).
  rewrite (both_exist_checked w _ _ Hch Hcc).
  rewrite !under_output_dir
    by (assumption || (apply startswith_slash_lower; [reflexivity | assumption])).
  cbn [andb]. now destruct (exists_true w _ && exists_true w _).
Qed.

Lemma recorded_stops (output_dir : Path.t) (package : string) (w : W)
    (before : list IdlGenerator) (gen : IdlGenerator) (after : list IdlGenerator)
    (what : string) :
  Str.startswith_char "/" package = false ->
  (forall g, In g before ->
     initialised g /\ Str.startswith_char "/" (msg_type g) = false) ->
  (forall g, In g before ->
     checked w (output_dir / package / "msg" / (Str.lower (msg_type g) ++ ".h"))%path
     /\ checked w (output_dir / package / "msg" / (Str.lower (msg_type g) ++ ".c"))%path) ->
  both_exist w (output_dir / package / "msg" / h_name gen)%path
               (output_dir / package / "msg" / c_name gen)%path
  = StatFailed what ->
  fst (recorded output_dir (output_dir / package / "msg")%path w
         (before ++ gen :: after))
  = flat_map
      (fun g =>
         let h := (output_dir / package / "msg" / (Str.lower (msg_type g) ++ ".h"))%path in
         let c := (output_dir / package / "msg" / (Str.lower (msg_type g) ++ ".c"))%path in
         if exists_true w h && exists_true w c then [h; c] else [])
      before.
Proof.
  intros Hp Hgens Hchk Hstop. induction before as [|g rest IH];
    cbn [app recorded flat_map].
  - now rewrite Hstop.
  - destruct (Hgens g (or_introl eq_refl)) as [Hinit Hm].
    destruct (Hchk g (or_introl eq_refl)) as [Hch Hcc].
    assert (Hh : h_name g = (Str.lower (msg_type g) ++ ".h")%string)
      by (rewrite Hinit; reflexivity).
    assert (Hc : c_name g = (Str.lower (msg_type g) ++ ".c")%string)
      by (rewrite Hinit; reflexivity).
    rewrite Hh, Hc.
    rewrite (both_exist_checked w _ _ Hch Hcc).
    rewrite !under_output_dir
      by (assumption || (apply startswith_slash_lower; [reflexivity | assumption])).
    cbn [andb].
    assert (IH' := IH (fun g' H => Hgens g' (or_intror H))
                      (fun g' H => Hchk g' (or_intror H))).
    destruct (exists_true w _ && exists_true w _).
    + destruct (recorded output_dir (output_dir / package / "msg")%path w
                  (rest ++ gen :: after)) as [files e].
      cbn [fst app] in *. now rewrite IH'.
    + exact IH'.
Qed.

(** C8, as amended: for a package group whose package name and message
    types do not begin with [/] and whose existence checks all return, after
    a successful generator invocation the expected files of each descriptor
    are [<output_dir>/<package>/msg/<message type lowercased>.h] and [.c];
    the two paths are appended, header first, exactly when both files exist;
    otherwise the descriptor adds nothing and only a warning is logged.  An
    existence check that raises ends the verification of the group: what
    the descriptors before it added stays, and nothing more is added. *)
Theorem verified_outputs_recorded (output_dir : Path.t)
    (include_paths : option (list Path.t)) (replace : bool) (package : string)
    (generators : list IdlGenerator) (l : list Path.t) (s : state)
    (w1 w2 : W) (stdout stderr : string) :
  let pkg_output_dir := (output_dir / package / "msg")%path in
  let cmd := generator_cmd replace pkg_output_dir include_paths
               (map (fun gen => Path.str (idl_path gen)) generators) in
  let h gen := (output_dir / package / "msg" / (Str.lower (msg_type gen) ++ ".h"))%path in
  let c gen := (output_dir / package / "msg" / (Str.lower (msg_type gen) ++ ".c"))%path in
  let pair gen :=
    if exists_true w2 (h gen) && exists_true w2 (c gen) then [h gen; c gen] else [] in
  Str.startswith_char "/" package = false ->
  (forall gen, In gen generators ->
     initialised gen /\ Str.startswith_char "/" (msg_type gen) = false) ->
  os_mkdir pkg_output_dir (world s) = (None, w1) ->
  os_run cmd w1 = (Exited 0 stdout stderr, w2) ->
  ((forall gen, In gen generators -> checked w2 (h gen) /\ checked w2 (c gen)) ->
   exists s',
     generate_package output_dir include_paths replace (package, generators) l s
     = (Return tt, l ++ flat_map pair generators, s')
     /\ world s' = w2)
  /\ (forall gen l0 s0,
        In gen generators ->
        checked (world s0) (h gen) -> checked (world s0) (c gen) ->
        exists_true (world s0) (h gen) && exists_true (world s0) (c gen) = false ->
        record_generated output_dir pkg_output_dir package gen l0 s0
        = (Return tt, l0, emit WARNING (MissingGeneratedFiles package (msg_type gen)) s0))
  /\ (forall before gen after what,
        generators = before ++ gen :: after ->
        (forall g, In g before -> checked w2 (h g) /\ checked w2 (c g)) ->
        both_exist w2 (h gen) (c gen) = StatFailed what ->
        exists s',
          generate_package output_dir include_paths replace (package, generators) l s
          = (Return tt, l ++ flat_map pair before, s')
          /\ world s' = w2).
Proof.
  intros pkg_output_dir cmd h c pair Hp Hgens Hmk Hrun.
  destruct (generate_package_run output_dir include_paths replace package
              generators l s w1 w2 _ Hmk Hrun) as (s' & Hrun' & Hw).
  cbn [group_files Z.eqb] in Hrun'. fold pkg_output_dir in Hrun'.
  split; [|split].
  - intros Hchk. exists s'. split; [|exact Hw]. rewrite Hrun'.
    unfold pkg_output_dir. now rewrite recorded_relative.
  - intros gen l0 s0 Hin Hch Hcc Hex.
    destruct (record_generated_run output_dir pkg_output_dir package gen l0 s0)
      as (s1 & _ & ->).
    destruct (Hgens gen Hin) as [Hinit _].
    assert (Hh : h_name gen = (Str.lower (msg_type gen) ++ ".h")%string)
      by (rewrite Hinit; reflexivity).
    assert (Hc : c_name gen = (Str.lower (msg_type gen) ++ ".c")%string)
      by (rewrite Hinit; reflexivity).
    rewrite Hh, Hc. unfold h, c in *. unfold pkg_output_dir.
    now rewrite (both_exist_checked _ _ _ Hch Hcc), Hex.
  - intros before gen after what Heq Hchk Hstop.
    exists s'. split; [|exact Hw]. rewrite Hrun'. subst generators.
    unfold pkg_output_dir. erewrite recorded_stops; [reflexivity | assumption | | | ].
    + intros g Hg. apply Hgens. apply in_app_iff. now left.
    + exact Hchk.
    + destruct (Hgens gen) as [Hinit _]; [apply in_app_iff; right; now left|].
      assert (Hh : h_name gen = (Str.lower (msg_type gen) ++ ".h")%string)
        by (rewrite Hinit; reflexivity).
      assert (Hc : c_name gen = (Str.lower (msg_type gen) ++ ".c")%string)
        by (rewrite Hinit; reflexivity).
      rewrite Hh, Hc. exact Hstop.
Qed.

Lemma pairs_even {A} (f g : A -> Path.t) (ds : list A) :
  Nat.Even (length (flat_map (fun d => [f d; g d]) ds)).
Proof.
  exists (length ds). induction ds as [|d ds IH]; [reflexivity|].
  cbn [flat_map app length]. rewrite IH. lia.
Qed.

(** C10: each descriptor adds its header path immediately followed by its
    source path, or nothing; so the list the loop has built, however the
    loop ends, and the list [generate_uxr_code] returns, are made of the
    header/source pairs of some of the descriptors and have even length. *)
Theorem generated_files_in_pairs {L} (idl_generators : list IdlGenerator)
    (output_dir : Path.t) (include_paths : option (list Path.t))
    (replace : bool) (l : L) (s : state) :
  (forall pkg_output_dir package gen l0 s0,
     let l1 := snd (fst (record_generated output_dir pkg_output_dir package gen l0 s0)) in
     l1 = l0
     \/ l1 = l0 ++ [(pkg_output_dir / h_name gen)%path; (pkg_output_dir / c_name gen)%path])
  /\ (exists ds,
        incl ds idl_generators
        /\ snd (fst (for_ (group_by_package idl_generators)
                          (generate_package output_dir include_paths replace) [] s))
           = flat_map (fun gen => [h_file output_dir gen; c_file output_dir gen]) ds)
  /\ (forall files s',
        generate_uxr_code idl_generators output_dir include_paths replace l s
        = (Return files, l, s') ->
        Nat.Even (length files)
        /\ exists ds,
             incl ds idl_generators
             /\ files = flat_map (fun gen => [h_file output_dir gen; c_file output_dir gen]) ds).
Proof.
  split; [|split].
  - intros pkg_output_dir package gen l0 s0 l1. subst l1.
    destruct (record_generated_run output_dir pkg_output_dir package gen l0 s0)
      as (s1 & _ & ->).
    destruct (both_exist (world s0) _ _) as [[|]|what]; [|now left..].
    destruct (Path.is_relative_to _ output_dir && Path.is_relative_to _ output_dir);
      [now right | now left].
  - destruct (generate_loop_run output_dir include_paths replace
                (group_by_package idl_generators) [] s) as (s1 & -> & _).
    cbn [fst snd app].
    apply generate_groups_pairs. apply group_by_package_sound.
  - intros files s' Hgen.
    destruct (generate_uxr_code_run idl_generators output_dir include_paths
                replace l s) as (s1 & Hrun & _).
    rewrite Hrun in Hgen. injection Hgen as Hout _. unfold generate_all in Hout.
    destruct (os_mkdir output_dir (world s)) as [[what|] w0]; [discriminate|].
    destruct (generate_groups_pairs output_dir include_paths replace idl_generators
                (group_by_package idl_generators) w0
                (group_by_package_sound idl_generators)) as (ds & Hincl & Hfiles).
    destruct (generate_groups output_dir include_paths replace
                (group_by_package idl_generators) w0) as [[[what|] files0] w3];
      [discriminate|].
    cbn [fst snd] in *. injection Hout as <-. rewrite Hfiles.
    split; [apply pairs_even | exists ds; auto].
Qed.

(** ** The program *)

Lemma parse_message_list_run {L} (message_file : Path.t) (l : L) (s : state) :
  exists s',
    parse_message_list message_file l s = (parse_outcome message_file (world s), l, s')
    /\ world s' = world s.
Proof.
  unfold parse_message_list, parse_outcome, call, bind, path_exists, for_lines_of,
    get_local.
  destruct (os_exists message_file (world s)) as [[|]|what]; cbn [negb].
  - destruct (os_read message_file (world s)) as [what|text failure].
    + exists s. split; reflexivity.
    + unfold bind.
      destruct (parse_lines_run (Str.lines text) [] s) as (s' & -> & Hw).
      exists s'. split; [|assumption]. now destruct failure.
  - exists s. split; reflexivity.
  - exists s. split; reflexivity.
Qed.

Lemma parse_outcome_exception (message_file : Path.t) (w : W) (e : exn) :
  parse_outcome message_file w = Raise e -> is_Exception e = true.
Proof.
  unfold parse_outcome. destruct (os_exists message_file w) as [[|]|what].
  - destruct (os_read message_file w) as [what|text [[what|what]|]];
      try discriminate; now intros [= <-].
  - now intros [= <-].
  - now intros [= <-].
Qed.

Lemma getcwd_run {L} (l : L) (s : state) :
  getcwd l s
  = (match os_getcwd (world s) with
     | Cwd dir => Return dir
     | NoCwd what => Raise (OSError what)
     end, l, s).
Proof. unfold getcwd. now destruct (os_getcwd (world s)). Qed.

Lemma path_absolute_run {L} (p : Path.t) (l : L) (s : state) :
  path_absolute p l s = (absolute_outcome p (world s), l, s).
Proof.
  unfold path_absolute, absolute_outcome.
  destruct (Str.is_empty (Path.root p)); [|reflexivity].
  unfold bind. rewrite getcwd_run. now destruct (os_getcwd (world s)).
Qed.

Lemma main_with_run (a : args) (s : state) :
  exists s',
    main_with a tt s = (fst (main_with_outcome a (world s)), tt, s')
    /\ world s' = snd (main_with_outcome a (world s)).
Proof.
  unfold main_with, main_with_outcome.
  set (s0 := snd ((if verbose a then logger_setLevel DEBUG else ret tt) tt s)).
  assert (Hs0 : (if verbose a then logger_setLevel DEBUG else ret tt) tt s
                = (Return tt, tt, s0) /\ world s0 = world s).
  { unfold s0. now destruct (verbose a). }
  destruct Hs0 as [Hs0 Hw0]. clearbody s0.
  erewrite bind_Return by exact Hs0. rewrite bind_log.
  set (s1 := emit INFO (ParsingMessageList (message_file a)) s0).
  assert (Hw1 : world s1 = world s) by (unfold s1; now rewrite world_emit).
  clearbody s1.
  destruct (parse_message_list_run (message_file a) tt s1) as (s2 & Hparse & Hw2).
  rewrite Hw1 in *.
  destruct (parse_outcome (message_file a) (world s)) as [[|item package_msgs]|e] eqn:Hpo.
  - erewrite bind_Return by (apply try_Return; exact Hparse).
    cbv iota. rewrite bind_log. eexists. split; [reflexivity|].
    cbn [snd]. now rewrite world_emit.
  - erewrite bind_Return by (apply try_Return; exact Hparse).
    cbv iota. rewrite !bind_log.
    match goal with |- context [bind (locate_idl_files ?pm) _ tt ?st] =>
      destruct (locate_idl_files_run pm tt st) as (s3 & Hloc & Hw3) end.
    rewrite !world_emit, Hw2 in Hloc, Hw3.
    erewrite bind_Return by exact Hloc.
    destruct (resolve_all (item :: package_msgs) (world s)) as [[gens missing] w2].
    cbn [fst snd] in *.
    destruct gens as [|gen gens]; cbv iota.
    + rewrite bind_log. eexists. split; [reflexivity|]. now rewrite world_emit.
    + rewrite !bind_log.
      match goal with |- context [bind (generate_uxr_code ?g ?o ?i ?r) _ tt ?st] =>
        destruct (generate_uxr_code_run g o i r tt st) as (s4 & Hgen & Hw4) end.
      rewrite !world_emit, Hw3 in Hgen, Hw4.
      destruct (generate_all (gen :: gens) (output a) (Some (include a)) (replace a) w2)
        as [[files|e] w3]; cbn [fst snd] in *.
      * erewrite bind_Return by exact Hgen. rewrite !bind_log.
        unfold bind at 1. rewrite path_absolute_run, !world_emit, Hw4.
        destruct (absolute_outcome (output a) w3) as [output_dir|e].
        -- eexists. split; [reflexivity|]. cbn [snd]. now rewrite !world_emit.
        -- eexists. split; [reflexivity|]. cbn [snd]. now rewrite !world_emit.
      * erewrite bind_Raise by exact Hgen. exists s4. auto.
  - erewrite bind_Raise.
    2:{ erewrite try_Raise by exact Hparse.
        rewrite (parse_outcome_exception _ _ _ Hpo). rewrite bind_log. reflexivity. }
    eexists. split; [reflexivity|]. cbn [snd]. now rewrite world_emit.
Qed.

Lemma main_run (argv : list string) (s : state) :
  exists s',
    main argv tt s = (fst (main_outcome argv (world s)), tt, s')
    /\ world s' = snd (main_outcome argv (world s)).
Proof.
  unfold main, main_outcome, bind. rewrite getcwd_run.
  destruct (os_getcwd (world s)) as [cwd|what].
  - destruct (parse_args (default_output cwd) argv) as [a| |].
    + apply main_with_run.
    + exists s. split; reflexivity.
    + exists s. split; reflexivity.
  - exists s. split; reflexivity.
Qed.

Lemma main_eq (argv : list string) (s : state) :
  main argv tt s
  = match os_getcwd (world s) with
    | Cwd cwd =>
        match parse_args (default_output cwd) argv with
        | Parsed a => main_with a tt s
        | UsageError => (Raise (SystemExit 2), tt, s)
        | HelpRequested => (Raise (SystemExit 0), tt, s)
        end
    | NoCwd what => (Raise (OSError what), tt, s)
    end.
Proof.
  unfold main, bind. rewrite getcwd_run.
  destruct (os_getcwd (world s)) as [cwd|what]; [|reflexivity].
  now destruct (parse_args (default_output cwd) argv).
Qed.

Lemma in_world_parse (message_file : Path.t) (w : W) :
  in_world (parse_message_list message_file) w = (parse_outcome message_file w, w).
Proof.
  unfold in_world.
  destruct (parse_message_list_run message_file tt (mkState w INFO []))
    as (s' & -> & Hw). now rewrite Hw.
Qed.

Lemma in_world_locate (package_msgs : dict (list string)) (w : W) :
  in_world (locate_idl_files package_msgs) w
  = (Return (fst (fst (resolve_all package_msgs w))), snd (resolve_all package_msgs w)).
Proof.
  unfold in_world.
  destruct (locate_idl_files_run package_msgs tt (mkState w INFO []))
    as (s' & -> & Hw). now rewrite Hw.
Qed.

Lemma in_world_generate (idl_generators : list IdlGenerator) (output_dir : Path.t)
    (include_paths : option (list Path.t)) (replace : bool) (w : W) :
  in_world (generate_uxr_code idl_generators output_dir include_paths replace) w
  = generate_all idl_generators output_dir include_paths replace w.
Proof.
  unfold in_world.
  destruct (generate_uxr_code_run idl_generators output_dir include_paths replace
              tt (mkState w INFO [])) as (s' & -> & Hw).
  rewrite Hw. cbn [world]. now destruct (generate_all _ _ _ _ w).
Qed.

Lemma in_world_absolute (p : Path.t) (w : W) :
  in_world (path_absolute p) w = (absolute_outcome p w, w).
Proof. unfold in_world. now rewrite path_absolute_run. Qed.

Lemma run_script_status (argv : list string) (w : W) :
  fst (run_script argv w) = exit_status (fst (main_outcome argv w)).
Proof.
  unfold run_script.
  destruct (main_run argv (mkState w INFO [])) as (s' & -> & _). reflexivity.
Qed.

(** The loop over the package groups is ended only by the directory of a
    group that cannot be created, the groups before it having been dealt
    with. *)
Lemma generate_groups_failure (output_dir : Path.t)
    (include_paths : option (list Path.t)) (replace : bool)
    (groups : dict (list IdlGenerator)) (w : W) (what : string)
    (files : list Path.t) (w3 : W) :
  generate_groups output_dir include_paths replace groups w = (Some what, files, w3) ->
  exists pre package generators rest files' w',
    groups = pre ++ (package, generators) :: rest
    /\ generate_groups output_dir include_paths replace pre w = (None, files', w')
    /\ os_mkdir (output_dir / package / "msg")%path w' = (Some what, w3).
Proof.
  revert w files. induction groups as [|[pkg generators] rest IH]; intros w files;
    cbn [generate_groups]; [discriminate|].
  destruct (os_mkdir (output_dir / pkg / "msg")%path w) as [[what'|] w1] eqn:Hmk.
  - intros [= -> <- <-]. exists [], pkg, generators, rest, [], w. auto.
  - destruct (os_run _ w1) as [r w2] eqn:Hrun.
    destruct (generate_groups output_dir include_paths replace rest w2)
      as [[failure files0] w4] eqn:Hrest.
    intros [= -> <- <-].
    destruct (IH w2 files0 Hrest)
      as (pre & package & gens & rest' & files' & w' & -> & Hpre & Hmk').
    exists ((pkg, generators) :: pre), package, gens, rest',
      (group_files output_dir (output_dir / pkg / "msg")%path r w2 generators ++ files'),
      w'.
    split; [reflexivity|]. split; [|assumption].
    cbn [generate_groups]. now rewrite Hmk, Hrun, Hpre.
Qed.

(** [generate_uxr_code] raises only when the output directory or the
    directory of a package group cannot be created. *)
Lemma generate_all_raises (idl_generators : list IdlGenerator) (output_dir : Path.t)
    (include_paths : option (list Path.t)) (replace : bool) (w : W) (e : exn) (w3 : W) :
  generate_all idl_generators output_dir include_paths replace w = (Raise e, w3) ->
  exists what,
    e = OSError what
    /\ (os_mkdir output_dir w = (Some what, w3)
        \/ exists w0 pre package generators rest files w',
             os_mkdir output_dir w = (None, w0)
             /\ group_by_package idl_generators = pre ++ (package, generators) :: rest
             /\ generate_groups output_dir include_paths replace pre w0
                = (None, files, w')
             /\ os_mkdir (output_dir / package / "msg")%path w' = (Some what, w3)).
Proof.
  unfold generate_all.
  destruct (os_mkdir output_dir w) as [[what|] w0] eqn:Hmk.
  - intros [= <- <-]. exists what. auto.
  - destruct (generate_groups output_dir include_paths replace
                (group_by_package idl_generators) w0) as [[[what|] files] w4] eqn:Hg;
      [|discriminate].
    intros [= <- <-]. exists what. split; [reflexivity|]. right.
    destruct (generate_groups_failure _ _ _ _ _ _ _ _ Hg)
      as (pre & package & gens & rest & files' & w' & Hgroups & Hpre & Hmk').
    exists w0, pre, package, gens, rest, files', w'. auto.
Qed.

(** C3, as amended: the exit status is 0, 1 or 2.  It is 2 exactly when the
    command line is refused by the argument parser.  It is 0 exactly when
    the command line asks for the help, or when it is accepted, the input
    file parses to a non-empty map, the resolver finds at least one
    descriptor, [generate_uxr_code] returns and the absolute output
    directory can be computed for the last record.  So the program exits
    non-zero when the file cannot be parsed (a file that [exists()] reports
    missing makes the parser raise [FileNotFoundError]; when [exists()]
    itself raises, the parser raises that [OSError]), when the map is empty,
    when no descriptor is found, and also when [generate_uxr_code] raises,
    which it does only when the output directory, or the directory of a
    package group after the groups before it have been dealt with, cannot be
    created; the resolver itself never raises. *)
Theorem exit_status_of_script (argv : list string) (w : W) :
  let status := fst (run_script argv w) in
  (status = 0 \/ status = 1 \/ status = 2)%Z
  /\ (status = 2%Z <->
      exists cwd,
        os_getcwd w = Cwd cwd /\ parse_args (default_output cwd) argv = UsageError)
  /\ (status = 0%Z <->
      exists cwd,
        os_getcwd w = Cwd cwd
        /\ (parse_args (default_output cwd) argv = HelpRequested
            \/ exists a package_msgs idl_generators w2 files w3 output_dir,
                 parse_args (default_output cwd) argv = Parsed a
                 /\ in_world (parse_message_list (message_file a)) w
                    = (Return package_msgs, w)
                 /\ package_msgs <> []
                 /\ in_world (locate_idl_files package_msgs) w
                    = (Return idl_generators, w2)
                 /\ idl_generators <> []
                 /\ in_world (generate_uxr_code idl_generators (output a)
                                (Some (include a)) (replace a)) w2
                    = (Return files, w3)
                 /\ in_world (path_absolute (output a)) w3 = (Return output_dir, w3)))
  /\ (forall message_file,
        (os_exists message_file w = Known false ->
         in_world (parse_message_list message_file) w
         = (Raise (FileNotFoundError message_file), w))
        /\ (forall what,
              os_exists message_file w = StatFailed what ->
              in_world (parse_message_list message_file) w = (Raise (OSError what), w)))
  /\ (forall package_msgs w1,
        exists idl_generators w2,
          in_world (locate_idl_files package_msgs) w1 = (Return idl_generators, w2))
  /\ (forall idl_generators output_dir include_paths replace w2 e w3,
        in_world (generate_uxr_code idl_generators output_dir include_paths replace) w2
        = (Raise e, w3) ->
        exists what,
          e = OSError what
          /\ (os_mkdir output_dir w2 = (Some what, w3)
              \/ exists w0 pre package generators rest files s',
                   os_mkdir output_dir w2 = (None, w0)
                   /\ group_by_package idl_generators
                      = pre ++ (package, generators) :: rest
                   /\ for_ pre (generate_package output_dir include_paths replace)
                           [] (mkState w0 INFO [])
                      = (Return tt, files, s')
                   /\ os_mkdir (output_dir / package / "msg")%path (world s')
                      = (Some what, w3))).
Proof.
  intros status. unfold status. rewrite run_script_status. clear status.
  assert (Hwith : forall a,
            let o := fst (main_with_outcome a w) in
            (exit_status o = 0 \/ exit_status o = 1)%Z
            /\ (exit_status o = 0%Z <->
                exists package_msgs idl_generators w2 files w3 output_dir,
                  in_world (parse_message_list (message_file a)) w
                  = (Return package_msgs, w)
                  /\ package_msgs <> []
                  /\ in_world (locate_idl_files package_msgs) w
                     = (Return idl_generators, w2)
                  /\ idl_generators <> []
                  /\ in_world (generate_uxr_code idl_generators (output a)
                                 (Some (include a)) (replace a)) w2
                     = (Return files, w3)
                  /\ in_world (path_absolute (output a)) w3 = (Return output_dir, w3))).
  { intros a o. unfold o. clear o. rewrite in_world_parse.
    assert (Habs : forall w3 e, absolute_outcome (output a) w3 = Raise e ->
                                exists what, e = OSError what).
    { intros w3 e. unfold absolute_outcome.
      destruct (Str.is_empty (Path.root (output a))); [|discriminate].
      destruct (os_getcwd w3); [discriminate|]. intros [= <-]. eauto. }
    unfold main_with_outcome.
    destruct (parse_outcome (message_file a) w) as [[|item pm]|e].
    - cbn [fst exit_status]. split; [auto|]. split; [discriminate|].
      intros (pm & _ & _ & _ & _ & _ & [= <-] & Hpm & _). congruence.
    - destruct (resolve_all (item :: pm) w) as [[[|gen gens] missing] w2] eqn:Hres.
      + cbn [fst exit_status]. split; [auto|]. split; [discriminate|].
        intros (pm' & gens & w2' & _ & _ & _ & [= <-] & _ & Hloc & Hgens & _).
        rewrite in_world_locate, Hres in Hloc. cbn [fst snd] in Hloc. congruence.
      + destruct (generate_all (gen :: gens) (output a) (Some (include a))
                    (replace a) w2) as [[files|e] w3] eqn:Hg.
        * destruct (absolute_outcome (output a) w3) as [output_dir|e] eqn:Ha.
          -- cbn [fst exit_status]. split; [auto|]. split; [|reflexivity].
             intros _. exists (item :: pm), (gen :: gens), w2, files, w3, output_dir.
             rewrite in_world_locate, in_world_generate, in_world_absolute, Hres, Hg, Ha.
             cbn [fst snd]. repeat split; discriminate.
          -- destruct (Habs _ _ Ha) as (what & ->).
             cbn [fst exit_status]. split; [auto|]. split; [discriminate|].
             intros (pm' & gens' & w2' & files' & w3' & output_dir
                     & [= <-] & _ & Hloc & _ & Hgen & Habs').
             rewrite in_world_locate, Hres in Hloc. cbn [fst snd] in Hloc.
             injection Hloc as <- <-.
             rewrite in_world_generate, Hg in Hgen. injection Hgen as <- <-.
             rewrite in_world_absolute, Ha in Habs'. discriminate.
        * destruct (generate_all_raises _ _ _ _ _ _ _ Hg) as (what & -> & _).
          cbn [fst exit_status]. split; [auto|]. split; [discriminate|].
          intros (pm' & gens' & w2' & files' & w3' & output_dir
                  & [= <-] & _ & Hloc & _ & Hgen & _).
          rewrite in_world_locate, Hres in Hloc. cbn [fst snd] in Hloc.
          injection Hloc as <- <-.
          rewrite in_world_generate, Hg in Hgen. discriminate.
    - cbn [fst exit_status]. split; [auto|]. split; [discriminate|].
      intros (pm & _ & _ & _ & _ & _ & [=] & _). }
  split; [|split; [|split; [|split; [|split]]]].
  - unfold main_outcome. destruct (os_getcwd w) as [cwd|what]; [|cbn [fst exit_status]; auto].
    destruct (parse_args (default_output cwd) argv) as [a| |]; [|cbn [fst exit_status]; auto..].
    destruct (Hwith a) as [[H|H] _]; auto.
  - unfold main_outcome. destruct (os_getcwd w) as [cwd|what].
    + destruct (parse_args (default_output cwd) argv) as [a| |] eqn:Hp.
      * destruct (Hwith a) as [[H|H] _]; split;
          try (intros H'; rewrite H in H'; discriminate);
          intros (cwd' & [= <-] & Hu); congruence.
      * cbn [fst exit_status]. split; eauto.
      * cbn [fst exit_status]. split; [discriminate|]. intros (cwd' & [= <-] & Hu); congruence.
    + cbn [fst exit_status]. split; [discriminate|]. intros (cwd' & Hc & _). discriminate.
  - unfold main_outcome. destruct (os_getcwd w) as [cwd|what].
    + destruct (parse_args (default_output cwd) argv) as [a| |] eqn:Hp.
      * destruct (Hwith a) as [_ Hiff]. rewrite Hiff. split.
        -- intros (pm & gens & w2 & files & w3 & output_dir & H).
           exists cwd. split; [reflexivity|]. right.
           exists a, pm, gens, w2, files, w3, output_dir. auto.
        -- intros (cwd' & [= <-] & [Hh | (a' & pm & gens & w2 & files & w3
                                           & output_dir & Ha & H)]); [congruence|].
           rewrite Hp in Ha. injection Ha as <-.
           exists pm, gens, w2, files, w3, output_dir. exact H.
      * cbn [fst exit_status]. split; [discriminate|].
        intros (cwd' & [= <-] & [Hh | (a' & pm & gens & w2 & files & w3
                                        & output_dir & Ha & _)]); congruence.
      * cbn [fst exit_status]. split; [|reflexivity]. intros _. exists cwd. auto.
    + cbn [fst exit_status]. split; [discriminate|]. intros (cwd' & Hc & _). discriminate.
  - intros message_file. rewrite in_world_parse. unfold parse_outcome. split.
    + now intros ->.
    + now intros what ->.
  - intros pm w1. rewrite in_world_locate. eauto.
  - intros gens output_dir include_paths replace w2 e w3 Hgen.
    rewrite in_world_generate in Hgen.
    destruct (generate_all_raises _ _ _ _ _ _ _ Hgen)
      as (what & -> & [Hmk | (w0 & pre & package & generators & rest & files & w'
                              & Hmk & Hgroups & Hpre & Hmk')]).
    + exists what. auto.
    + exists what. split; [reflexivity|]. right.
      destruct (generate_loop_run output_dir include_paths replace pre []
                  (mkState w0 INFO [])) as (s' & Hloop & Hw).
      cbn [world] in Hloop, Hw. rewrite Hpre in Hloop, Hw. cbn [fst snd app] in *.
      exists w0, pre, package, generators, rest, files, s'.
      rewrite Hw. auto.
Qed.

(** ** Further properties

    *** Dictionaries filled by appending *)

Lemma dict_get_fold {A V} (key : A -> string) (val : A -> V) (p : string)
    (xs : list A) (d : dict (list V)) :
  dict_get p (fold_left (fun d x => dict_append (key x) (val x) d) xs d)
  = match dict_get p d, map val (filter (fun x => String.eqb (key x) p) xs) with
    | None, [] => None
    | None, vs => Some vs
    | Some vs0, vs => Some (vs0 ++ vs)
    end.
Proof.
  revert d. induction xs as [|x xs IH]; intros d.
  - simpl. destruct (dict_get p d); [now rewrite app_nil_r | reflexivity].
  - cbn [fold_left filter]. rewrite IH.
    destruct (String.eqb_spec (key x) p) as [<-|Hne].
    + rewrite dict_get_append_same. cbn [map].
      destruct (dict_get (key x) d); simpl; [now rewrite <- app_assoc | reflexivity].
    + rewrite dict_get_append_other by congruence. reflexivity.
Qed.

Lemma dict_keys_fold {A V} (key : A -> string) (val : A -> V)
    (xs : list A) (d : dict (list V)) :
  dict_keys (fold_left (fun d x => dict_append (key x) (val x) d) xs d)
  = fold_left (fun seen k => if existsb (String.eqb k) seen then seen else seen ++ [k])
              (map key xs) (dict_keys d).
Proof.
  revert d. induction xs as [|x xs IH]; intros d; [reflexivity|].
  cbn [fold_left map]. rewrite IH, dict_keys_append. reflexivity.
Qed.

Lemma nodup_fold {A V} (key : A -> string) (val : A -> V)
    (xs : list A) (d : dict (list V)) :
  NoDup (dict_keys d) ->
  NoDup (dict_keys (fold_left (fun d x => dict_append (key x) (val x) d) xs d)).
Proof.
  revert d. induction xs as [|x xs IH]; intros d Hd; [assumption|].
  cbn [fold_left]. apply IH, dict_append_nodup, Hd.
Qed.

Lemma in_dict_get {V} (k : string) (v : V) (d : dict V) :
  NoDup (dict_keys d) -> In (k, v) d -> dict_get k d = Some v.
Proof.
  induction d as [|[k' v'] d IH]; simpl; [intros _ []|].
  intros Hnd [E|Hin].
  - injection E as -> ->. now rewrite String.eqb_refl.
  - inversion Hnd as [|? ? Hk Hnd']; subst.
    destruct (String.eqb_spec k k') as [->|_]; [|now apply IH].
    exfalso. apply Hk. unfold dict_keys. apply in_map_iff. now exists (k', v).
Qed.

Lemma dict_get_in {V} (k : string) (v : V) (d : dict V) :
  dict_get k d = Some v -> In (k, v) d.
Proof.
  induction d as [|[k' v'] d IH]; simpl; [discriminate|].
  destruct (String.eqb_spec k k') as [->|_].
  - intros [= ->]. now left.
  - intros H. right. now apply IH.
Qed.

Lemma total_messages_append {V} (k : string) (v : V) (d : dict (list V)) :
  total_messages (dict_append k v d) = S (total_messages d).
Proof.
  unfold total_messages. induction d as [|[k' vs] d IH]; [reflexivity|].
  simpl. destruct (String.eqb k k'); simpl.
  - rewrite length_app. simpl. lia.
  - rewrite IH. lia.
Qed.

Lemma total_messages_fold {A V} (key : A -> string) (val : A -> V)
    (xs : list A) (d : dict (list V)) :
  total_messages (fold_left (fun d x => dict_append (key x) (val x) d) xs d)
  = length xs + total_messages d.
Proof.
  revert d. induction xs as [|x xs IH]; intros d; [reflexivity|].
  cbn [fold_left length]. rewrite IH, total_messages_append. lia.
Qed.

(** *** Grouping the descriptors *)

(** Grouping is a partition of the descriptors by package: the keys are the
    distinct package names in the order of their first descriptor; the group
    of a package is never empty and holds exactly the descriptors of that
    package, in their original order; no descriptor is lost or doubled. *)
Theorem group_by_package_partition (idl_generators : list IdlGenerator) :
  let groups := group_by_package idl_generators in
  NoDup (dict_keys groups)
  /\ dict_keys groups = distinct (map package idl_generators)
  /\ (forall p gens, In (p, gens) groups ->
        gens <> []
        /\ gens = filter (fun gen => String.eqb (package gen) p) idl_generators)
  /\ (forall gen, In gen idl_generators ->
        exists gens, In (package gen, gens) groups /\ In gen gens)
  /\ total_messages groups = length idl_generators.
Proof.
  intros groups.
  assert (Hnd : NoDup (dict_keys groups)).
  { apply (nodup_fold package (fun gen => gen)). constructor. }
  assert (Hget : forall p,
            dict_get p groups
            = match filter (fun gen => String.eqb (package gen) p) idl_generators with
              | [] => None
              | gens => Some gens
              end).
  { intros p. unfold groups, group_by_package.
    rewrite (dict_get_fold package (fun gen => gen)). cbn [dict_get].
    now rewrite map_id. }
  split; [exact Hnd|]. split; [|split; [|split]].
  - apply (dict_keys_fold package (fun gen => gen) idl_generators []).
  - intros p gens Hin. apply (in_dict_get _ _ _ Hnd) in Hin. rewrite Hget in Hin.
    destruct (filter _ idl_generators) as [|g gs]; [discriminate|].
    injection Hin as <-. split; [discriminate | reflexivity].
  - intros gen Hin.
    assert (Hf : In gen (filter (fun g => String.eqb (package g) (package gen))
                                idl_generators)).
    { apply filter_In. split; [assumption | apply String.eqb_refl]. }
    specialize (Hget (package gen)).
    destruct (filter _ idl_generators) as [|g gs] eqn:E; [destruct Hf|].
    exists (g :: gs). split; [now apply dict_get_in | exact Hf].
  - unfold groups, group_by_package.
    rewrite (total_messages_fold package (fun gen => gen)). unfold total_messages.
    simpl. lia.
Qed.

Lemma dict_append_fresh {V} (k : string) (v : V) (d : dict (list V)) :
  ~ In k (dict_keys d) -> dict_append k v d = d ++ [(k, [v])].
Proof.
  induction d as [|[k' vs] d IH]; simpl; [reflexivity|].
  intros Hk. destruct (String.eqb_spec k k') as [->|_]; [tauto|].
  rewrite IH by tauto. reflexivity.
Qed.

Lemma dict_append_last {V} (k : string) (v : V) (vs : list V) (d : dict (list V)) :
  ~ In k (dict_keys d) ->
  dict_append k v (d ++ [(k, vs)]) = d ++ [(k, vs ++ [v])].
Proof.
  induction d as [|[k' vs'] d IH]; simpl.
  - now rewrite String.eqb_refl.
  - intros Hk. destruct (String.eqb_spec k k') as [->|_]; [tauto|].
    rewrite IH by tauto. reflexivity.
Qed.

Lemma group_block_last (p : string) (gens gens0 : list IdlGenerator)
    (d : dict (list IdlGenerator)) :
  ~ In p (dict_keys d) ->
  (forall gen, In gen gens -> package gen = p) ->
  fold_left (fun groups gen => dict_append (package gen) gen groups) gens
            (d ++ [(p, gens0)])
  = d ++ [(p, gens0 ++ gens)].
Proof.
  intros Hp. revert gens0. induction gens as [|g gens IH]; intros gens0 Hall.
  - now rewrite app_nil_r.
  - cbn [fold_left]. rewrite (Hall g) by (now left).
    rewrite dict_append_last by assumption.
    rewrite IH by (intros; apply Hall; now right).
    now rewrite <- app_assoc.
Qed.

Lemma group_block (p : string) (gens : list IdlGenerator)
    (d : dict (list IdlGenerator)) :
  ~ In p (dict_keys d) ->
  (forall gen, In gen gens -> package gen = p) ->
  fold_left (fun groups gen => dict_append (package gen) gen groups) gens d
  = match gens with [] => d | _ => d ++ [(p, gens)] end.
Proof.
  intros Hp Hall. destruct gens as [|g gens]; [reflexivity|].
  cbn [fold_left]. rewrite (Hall g) by (now left).
  rewrite dict_append_fresh by assumption.
  apply group_block_last; [assumption | intros; apply Hall; now right].
Qed.

(** Descriptors that come package by package, each package once, are
    grouped into those very blocks. *)
Lemma group_blocks (blocks : list (string * list IdlGenerator))
    (d : dict (list IdlGenerator)) :
  NoDup (dict_keys d ++ map fst blocks) ->
  (forall p gens, In (p, gens) blocks -> forall gen, In gen gens -> package gen = p) ->
  fold_left (fun groups gen => dict_append (package gen) gen groups)
            (flat_map snd blocks) d
  = d ++ flat_map (fun b => match snd b with [] => [] | _ => [b] end) blocks.
Proof.
  revert d. induction blocks as [|[p gens] blocks IH]; intros d Hnd Hall.
  - simpl. now rewrite app_nil_r.
  - cbn [flat_map snd map fst] in *. rewrite fold_left_app.
    assert (Hp : ~ In p (dict_keys d)).
    { apply NoDup_remove_2 in Hnd. rewrite in_app_iff in Hnd. tauto. }
    rewrite (group_block p gens d Hp) by (apply (Hall p gens); now left).
    destruct gens as [|g gens].
    + apply IH; [now apply NoDup_remove_1 in Hnd|].
      intros q gs Hin. apply Hall. now right.
    + rewrite IH.
      * now rewrite <- app_assoc.
      * unfold dict_keys in *. rewrite map_app, <- app_assoc. exact Hnd.
      * intros q gs Hin. apply Hall. now right.
Qed.

Lemma contribution_package (w : W) (item : string * list string) (gen : IdlGenerator) :
  In gen (contribution w item) -> package gen = fst item.
Proof.
  unfold contribution. destruct (resolution_of _ _); try (intros []).
  unfold found. intros Hin. apply in_map_iff in Hin. now destruct Hin as (m & <- & _).
Qed.

(** When every package of the map is listed once and the registry leaves
    the world as it is, the groups the generator forms from the resolver's
    descriptors are the resolver's own per-package results, in the order of
    the map, the packages that contribute nothing left out: one generator
    invocation per resolved package. *)
Theorem groups_follow_resolution {L} (package_msgs : dict (list string))
    (l : L) (s : state) :
  NoDup (dict_keys package_msgs) ->
  (forall package w, snd (os_run (registry_cmd package) w) = w) ->
  exists idl_generators s',
    locate_idl_files package_msgs l s = (Return idl_generators, l, s')
    /\ group_by_package idl_generators
       = flat_map (fun item =>
                     match contribution (world s) item with
                     | [] => []
                     | gens => [(fst item, gens)]
                     end) package_msgs.
Proof.
  intros Hnd Hro.
  destruct (locate_idl_files_run package_msgs l s) as (s' & Hrun & _).
  destruct (resolve_all_read_only package_msgs (world s) Hro) as [Hg _].
  rewrite Hg in Hrun. eexists _, s'. split; [exact Hrun|].
  unfold group_by_package.
  set (blocks := map (fun item => (fst item, contribution (world s) item)) package_msgs).
  assert (Hflat : flat_map (contribution (world s)) package_msgs = flat_map snd blocks).
  { unfold blocks. clear. induction package_msgs as [|item pm IH]; [reflexivity|].
    cbn [flat_map map snd]. now rewrite IH. }
  rewrite Hflat, (group_blocks blocks []).
  - unfold blocks. cbn [app]. clear.
    induction package_msgs as [|item pm IH]; [reflexivity|].
    cbn [flat_map map snd fst]. rewrite IH.
    now destruct (contribution (world s) item).
  - cbn [dict_keys map app]. unfold blocks. rewrite map_map. cbn [fst].
    exact Hnd.
  - intros p gens Hin gen Hgen. unfold blocks in Hin. apply in_map_iff in Hin.
    destruct Hin as (item & E & _). injection E as <- <-.
    now apply contribution_package in Hgen.
Qed.

(** *** The list parser *)

Lemma before_first_no_sep (c : ascii) (s : string) :
  Str.contains_char c (Str.before_first c s) = false.
Proof.
  induction s as [|d r IH]; [reflexivity|].
  simpl. destruct (Ascii.eqb d c) eqn:E; [reflexivity|].
  simpl. now rewrite E.
Qed.

Lemma rstrip_idem (s : string) : Str.rstrip (Str.rstrip s) = Str.rstrip s.
Proof.
  induction s as [|c r IH]; [reflexivity|].
  cbn [Str.rstrip]. destruct (Str.rstrip r) as [|d r'] eqn:Hr.
  - destruct (Str.isspace c) eqn:Hc; [reflexivity|].
    cbn [Str.rstrip]. now rewrite Hc.
  - cbn [Str.rstrip] in IH |- *. now rewrite IH.
Qed.

Lemma lstrip_head (s : string) :
  Str.lstrip s = ""
  \/ exists c r, Str.lstrip s = String c r /\ Str.isspace c = false.
Proof.
  induction s as [|c r IH]; [now left|].
  cbn [Str.lstrip]. destruct (Str.isspace c) eqn:Hc; [exact IH|].
  right. now exists c, r.
Qed.

Lemma strip_idem (s : string) : Str.strip (Str.strip s) = Str.strip s.
Proof.
  unfold Str.strip.
  destruct (lstrip_head s) as [->|(c & r & -> & Hc)]; [reflexivity|].
  destruct (rstrip_cons_nonspace c r Hc) as [r' Hr].
  rewrite Hr at 1. cbn [Str.lstrip]. rewrite Hc, <- Hr. apply rstrip_idem.
Qed.

(** The two parts of an entry are trimmed and not empty, and the package
    part has no separator. *)
Lemma entry_clean (line p m : string) :
  entry_of line = Some (p, m) ->
  (p <> "" /\ Str.contains_char "/" p = false /\ Str.strip p = p)
  /\ (m <> "" /\ Str.strip m = m).
Proof.
  unfold entry_of. destruct (is_entry line) eqn:He; [|discriminate].
  intros [= <- <-]. unfold is_entry in He.
  repeat (apply andb_prop in He; destruct He as [He ?]).
  repeat split.
  - intros E. rewrite E in *. discriminate.
  - unfold package_part. rewrite contains_char_strip by reflexivity.
    apply before_first_no_sep.
  - apply strip_idem.
  - intros E. rewrite E in *. discriminate.
  - apply strip_idem.
Qed.

Lemma in_messages_of (p m : string) (es : list (string * string)) :
  In m (messages_of p es) <-> In (p, m) es.
Proof.
  unfold messages_of. rewrite in_map_iff. split.
  - intros ([q m'] & <- & Hin). apply filter_In in Hin. destruct Hin as [Hin E].
    apply String.eqb_eq in E. simpl in E. now subst.
  - intros Hin. exists (p, m). split; [reflexivity|].
    apply filter_In. split; [assumption | apply String.eqb_refl].
Qed.

(** Whatever the file holds, the names the parser returns are clean: a
    package name is not empty, has no [/] and no white space around it; it is
    bound to at least one message; and a message type is not empty and has
    no white space around it. *)
Theorem parsed_names_are_clean {L} (message_file : Path.t) (l : L) (s s' : state)
    (package_msgs : dict (list string)) :
  parse_message_list message_file l s = (Return package_msgs, l, s') ->
  forall p ms, In (p, ms) package_msgs ->
    (p <> "" /\ Str.contains_char "/" p = false /\ Str.strip p = p)
    /\ ms <> []
    /\ forall m, In m ms -> m <> "" /\ Str.strip m = m.
Proof.
  intros Hrun p ms Hin.
  destruct (parse_message_list_run message_file l s) as (s1 & Hrun1 & _).
  rewrite Hrun1 in Hrun. injection Hrun as Hout _. unfold parse_outcome in Hout.
  destruct (os_exists message_file (world s)) as [[|]|what]; try discriminate.
  destruct (os_read message_file (world s)) as [what|text [f|]]; try discriminate.
  injection Hout as <-.
  set (es := entries (Str.lines text)) in *.
  apply in_dict_get in Hin; [|apply nodup_add_entries; constructor].
  rewrite dict_get_add_entries in Hin. cbn [dict_get] in Hin.
  assert (Hms : messages_of p es = ms /\ ms <> []).
  { destruct (messages_of p es); [discriminate|]. injection Hin as <-.
    split; [reflexivity | discriminate]. }
  destruct Hms as [Hms Hne].
  assert (Hclean : forall m, In m ms ->
            (p <> "" /\ Str.contains_char "/" p = false /\ Str.strip p = p)
            /\ (m <> "" /\ Str.strip m = m)).
  { intros m Hm. rewrite <- Hms in Hm. apply in_messages_of in Hm.
    apply in_entries in Hm. destruct Hm as (line & _ & He).
    exact (entry_clean line p m He). }
  split; [|split; [exact Hne|]].
  - destruct ms as [|m0 ms0]; [congruence|]. apply (Hclean m0). now left.
  - intros m Hm. apply (Hclean m Hm).
Qed.

Lemma count_messages_of (p m : string) (es : list (string * string)) :
  length (filter (String.eqb m) (messages_of p es))
  = length (filter (fun e => String.eqb (fst e) p && String.eqb m (snd e)) es).
Proof.
  unfold messages_of. induction es as [|[q m'] es IH]; [reflexivity|].
  cbn [filter fst snd]. destruct (String.eqb q p); cbn [andb map filter snd].
  - destruct (String.eqb m m'); cbn [length]; now rewrite IH.
  - exact IH.
Qed.

(** The parser neither drops nor merges entries: the map lists as many
    messages as the file has entry lines, and a message named several times
    for a package is listed that many times. *)
Theorem parse_keeps_every_entry {L} (message_file : Path.t) (text : string)
    (l : L) (s : state) :
  os_exists message_file (world s) = Known true ->
  os_read message_file (world s) = Content text None ->
  let es := entries (Str.lines text) in
  exists package_msgs s',
    parse_message_list message_file l s = (Return package_msgs, l, s')
    /\ total_messages package_msgs = length es
    /\ forall p m,
         length (filter (String.eqb m)
                        (match dict_get p package_msgs with
                         | Some ms => ms
                         | None => []
                         end))
         = length (filter (fun e => String.eqb (fst e) p && String.eqb m (snd e)) es).
Proof.
  intros Hex Hread es.
  destruct (parse_message_list_run message_file l s) as (s' & Hrun & _).
  unfold parse_outcome in Hrun. rewrite Hex, Hread in Hrun. fold es in Hrun.
  eexists _, s'. split; [exact Hrun|]. split.
  - rewrite (total_messages_fold fst snd). unfold total_messages. simpl. lia.
  - intros p m. rewrite dict_get_add_entries. cbn [dict_get].
    rewrite <- count_messages_of.
    now destruct (messages_of p es).
Qed.

Lemma parse_line_log (line : string) (d : dict (list string)) (s : state) :
  let s' := snd (parse_line line d s) in
  logger_level s' = logger_level s
  /\ (forall r, In r (log s) -> In r (log s'))
  /\ (is_blank line = false -> is_comment line = false -> is_entry line = false ->
      level_num (logger_level s) <= level_num WARNING ->
      In (WARNING, InvalidMessageFormat (Str.strip line)) (log s')).
Proof.
  assert (Hemit : forall ev,
            let s' := emit WARNING ev s in
            logger_level s' = logger_level s
            /\ (forall r, In r (log s) -> In r (log s'))
            /\ (level_num (logger_level s) <= level_num WARNING ->
                In (WARNING, ev) (log s'))).
  { intros ev. cbn zeta. unfold emit.
    destruct (level_num (logger_level s) <=? level_num WARNING) eqn:Hl.
    - cbn [logger_level log]. split; [reflexivity|]. split.
      + intros r Hr. apply in_app_iff. now left.
      + intros _. apply in_app_iff. right. now left.
    - split; [reflexivity|]. split; [auto|].
      intros H. apply Nat.leb_le in H. congruence. }
  cbn zeta. rewrite is_entry_stripped. unfold is_blank, is_comment.
  unfold parse_line, package_part, message_part.
  destruct (Str.is_empty (Str.strip line)) eqn:Hb; cbn [orb negb andb].
  { split; [reflexivity|]. split; [auto | discriminate]. }
  destruct (Str.startswith_char "#" (Str.strip line)) eqn:Hc; cbn [orb negb andb].
  { split; [reflexivity|]. split; [auto | discriminate]. }
  destruct (Str.contains_char "/" (Str.strip line)) eqn:Hslash; cbn [negb andb].
  2:{ destruct (Hemit (InvalidMessageFormat (Str.strip line))) as (Hl & Hin & Hw).
      cbn [logger_log snd]. split; [exact Hl|]. split; [exact Hin | auto]. }
  unfold Str.split1. rewrite Hslash.
  destruct (Str.is_empty (Str.strip (Str.before_first "/" (Str.strip line)))
            || Str.is_empty (Str.strip (Str.after_first "/" (Str.strip line)))).
  - destruct (Hemit (InvalidMessageFormat (Str.strip line))) as (Hl & Hin & Hw).
    cbn [logger_log snd]. split; [exact Hl|]. split; [exact Hin | auto].
  - cbn [modify_local snd negb]. split; [reflexivity|]. split; [auto | discriminate].
Qed.

Lemma parse_lines_log (lines : list string) (d : dict (list string)) (s : state) :
  let s' := snd (for_ lines parse_line d s) in
  logger_level s' = logger_level s
  /\ (forall r, In r (log s) -> In r (log s'))
  /\ (forall line,
        In line lines ->
        is_blank line = false -> is_comment line = false -> is_entry line = false ->
        level_num (logger_level s) <= level_num WARNING ->
        In (WARNING, InvalidMessageFormat (Str.strip line)) (log s')).
Proof.
  revert d s. induction lines as [|x lines IH]; intros d s; cbn zeta.
  - split; [reflexivity|]. split; [auto | intros line []].
  - rewrite for_cons.
    destruct (parse_line_log x d s) as (Hl1 & Hin1 & Hw1).
    destruct (parse_line_run x d s) as (s1 & Hrun & _).
    rewrite Hrun in *. cbn [snd] in *.
    match goal with |- context [for_ lines parse_line ?d1 s1] =>
      destruct (IH d1 s1) as (Hl2 & Hin2 & Hw2) end.
    split; [congruence|]. split; [auto|].
    intros line [<- | Hin] Hb Hc He Hlvl.
    + apply Hin2. now apply Hw1.
    + apply Hw2; try assumption. now rewrite Hl1.
Qed.

(** The list file is read as it is parsed.  When its reading fails
    part-way, the lines delivered before the failure have been dealt with:
    each of them that is neither blank, nor a comment, nor an entry has been
    warned about; then the failure is raised, the map built so far is lost
    and the world is as it was. *)
Theorem partial_read_is_fatal {L} (message_file : Path.t) (text : string)
    (f : read_failure) (l : L) (s : state) :
  os_exists message_file (world s) = Known true ->
  os_read message_file (world s) = Content text (Some f) ->
  level_num (logger_level s) <= level_num WARNING ->
  exists s',
    parse_message_list message_file l s = (Raise (read_failure_exn f), l, s')
    /\ world s' = world s
    /\ s' = snd (for_ (Str.lines text) parse_line [] s)
    /\ forall line,
         In line (Str.lines text) ->
         is_blank line = false -> is_comment line = false -> is_entry line = false ->
         In (WARNING, InvalidMessageFormat (Str.strip line)) (log s').
Proof.
  intros Hex Hread Hlvl.
  destruct (parse_lines_run (Str.lines text) [] s) as (s' & Hrun & Hw).
  destruct (parse_lines_log (Str.lines text) [] s) as (_ & _ & Hwarn).
  rewrite Hrun in Hwarn. cbn [snd] in Hwarn.
  exists s'. split; [|split; [exact Hw | split]].
  - unfold parse_message_list, call, bind, path_exists, for_lines_of, get_local.
    rewrite Hex. cbn [negb]. rewrite Hread. unfold bind. rewrite Hrun. reflexivity.
  - now rewrite Hrun.
  - intros line Hin Hb Hc He. now apply Hwarn.
Qed.

(** *** The program *)

Lemma run_script_world (argv : list string) (w : W) :
  world (snd (run_script argv w)) = snd (main_outcome argv w).
Proof.
  unfold run_script.
  destruct (main_run argv (mkState w INFO [])) as (s' & -> & Hw). exact Hw.
Qed.

Lemma main_outcome_parsed (argv : list string) (w : W) (cwd : string) (a : args) :
  os_getcwd w = Cwd cwd ->
  parse_args (default_output cwd) argv = Parsed a ->
  main_outcome argv w = main_with_outcome a w.
Proof. intros Hcwd Hp. unfold main_outcome. now rewrite Hcwd, Hp. Qed.

Lemma entries_nil (lines : list string) :
  (forall line, In line lines -> is_entry line = false) -> entries lines = [].
Proof.
  induction lines as [|line lines IH]; intros H; [reflexivity|].
  unfold entries in *. cbn [flat_map]. unfold entry_of at 1.
  rewrite (H line) by (now left). apply IH. intros x Hx. apply H. now right.
Qed.

(** The fatal paths touch nothing: when the list file of an accepted
    command line is missing, cannot be examined, opened or read to its end,
    or has no entry line, the program exits with status 1 and leaves the
    world as it found it (no directory made, no process run). *)
Theorem fatal_input_leaves_world (argv : list string) (w : W) (cwd : string)
    (a : args) :
  os_getcwd w = Cwd cwd ->
  parse_args (default_output cwd) argv = Parsed a ->
  os_exists (message_file a) w = Known false
  \/ (exists what, os_exists (message_file a) w = StatFailed what)
  \/ (exists what, os_read (message_file a) w = CannotOpen what)
  \/ (exists text f, os_read (message_file a) w = Content text (Some f))
  \/ (exists text,
        os_read (message_file a) w = Content text None
        /\ forall line, In line (Str.lines text) -> is_entry line = false) ->
  fst (run_script argv w) = 1%Z /\ world (snd (run_script argv w)) = w.
Proof.
  intros Hcwd Hp H. rewrite run_script_status, run_script_world.
  rewrite (main_outcome_parsed _ _ _ _ Hcwd Hp).
  unfold main_with_outcome, parse_outcome.
  destruct (os_exists (message_file a) w) as [[|]|what0]; [|split; reflexivity..].
  destruct H as [H | [(what & H) | [(what & ->) | [(text & f & ->) | (text & -> & H)]]]];
    try discriminate.
  - split; reflexivity.
  - split; reflexivity.
  - rewrite (entries_nil _ H). split; reflexivity.
Qed.

(** [--verbose] changes the log and nothing else: two command lines that
    are accepted with the same arguments but for the verbosity end with the
    same exit status and leave the same world. *)
Theorem verbose_only_changes_log (argv1 argv2 : list string) (cwd : string)
    (message_file output : Path.t) (include : list Path.t) (replace v1 v2 : bool)
    (w : W) :
  os_getcwd w = Cwd cwd ->
  parse_args (default_output cwd) argv1
  = Parsed (mkArgs message_file output include replace v1) ->
  parse_args (default_output cwd) argv2
  = Parsed (mkArgs message_file output include replace v2) ->
  fst (run_script argv1 w) = fst (run_script argv2 w)
  /\ world (snd (run_script argv1 w)) = world (snd (run_script argv2 w)).
Proof.
  intros Hcwd Hp1 Hp2. rewrite !run_script_status, !run_script_world.
  rewrite (main_outcome_parsed _ _ _ _ Hcwd Hp1), (main_outcome_parsed _ _ _ _ Hcwd Hp2).
  split; reflexivity.
Qed.

(** *** The path resolver *)

Lemma log_emit_error (ev : event) (s : state) :
  log (emit ERROR ev s) = log s ++ [(ERROR, ev)].
Proof. unfold emit. now destruct (logger_level s). Qed.

Lemma in_log_emit (r : level * event) (lvl : level) (ev : event) (s : state) :
  In r (log s) -> In r (log (emit lvl ev s)).
Proof.
  unfold emit. destruct (level_num (logger_level s) <=? level_num lvl); [|auto].
  cbn [log]. intros H. apply in_app_iff. now left.
Qed.


Lemma resolved_msg_dir (r : run_result) (w : W) (msg_dir : Path.t) :
  resolution_of r w = Resolved msg_dir ->
  exists stdout stderr,
    r = Exited 0 stdout stderr
    /\ Str.strip stdout <> ""
    /\ msg_dir = (Path.of_str (Str.strip stdout) / "msg")%path
    /\ os_exists msg_dir w = Known true.
Proof.
  destruct r as [rc out err|what]; cbn [resolution_of]; [|discriminate].
  destruct (Z.eqb_spec rc 0) as [->|]; [|discriminate].
  destruct (Str.is_empty (Str.strip out)) eqn:He; [discriminate|].
  destruct (os_exists _ w) as [[|]|what] eqn:Hex; try discriminate.
  intros [= <-]. exists out, err. repeat split; [|exact Hex].
  intros E. rewrite E in He. discriminate.
Qed.

Lemma total_messages_cons {V} (k : string) (vs : list V) (d : dict (list V)) :
  total_messages ((k, vs) :: d) = length vs + total_messages d.
Proof. reflexivity. Qed.

Lemma checked_prefix_length (w : W) (msg_dir : Path.t) (msg_types : list string) :
  length (checked_prefix w msg_dir msg_types) <= length msg_types.
Proof.
  induction msg_types as [|m ms IH]; [apply Nat.le_0_l|].
  cbn [checked_prefix]. destruct (os_exists _ w); cbn [length]; lia.
Qed.

Lemma found_length (w : W) (package : string) (msg_dir : Path.t)
    (msg_types : list string) :
  length (found w package msg_dir msg_types) <= length msg_types.
Proof.
  unfold found. rewrite length_map.
  pose proof (filter_length_le
                (fun msg_type => exists_true w (msg_dir / (msg_type ++ ".idl"))%path)
                (checked_prefix w msg_dir msg_types)).
  pose proof (checked_prefix_length w msg_dir msg_types). lia.
Qed.

(** A message type is looked at when it is listed and no existence check
    before its own raises. *)
Lemma in_checked_prefix (w : W) (msg_dir : Path.t) (msg_types : list string)
    (m : string) :
  In m (checked_prefix w msg_dir msg_types) <->
  exists before after,
    msg_types = before ++ m :: after
    /\ (forall m', In m' before -> checked w (msg_dir / (m' ++ ".idl"))%path)
    /\ checked w (msg_dir / (m ++ ".idl"))%path.
Proof.
  induction msg_types as [|x rest IH]; cbn [checked_prefix].
  - split; [intros [] | intros ([|? ?] & after & H & _); discriminate].
  - destruct (os_exists (msg_dir / (x ++ ".idl"))%path w) as [b|what] eqn:Hx.
    + split.
      * intros [<- | Hin].
        -- exists [], rest. split; [reflexivity|]. split; [intros ? [] | now exists b].
        -- apply IH in Hin. destruct Hin as (before & after & -> & Hb & Hm).
           exists (x :: before), after. split; [reflexivity|]. split; [|assumption].
           intros m' [<- | Hin]; [now exists b | now apply Hb].
      * intros ([|y before] & after & Heq & Hb & Hm); injection Heq as <- ->.
        -- now left.
        -- right. apply IH. exists before, after. split; [reflexivity|].
           split; [|assumption]. intros m' Hin. apply Hb. now right.
    + split; [intros []|].
      intros ([|y before] & after & Heq & Hb & [b Hm]); injection Heq as <- ->.
      * congruence.
      * destruct (Hb x (or_introl eq_refl)) as [b' Hb']. congruence.
Qed.

Lemma exists_true_Known (w : W) (p : Path.t) :
  exists_true w p = true <-> os_exists p w = Known true.
Proof.
  unfold exists_true. destruct (os_exists p w) as [[|]|what]; split; congruence.
Qed.

Lemma resolve_all_world_cons (package : string) (msg_types : list string)
    (rest : dict (list string)) (w : W) :
  snd (resolve_all ((package, msg_types) :: rest) w)
  = snd (resolve_all rest (snd (os_run (registry_cmd package) w))).
Proof.
  cbn [resolve_all]. destruct (os_run (registry_cmd package) w) as [r w'].
  cbn [snd]. destruct (resolve_all rest w') as [[gens missing] w''].
  now destruct (resolution_of r w').
Qed.

Lemma resolve_all_sound (package_msgs : dict (list string)) (w : W) :
  (forall gen, In gen (fst (fst (resolve_all package_msgs w))) ->
     initialised gen
     /\ exists pre msg_types rest stdout stderr w',
          package_msgs = pre ++ (package gen, msg_types) :: rest
          /\ In (msg_type gen) msg_types
          /\ os_run (registry_cmd (package gen)) (snd (resolve_all pre w))
             = (Exited 0 stdout stderr, w')
          /\ Str.strip stdout <> ""
          /\ idl_path gen
             = (Path.of_str (Str.strip stdout) / "msg" / (msg_type gen ++ ".idl"))%path
          /\ os_exists (idl_path gen) w' = Known true)
  /\ length (fst (fst (resolve_all package_msgs w))) <= total_messages package_msgs.
Proof.
  revert w. induction package_msgs as [|[pkg msg_types] rest IH]; intros w.
  - split; [intros gen [] | apply Nat.le_0_l].
  - pose proof (resolve_all_world_cons pkg msg_types) as Hworld.
    cbn [resolve_all].
    destruct (os_run (registry_cmd pkg) w) as [r w1] eqn:Hrun.
    destruct (IH w1) as [IHs IHl].
    destruct (resolve_all rest w1) as [[gens missing] w2] eqn:Hrest.
    cbn [fst snd] in *.
    assert (Hgens : forall gen, In gen gens ->
              initialised gen
              /\ exists pre msg_types0 rest0 stdout stderr w',
                   (pkg, msg_types) :: rest = pre ++ (package gen, msg_types0) :: rest0
                   /\ In (msg_type gen) msg_types0
                   /\ os_run (registry_cmd (package gen)) (snd (resolve_all pre w))
                      = (Exited 0 stdout stderr, w')
                   /\ Str.strip stdout <> ""
                   /\ idl_path gen
                      = (Path.of_str (Str.strip stdout) / "msg"
                         / (msg_type gen ++ ".idl"))%path
                   /\ os_exists (idl_path gen) w' = Known true).
    { intros gen Hgen.
      destruct (IHs gen Hgen)
        as (Hi & pre & ms & rest0 & out & err & w' & -> & Hm & Hr & Ho & Hp & He).
      split; [exact Hi|].
      exists ((pkg, msg_types) :: pre), ms, rest0, out, err, w'.
      split; [reflexivity|]. split; [assumption|]. split; [|auto].
      rewrite resolve_all_world_cons, Hrun. exact Hr. }
    assert (Hlen : length gens <= total_messages ((pkg, msg_types) :: rest)).
    { rewrite total_messages_cons. lia. }
    destruct (resolution_of r w1) as [|d|msg_dir] eqn:Hres; cbn [fst];
      try (split; [exact Hgens | exact Hlen]).
    split.
    + intros gen Hgen. apply in_app_iff in Hgen. destruct Hgen as [Hgen|Hgen];
        [|now apply Hgens].
      destruct (resolved_msg_dir r w1 msg_dir Hres) as (out & err & -> & Ho & -> & _).
      unfold found in Hgen. apply in_map_iff in Hgen.
      destruct Hgen as (m & <- & Hm). apply filter_In in Hm. destruct Hm as [Hm Hex].
      apply in_checked_prefix in Hm. destruct Hm as (before & after & -> & _ & _).
      apply exists_true_Known in Hex.
      split; [reflexivity|].
      exists [], (before ++ m :: after), rest, out, err, w1.
      cbn [descriptor IdlGenerator_init package msg_type idl_path app resolve_all snd].
      repeat split; auto with datatypes.
    + rewrite length_app, total_messages_cons.
      pose proof (found_length w1 pkg msg_dir msg_types). lia.
Qed.


(** With a registry that leaves the world as it is, a descriptor is returned
    exactly when its package is in the map with its message type, the
    package's [msg] directory resolves, no existence check of a message
    listed before it for the package raises, and the IDL file of the message
    exists; so every IDL path returned exists. *)
Theorem located_iff_installed {L} (package_msgs : dict (list string))
    (l : L) (s : state) :
  (forall package w, snd (os_run (registry_cmd package) w) = w) ->
  exists idl_generators s',
    locate_idl_files package_msgs l s = (Return idl_generators, l, s')
    /\ (forall gen,
          In gen idl_generators <->
          exists p before m after msg_dir,
            In (p, before ++ m :: after) package_msgs
            /\ resolution_of (fst (os_run (registry_cmd p) (world s))) (world s)
               = Resolved msg_dir
            /\ (forall m', In m' before ->
                  checked (world s) (msg_dir / (m' ++ ".idl"))%path)
            /\ os_exists (msg_dir / (m ++ ".idl"))%path (world s) = Known true
            /\ gen = descriptor p msg_dir m)
    /\ (forall gen, In gen idl_generators ->
          os_exists (idl_path gen) (world s) = Known true).
Proof.
  intros Hro.
  destruct (locate_idl_files_run package_msgs l s) as (s' & Hrun & _).
  destruct (resolve_all_read_only package_msgs (world s) Hro) as [Hg _].
  rewrite Hg in Hrun. eexists _, s'. split; [exact Hrun|].
  assert (Hiff : forall gen,
            In gen (flat_map (contribution (world s)) package_msgs) <->
            exists p before m after msg_dir,
              In (p, before ++ m :: after) package_msgs
              /\ resolution_of (fst (os_run (registry_cmd p) (world s))) (world s)
                 = Resolved msg_dir
              /\ (forall m', In m' before ->
                    checked (world s) (msg_dir / (m' ++ ".idl"))%path)
              /\ os_exists (msg_dir / (m ++ ".idl"))%path (world s) = Known true
              /\ gen = descriptor p msg_dir m).
  { intros gen. rewrite in_flat_map. split.
    - intros ([p msg_types] & Hin & Hgen). unfold contribution in Hgen.
      cbn [fst snd] in Hgen.
      destruct (resolution_of _ _) as [|d|msg_dir] eqn:Hres; try destruct Hgen.
      unfold found in Hgen. apply in_map_iff in Hgen.
      destruct Hgen as (m & <- & Hm). apply filter_In in Hm. destruct Hm as [Hm Hex].
      apply in_checked_prefix in Hm. destruct Hm as (before & after & -> & Hb & _).
      apply exists_true_Known in Hex.
      exists p, before, m, after, msg_dir. auto.
    - intros (p & before & m & after & msg_dir & Hin & Hres & Hb & Hex & ->).
      exists (p, before ++ m :: after). split; [exact Hin|].
      unfold contribution. cbn [fst snd]. rewrite Hres. unfold found.
      apply in_map_iff. exists m. split; [reflexivity|].
      apply filter_In. split; [|now apply exists_true_Known].
      apply in_checked_prefix. exists before, after.
      split; [reflexivity|]. split; [assumption | now exists true]. }
  split; [exact Hiff|].
  intros gen Hgen. apply Hiff in Hgen.
  destruct Hgen as (p & before & m & after & msg_dir & _ & _ & _ & Hex & ->). exact Hex.
Qed.

Lemma resolve_all_missing (package_msgs : dict (list string)) (w : W) :
  (forall package w, snd (os_run (registry_cmd package) w) = w) ->
  snd (fst (resolve_all package_msgs w)) = missing_in w package_msgs.
Proof.
  intros Hro. unfold missing_in.
  induction package_msgs as [|[pkg msg_types] rest IH]; [reflexivity|].
  cbn [resolve_all filter]. unfold raises_in at 1. cbn [fst snd].
  pose proof (Hro pkg w) as Hw.
  destruct (os_run (registry_cmd pkg) w) as [r w']. cbn [fst snd] in *. subst w'.
  destruct (resolve_all rest w) as [[gens missing] w'']. cbn [fst snd] in *.
  destruct (resolution_of r w) as [|d|msg_dir]; cbn [map fst snd];
    try (now rewrite IH).
  destruct (check_failure w msg_dir msg_types); cbn [map fst snd]; now rewrite IH.
Qed.

(** With a registry that leaves the world as it is, the packages whose
    [try] block raises, whatever the exception (a failed lookup or an
    existence check that raises), are reported once, after the loop, in one
    error record that lists them in the order of the map; when no block
    raises, nothing is added to what the loop logged. *)
Theorem missing_packages_are_reported {L} (package_msgs : dict (list string))
    (l : L) (s : state) :
  (forall package w, snd (os_run (registry_cmd package) w) = w) ->
  let missing := missing_in (world s) package_msgs in
  let s1 := snd (for_ package_msgs locate_package (mkLocate [] []) s) in
  log (snd (locate_idl_files package_msgs l s))
  = log s1 ++ match missing with
              | [] => []
              | _ :: _ => [(ERROR, MissingPackages missing)]
              end
  /\ (forall package msg_types l0 s0,
        world s0 = world s ->
        (raises_in (world s) (package, msg_types) = true <->
         exists e l' s',
           locate_package_body package msg_types l0 s0 = (Raise e, l', s'))).
Proof.
  intros Hro missing s1. unfold s1, missing. split.
  - rewrite <- (resolve_all_missing package_msgs (world s) Hro).
    destruct (locate_loop_run package_msgs (mkLocate [] []) s) as (s2 & Hloop & _).
    unfold locate_idl_files, call, bind, get_local. rewrite Hloop.
    cbn [idl_generators missing_packages app snd].
    destruct (snd (fst (resolve_all package_msgs (world s)))) as [|p ps].
    + cbn. now rewrite app_nil_r.
    + cbn [logger_log ret snd]. apply log_emit_error.
  - intros package msg_types l0 s0 Hw0. unfold raises_in. cbn [fst snd].
    rewrite <- Hw0. pose proof (Hro package (world s0)) as Hw.
    destruct (os_run (registry_cmd package) (world s0)) as [r w'] eqn:Hrun.
    cbn [fst snd] in *. subst w'.
    destruct (locate_package_body_run package msg_types l0 s0 r (world s0) Hrun)
      as (s' & _ & Hbody).
    destruct (resolution_of r (world s0)) as [|d|msg_dir].
    + destruct Hbody as (e & Hb & _). split; [eauto | reflexivity].
    + rewrite Hbody. split; [discriminate | intros (e & l' & s2 & [=])].
    + rewrite Hbody. destruct (check_failure (world s0) msg_dir msg_types) as [what|].
      * split; [eauto | reflexivity].
      * split; [discriminate | intros (e & l' & s2 & [=])].
Qed.

(** *** The batch generator *)

Lemma recorded_under (output_dir pkg_output_dir : Path.t) (w : W)
    (generators : list IdlGenerator) :
  (forall f, In f (fst (recorded output_dir pkg_output_dir w generators)) ->
     Path.is_relative_to f output_dir = true)
  /\ length (fst (recorded output_dir pkg_output_dir w generators))
     <= 2 * length generators.
Proof.
  induction generators as [|gen rest [IHu IHl]]; cbn [recorded].
  - split; [intros f [] | apply Nat.le_0_l].
  - destruct (both_exist w _ _) as [[|]|what].
    + destruct (Path.is_relative_to _ output_dir && Path.is_relative_to _ output_dir)
        eqn:Hrel.
      * apply andb_prop in Hrel. destruct Hrel as [Hh Hc].
        destruct (recorded output_dir pkg_output_dir w rest) as [files e].
        cbn [fst length] in *. split; [|lia].
        intros f [<-|[<-|Hin]]; auto.
      * cbn [fst length]. split; [intros f [] | lia].
    + cbn [length]. split; [exact IHu | lia].
    + cbn [fst length]. split; [intros f [] | lia].
Qed.

Lemma group_files_under (output_dir pkg_output_dir : Path.t) (r : run_result)
    (w : W) (generators : list IdlGenerator) :
  (forall f, In f (group_files output_dir pkg_output_dir r w generators) ->
     Path.is_relative_to f output_dir = true)
  /\ length (group_files output_dir pkg_output_dir r w generators)
     <= 2 * length generators.
Proof.
  unfold group_files.
  destruct r as [rc out err|what];
    [destruct (rc =? 0)%Z; [apply recorded_under|]|];
    (split; [intros f [] | apply Nat.le_0_l]).
Qed.

Lemma generate_groups_under (output_dir : Path.t)
    (include_paths : option (list Path.t)) (replace : bool)
    (groups : dict (list IdlGenerator)) (w : W) :
  (forall f, In f (snd (fst (generate_groups output_dir include_paths replace groups w))) ->
     Path.is_relative_to f output_dir = true)
  /\ length (snd (fst (generate_groups output_dir include_paths replace groups w)))
     <= 2 * total_messages groups.
Proof.
  revert w. induction groups as [|[pkg generators] rest IH]; intros w;
    cbn [generate_groups].
  - split; [intros f [] | apply Nat.le_0_l].
  - rewrite total_messages_cons.
    destruct (os_mkdir _ w) as [[what|] w1].
    + split; [intros f [] | apply Nat.le_0_l].
    + destruct (os_run _ w1) as [r w2].
      destruct (IH w2) as [IHu IHl].
      destruct (group_files_under output_dir (output_dir / pkg / "msg")%path
                  r w2 generators) as [Hu Hl].
      destruct (generate_groups output_dir include_paths replace rest w2)
        as [[failure files] w3].
      cbn [fst snd] in *. split.
      * intros f Hin. apply in_app_iff in Hin. destruct Hin; auto.
      * rewrite length_app. lia.
Qed.

(** Whatever the descriptors are, every path [generate_uxr_code] returns
    lies below the output directory, and it returns at most two paths per
    descriptor. *)
Theorem generated_files_under_output {L} (idl_generators : list IdlGenerator)
    (output_dir : Path.t) (include_paths : option (list Path.t))
    (replace : bool) (l : L) (s s' : state) (files : list Path.t) :
  generate_uxr_code idl_generators output_dir include_paths replace l s
  = (Return files, l, s') ->
  (forall f, In f files -> Path.is_relative_to f output_dir = true)
  /\ length files <= 2 * length idl_generators.
Proof.
  intros Hgen.
  destruct (generate_uxr_code_run idl_generators output_dir include_paths replace l s)
    as (s1 & Hrun & _).
  rewrite Hrun in Hgen. injection Hgen as Hout _. unfold generate_all in Hout.
  destruct (os_mkdir output_dir (world s)) as [[what|] w0]; [discriminate|].
  destruct (generate_groups_under output_dir include_paths replace
              (group_by_package idl_generators) w0) as [Hu Hl].
  destruct (generate_groups output_dir include_paths replace
              (group_by_package idl_generators) w0) as [[[what|] files0] w3];
    [discriminate|].
  cbn [fst snd] in *. injection Hout as <-. split; [exact Hu|].
  unfold group_by_package in Hl.
  rewrite (total_messages_fold package (fun gen => gen)) in Hl.
  unfold total_messages in Hl. simpl in Hl. lia.
Qed.

(** *** The logger *)

Lemma keeps_ret (I : state -> Prop) {L A} (a : A) : keeps I (ret (L := L) a).
Proof. intros l s H. exact H. Qed.

Lemma keeps_raise (I : state -> Prop) {L A} (e : exn) :
  keeps I (raise (L := L) (A := A) e).
Proof. intros l s H. exact H. Qed.

Lemma keeps_get_local (I : state -> Prop) {L} : keeps I (get_local (L := L)).
Proof. intros l s H. exact H. Qed.

Lemma keeps_modify_local (I : state -> Prop) {L} (f : L -> L) :
  keeps I (modify_local f).
Proof. intros l s H. exact H. Qed.

Lemma keeps_path_exists (I : state -> Prop) {L} (p : Path.t) :
  keeps I (path_exists (L := L) p).
Proof.
  intros l s H. unfold path_exists. now destruct (os_exists p (world s)).
Qed.

Lemma keeps_getcwd (I : state -> Prop) {L} : keeps I (getcwd (L := L)).
Proof. intros l s H. rewrite getcwd_run. exact H. Qed.

Lemma keeps_path_absolute (I : state -> Prop) {L} (p : Path.t) :
  keeps I (path_absolute (L := L) p).
Proof. intros l s H. rewrite path_absolute_run. exact H. Qed.

Lemma keeps_bind (I : state -> Prop) {L A B} (m : M L A) (k : A -> M L B) :
  keeps I m -> (forall a, keeps I (k a)) -> keeps I (bind m k).
Proof.
  intros Hm Hk l s H. unfold bind. specialize (Hm l s H).
  destruct (m l s) as [[[a|e] l'] s']; cbn [snd] in *; [now apply Hk | exact Hm].
Qed.

Lemma keeps_try_except (I : state -> Prop) {L A} (body : M L A) catches handler :
  keeps I body -> (forall e, keeps I (handler e)) ->
  keeps I (try_except body catches handler).
Proof.
  intros Hb Hh l s H. unfold try_except. specialize (Hb l s H).
  destruct (body l s) as [[[a|e] l'] s']; cbn [snd] in *; [exact Hb|].
  destruct (catches e); [now apply Hh | exact Hb].
Qed.

Lemma keeps_for (I : state -> Prop) {L A} (xs : list A) (body : A -> M L unit) :
  (forall x, keeps I (body x)) -> keeps I (for_ xs body).
Proof.
  intros Hb. induction xs as [|x xs IH]; [apply keeps_ret|].
  cbn [for_]. apply keeps_bind; [apply Hb | intros _; exact IH].
Qed.

Lemma keeps_call (I : state -> Prop) {L L' A} (init : L') (m : M L' A) :
  keeps I m -> keeps I (call (L := L) init m).
Proof.
  intros Hm l s H. unfold call. specialize (Hm init s H).
  now destruct (m init s) as [[o l'] s'].
Qed.

Lemma keeps_for_lines_of (I : state -> Prop) {L} (p : Path.t)
    (body : string -> M L unit) :
  (forall line, keeps I (body line)) -> keeps I (for_lines_of p body).
Proof.
  intros Hb l s H. unfold for_lines_of.
  destruct (os_read p (world s)) as [what|text failure]; [exact H|].
  refine (keeps_bind I _ _ _ _ l s H); [apply keeps_for; exact Hb|].
  intros _. destruct failure; [apply keeps_raise | apply keeps_ret].
Qed.

Create HintDb keeps.
#[local] Hint Resolve keeps_ret keeps_raise keeps_get_local keeps_modify_local
  keeps_path_exists keeps_getcwd keeps_path_absolute : keeps.

Ltac keeps_step :=
  match goal with
  | |- keeps _ (bind _ _) => apply keeps_bind; [|intros ?]
  | |- keeps _ (try_except _ _ _) => apply keeps_try_except; [|intros ?]
  | |- keeps _ (for_ _ _) => apply keeps_for; intros ?
  | |- keeps _ (for_lines_of _ _) => apply keeps_for_lines_of; intros ?
  | |- keeps _ (call _ _) => apply keeps_call
  | |- keeps _ (sys_exit _) => apply keeps_raise
  | |- keeps _ (if ?b then _ else _) => destruct b
  | |- keeps _ (match ?x with _ => _ end) => destruct x
  | |- _ => solve [auto with keeps]
  end.

(** Every function of the script keeps an invariant of the state that
    neither a change of the world nor a logging call breaks: nothing but
    [main]'s [setLevel] touches the logger's level, and the log changes
    through logging calls only. *)
Section Invariant.

Variable I : state -> Prop.
Hypothesis I_world :
  forall s w', I s -> I (mkState w' (logger_level s) (log s)).
Hypothesis I_emit : forall lvl ev s, I s -> I (emit lvl ev s).

Lemma keeps_logger_log {L} (lvl : level) (ev : event) :
  keeps I (logger_log (L := L) lvl ev).
Proof. intros l s H. now apply I_emit. Qed.

Lemma keeps_with_world {L A} (f : W -> A * W) : keeps I (with_world (L := L) f).
Proof.
  intros l s H. unfold with_world. destruct (f (world s)). now apply I_world.
Qed.

#[local] Hint Resolve keeps_logger_log keeps_with_world : keeps.

Lemma keeps_mkdir {L} (p : Path.t) : keeps I (mkdir (L := L) p).
Proof. unfold mkdir. repeat keeps_step. Qed.

Lemma keeps_subprocess_run {L} (cmd : list string) :
  keeps I (subprocess_run (L := L) cmd).
Proof. unfold subprocess_run. repeat keeps_step. Qed.

#[local] Hint Resolve keeps_mkdir keeps_subprocess_run : keeps.

Lemma keeps_find_ros_share_dir {L} (package : string) :
  keeps I (find_ros_share_dir (L := L) package).
Proof. unfold find_ros_share_dir. repeat keeps_step. Qed.

Lemma keeps_parse_line (line : string) : keeps I (parse_line line).
Proof. unfold parse_line. repeat keeps_step. Qed.

#[local] Hint Resolve keeps_find_ros_share_dir keeps_parse_line : keeps.

Lemma keeps_parse_message_list {L} (message_file : Path.t) :
  keeps I (parse_message_list (L := L) message_file).
Proof. unfold parse_message_list. repeat keeps_step. Qed.

Lemma keeps_locate_msg (package : string) (msg_dir : Path.t) (msg_type : string) :
  keeps I (locate_msg package msg_dir msg_type).
Proof. unfold locate_msg. repeat keeps_step. Qed.

#[local] Hint Resolve keeps_parse_message_list keeps_locate_msg : keeps.

Lemma keeps_locate_package (item : string * list string) :
  keeps I (locate_package item).
Proof.
  destruct item as [package msg_types].
  unfold locate_package, locate_package_body. repeat keeps_step.
Qed.

#[local] Hint Resolve keeps_locate_package : keeps.

Lemma keeps_locate_idl_files {L} (package_msgs : dict (list string)) :
  keeps I (locate_idl_files (L := L) package_msgs).
Proof. unfold locate_idl_files. repeat keeps_step. Qed.

Lemma keeps_record_generated (output_dir pkg_output_dir : Path.t)
    (package : string) (gen : IdlGenerator) :
  keeps I (record_generated output_dir pkg_output_dir package gen).
Proof. unfold record_generated. repeat keeps_step. Qed.

#[local] Hint Resolve keeps_locate_idl_files keeps_record_generated : keeps.

Lemma keeps_run_generator (output_dir pkg_output_dir : Path.t) (package : string)
    (generators : list IdlGenerator) (cmd : list string) :
  keeps I (run_generator output_dir pkg_output_dir package generators cmd).
Proof. unfold run_generator. repeat keeps_step. Qed.

#[local] Hint Resolve keeps_run_generator : keeps.

Lemma keeps_generate_package (output_dir : Path.t)
    (include_paths : option (list Path.t)) (replace : bool)
    (group : string * list IdlGenerator) :
  keeps I (generate_package output_dir include_paths replace group).
Proof.
  destruct group as [package generators]. unfold generate_package.
  repeat keeps_step.
Qed.

#[local] Hint Resolve keeps_generate_package : keeps.

Lemma keeps_generate_uxr_code {L} (idl_generators : list IdlGenerator)
    (output_dir : Path.t) (include_paths : option (list Path.t)) (replace : bool) :
  keeps I (generate_uxr_code (L := L) idl_generators output_dir include_paths replace).
Proof. unfold generate_uxr_code. repeat keeps_step. Qed.

#[local] Hint Resolve keeps_generate_uxr_code : keeps.

Lemma keeps_main_with (a : args) : verbose a = false -> keeps I (main_with a).
Proof. intros Hv. unfold main_with. rewrite Hv. repeat keeps_step. Qed.

End Invariant.

Lemma quiet_world (s : state) (w' : W) :
  quiet s -> quiet (mkState w' (logger_level s) (log s)).
Proof. intros H. exact H. Qed.

Lemma quiet_emit (lvl : level) (ev : event) (s : state) :
  quiet s -> quiet (emit lvl ev s).
Proof.
  intros [Hlvl Hlog]. unfold emit. rewrite Hlvl.
  destruct lvl; cbn; [split; assumption | | |];
    (split; [reflexivity|]);
    intros ev' Hin; apply in_app_iff in Hin;
    (destruct Hin as [Hin|[Hin|[]]]; [exact (Hlog ev' Hin) | discriminate]).
Qed.


Lemma loud_world (s : state) (w' : W) :
  loud s -> loud (mkState w' (logger_level s) (log s)).
Proof. intros H. exact H. Qed.

Lemma loud_emit (lvl : level) (ev : event) (s : state) : loud s -> loud (emit lvl ev s).
Proof.
  unfold loud, emit. now destruct (level_num (logger_level s) <=? level_num lvl).
Qed.

Lemma log_emit_info (ev : event) (s : state) :
  loud s -> log (emit INFO ev s) = log s ++ [(INFO, ev)].
Proof.
  unfold loud, emit. intros H. apply Nat.leb_le in H. now rewrite H.
Qed.


End Script.

(** ** The script on the example worlds *)

Import Examples.

(** C1 on [msgs.txt]: two packages, in the order of the file, each with its
    message. *)
Lemma parse_message_list_entries_witness :
  exists package_msgs s',
    parse_message_list (os := os_ok) (Path.of_str "msgs.txt") tt
      (mkState installed INFO [])
    = (Return package_msgs, tt, s')
    /\ dict_keys package_msgs = ["sensor_msgs"; "std_msgs"]
    /\ dict_get "std_msgs" package_msgs = Some ["Header"].
Proof.
  destruct (parse_message_list_entries (os := os_ok) (Path.of_str "msgs.txt")
              list_text tt (mkState installed INFO []) eq_refl eq_refl)
    as (pm & s' & Hrun & _ & _ & Hkeys & _ & Hget & _).
  exists pm, s'. split; [exact Hrun|]. split.
  - rewrite Hkeys. reflexivity.
  - rewrite Hget; [reflexivity|]. rewrite Hkeys. vm_compute. auto.
Defined.

(** C2 fails on the line [nav_msgs/msg/Path]: it has two [/], and the parser
    adds the entry [nav_msgs -> msg/Path] for it. *)
Lemma lines_with_two_slashes_are_kept :
  Str.count_char "/" "nav_msgs/msg/Path" = 2
  /\ fst (in_world (parse_message_list (os := os_ok) (Path.of_str "nested.txt"))
                   installed)
     = Return [("nav_msgs", ["msg/Path"])].
Proof. split; reflexivity. Qed.

Lemma parse_line_first_slash_witness :
  is_entry "nav_msgs/msg/Path" = true
  /\ exists s',
       parse_line "nav_msgs/msg/Path" [] (mkState installed INFO [])
       = (Return tt, [("nav_msgs", ["msg/Path"])], s').
Proof.
  destruct (parse_line_first_slash "nav_msgs/msg/Path" [] []
              (mkState installed INFO [])) as ((s' & Hrun & _) & _ & Hentry).
  split.
  - apply Hentry; try reflexivity; try discriminate. vm_compute. lia.
  - exists s'. exact Hrun.
Defined.

(** C3 fails where [out] is a regular file: the command line is accepted,
    the file parses to a non-empty map and the resolver finds both
    descriptors, yet the exit status is 1. *)
Lemma exit_status_blocked_output :
  Sim.parse_args (default_output Sim.cwd) argv_cli = Parsed cli
  /\ fst (in_world (parse_message_list (os := os_ok) (message_file cli)) blocked)
     = Return [("sensor_msgs", ["Imu"]); ("std_msgs", ["Header"])]
  /\ fst (in_world (locate_idl_files (os := os_ok)
                      [("sensor_msgs", ["Imu"]); ("std_msgs", ["Header"])]) blocked)
     = Return [imu; header]
  /\ fst (run_script (os := os_ok) Sim.parse_args argv_cli blocked) = 1%Z.
Proof. repeat split; reflexivity. Qed.

(** C3 on the example installation: the run of [argv_cli] ends with status
    0, a command line without the list file with status 2. *)
Lemma exit_status_of_script_witness :
  fst (run_script (os := os_ok) Sim.parse_args argv_cli installed) = 0%Z
  /\ fst (run_script (os := os_ok) Sim.parse_args [] installed) = 2%Z.
Proof.
  split.
  - destruct (exit_status_of_script (os := os_ok) Sim.parse_args argv_cli installed)
      as (_ & _ & H0 & _).
    apply H0. exists Sim.cwd. split; [reflexivity|]. right.
    exists cli. eexists _, _, _, _, _, _.
    repeat split; try discriminate; vm_compute; reflexivity.
  - destruct (exit_status_of_script (os := os_ok) Sim.parse_args [] installed)
      as (_ & H2 & _).
    apply H2. exists Sim.cwd. split; reflexivity.
Defined.

Lemma generate_package_cmd_witness :
  ~ In "" ["microxrceddsgen"; "-cs"; "-d"; "out/sensor_msgs/msg"; "-I"; "inc";
           "/opt/ros/share/sensor_msgs/msg/Imu.idl"].
Proof.
  exact (proj1 (proj2 (generate_package_cmd (os := os_ok) (Path.of_str "out")
                         (Some [Path.of_str "inc"]) false "sensor_msgs" [imu]))).
Defined.

(** C5 on a package the registry does not know, and on a package whose
    share directory has no [msg] subdirectory. *)
Lemma locate_package_skips_witness :
  (exists s',
     locate_package (os := os_ok) ("ghost_msgs", ["Imu"]) (mkLocate [] [])
       (mkState installed INFO [])
     = (Return tt, mkLocate [] ["ghost_msgs"], s'))
  /\ (exists s',
        locate_package (os := os_ok) ("bare_pkg", ["Imu"]) (mkLocate [] [])
          (mkState installed INFO [])
        = (Return tt, mkLocate [] [], s')).
Proof.
  split.
  - destruct (locate_package_skips (os := os_ok) "ghost_msgs" ["Imu"] []
                (mkLocate [] []) (mkState installed INFO [])
                (Exited 1 "" "Package not found") installed eq_refl)
      as [Hfail _].
    destruct Hfail as (s' & Hrun & _); [left; discriminate|].
    exists s'. exact Hrun.
  - destruct (locate_package_skips (os := os_ok) "bare_pkg" ["Imu"] []
                (mkLocate [] []) (mkState installed INFO [])
                (Exited 0 ("/opt/ros/share/bare_pkg" ++ nl) "") installed eq_refl)
      as [_ Hbare].
    destruct (Hbare _ _ eq_refl) as (s' & Hrun & _);
      [vm_compute; discriminate | reflexivity |].
    exists s'. exact Hrun.
Defined.



(** C7 with a generator that exits with 1: nothing is recorded. *)
Lemma generator_failure_is_isolated_witness :
  exists s',
    generate_package (os := os_fails) (Path.of_str "out") None true
      ("sensor_msgs", [imu]) [] (mkState installed INFO [])
    = (Return tt, [], s').
Proof.
  destruct (generator_failure_is_isolated (os := os_fails) (Path.of_str "out") None
              true "sensor_msgs" [imu] [] [] (mkState installed INFO [])
              (snd (Sim.mkdir (Path.of_str "out" / "sensor_msgs" / "msg")%path installed))
              (snd (Sim.mkdir (Path.of_str "out" / "sensor_msgs" / "msg")%path installed))
              (Exited 1 "" ""))
    as (new & s' & Hrun & _ & _ & Hnone & _).
  - vm_compute. reflexivity.
  - vm_compute. reflexivity.
  - rewrite Hnone in Hrun by (simpl; discriminate).
    exists s'. exact Hrun.
Defined.

(** C8 fails for the descriptor of the line [p//x]: the resolver finds
    [/x.idl] and the generator succeeds; afterwards [x.h] and [x.c] exist in
    the output directory of the package, and so do the files [/x.h] and
    [/x.c] that the verification looks for; yet nothing is recorded, because
    the latter are not below the output root. *)
Lemma rooted_message_not_recorded :
  let output_dir := Path.of_str "out" in
  let pkg_output_dir := (output_dir / "p" / "msg")%path in
  let run := generate_uxr_code (os := os_p) [rooted_gen] output_dir None true in
  fst (in_world (parse_message_list (os := os_p) (Path.of_str "abs.txt")) rooted)
  = Return [("p", ["/x"])]
  /\ fst (in_world (locate_idl_files (os := os_p) [("p", ["/x"])]) rooted)
     = Return [rooted_gen]
  /\ fst (generator_p (generator_cmd true pkg_output_dir None ["/x.idl"])
                      (snd (Sim.mkdir pkg_output_dir rooted)))
     = Exited 0 "" ""
  /\ Sim.exists_ (Path.of_str "out/p/msg/x.h") (snd (in_world run rooted)) = Known true
  /\ Sim.exists_ (Path.of_str "out/p/msg/x.c") (snd (in_world run rooted)) = Known true
  /\ Sim.exists_ (pkg_output_dir / h_name rooted_gen)%path (snd (in_world run rooted))
     = Known true
  /\ Sim.exists_ (pkg_output_dir / c_name rooted_gen)%path (snd (in_world run rooted))
     = Known true
  /\ fst (in_world run rooted) = Return [].
Proof. repeat split; reflexivity. Qed.

Lemma verified_outputs_recorded_witness :
  exists s',
    generate_package (os := os_ok) (Path.of_str "out") None true
      ("sensor_msgs", [imu]) [] (mkState installed INFO [])
    = (Return tt,
       [Path.of_str "out/sensor_msgs/msg/imu.h"; Path.of_str "out/sensor_msgs/msg/imu.c"],
       s').
Proof.
  destruct (verified_outputs_recorded (os := os_ok) (Path.of_str "out") None true
              "sensor_msgs" [imu] [] (mkState installed INFO [])
              (snd (Sim.mkdir (Path.of_str "out" / "sensor_msgs" / "msg")%path installed))
              (snd (generator_ok (generator_cmd true (Path.of_str "out" / "sensor_msgs" / "msg")%path
                              None [Path.str (idl_path imu)])
                      (snd (Sim.mkdir (Path.of_str "out" / "sensor_msgs" / "msg")%path
                              installed))))
              "" "")
    as (Hall & _).
  - reflexivity.
  - intros gen [<-|[]]. split; reflexivity.
  - vm_compute. reflexivity.
  - vm_compute. reflexivity.
  - destruct Hall as (s' & Hrun & _).
    + intros gen [<-|[]]. split; eexists; vm_compute; reflexivity.
    + exists s'. exact Hrun.
Defined.

(** C9 on the example installation, whose registry only answers. *)
Lemma locate_idl_files_idempotent_witness :
  exists s1 s2,
    locate_idl_files (os := os_ok)
      [("sensor_msgs", ["Imu"]); ("ghost_msgs", ["Imu"]); ("std_msgs", ["Header"])]
      tt (mkState installed INFO [])
    = (Return [imu; header], tt, s1)
    /\ locate_idl_files (os := os_ok)
         [("sensor_msgs", ["Imu"]); ("ghost_msgs", ["Imu"]); ("std_msgs", ["Header"])]
         tt s1
       = (Return [imu; header], tt, s2).
Proof.
  destruct (locate_idl_files_idempotent (os := os_ok)
              [("sensor_msgs", ["Imu"]); ("ghost_msgs", ["Imu"]); ("std_msgs", ["Header"])]
              tt (mkState installed INFO []))
    as ((s1 & s2 & H1 & _ & H2 & _) & _).
  - intros package w.
    unfold registry_cmd, os_run, os_ok, Sim.os, generator_ok, Sim.simple_processes.
    destruct (dict_get package registry); reflexivity.
  - exists s1, s2. split; [exact H1 | exact H2].
Defined.

Lemma generated_files_in_pairs_witness :
  Nat.Even (length [Path.of_str "out/sensor_msgs/msg/imu.h";
                    Path.of_str "out/sensor_msgs/msg/imu.c"]).
Proof.
  destruct (generated_files_in_pairs (os := os_ok) [imu; header] (Path.of_str "out")
              None true tt (mkState installed INFO [])) as (_ & _ & Hfiles).
  refine (proj1 (Hfiles _ (snd (generate_uxr_code (os := os_ok) [imu; header]
                                  (Path.of_str "out") None true tt
                                  (mkState installed INFO []))) _)).
  vm_compute. reflexivity.
Defined.

(** ** The further properties on the example worlds *)

Lemma groups_follow_resolution_witness :
  exists idl_generators s',
    locate_idl_files (os := os_ok)
      [("sensor_msgs", ["Imu"]); ("ghost_msgs", ["Imu"]); ("std_msgs", ["Header"])]
      tt (mkState installed INFO [])
    = (Return idl_generators, tt, s')
    /\ group_by_package idl_generators
       = [("sensor_msgs", [imu]); ("std_msgs", [header])].
Proof.
  destruct (groups_follow_resolution (os := os_ok)
              [("sensor_msgs", ["Imu"]); ("ghost_msgs", ["Imu"]); ("std_msgs", ["Header"])]
              tt (mkState installed INFO []))
    as (gens & s' & Hrun & Hgroups).
  - repeat (constructor; [simpl; intuition discriminate|]). constructor.
  - intros package w.
    unfold registry_cmd, os_run, os_ok, Sim.os, generator_ok, Sim.simple_processes.
    destruct (dict_get package registry); reflexivity.
  - exists gens, s'. split; [exact Hrun|]. rewrite Hgroups. reflexivity.
Defined.

Lemma parsed_names_are_clean_witness :
  Str.contains_char "/" "sensor_msgs" = false /\ Str.strip "Imu" = "Imu".
Proof.
  destruct (parsed_names_are_clean (os := os_ok) (Path.of_str "msgs.txt") tt
              (mkState installed INFO [])
              (snd (parse_message_list (os := os_ok) (Path.of_str "msgs.txt") tt
                      (mkState installed INFO [])))
              [("sensor_msgs", ["Imu"]); ("std_msgs", ["Header"])])
    with (p := "sensor_msgs") (ms := ["Imu"]) as ((_ & Hslash & _) & _ & Hm).
  - vm_compute. reflexivity.
  - now left.
  - split; [exact Hslash|]. apply (Hm "Imu"). now left.
Defined.

Lemma parse_keeps_every_entry_witness :
  exists package_msgs s',
    parse_message_list (os := os_ok) (Path.of_str "msgs.txt") tt
      (mkState installed INFO [])
    = (Return package_msgs, tt, s')
    /\ total_messages package_msgs = 2.
Proof.
  destruct (parse_keeps_every_entry (os := os_ok) (Path.of_str "msgs.txt")
              list_text tt (mkState installed INFO []) eq_refl eq_refl)
    as (pm & s' & Hrun & Htotal & _).
  exists pm, s'. split; [exact Hrun|]. rewrite Htotal. reflexivity.
Defined.

Lemma fatal_input_leaves_world_witness :
  fst (run_script (os := os_ok) Sim.parse_args argv_commented commented) = 1%Z
  /\ world (snd (run_script (os := os_ok) Sim.parse_args argv_commented commented))
     = commented.
Proof.
  apply (fatal_input_leaves_world (os := os_ok) Sim.parse_args argv_commented
           commented Sim.cwd cli_commented eq_refl eq_refl).
  right. right. right. right. eexists. split; [reflexivity|].
  vm_compute. intros line [<-|[<-|[<-|[]]]]; reflexivity.
Defined.

Lemma verbose_only_changes_log_witness :
  fst (run_script (os := os_ok) Sim.parse_args ["msgs.txt"; "-o"; "out"] installed)
  = fst (run_script (os := os_ok) Sim.parse_args ["msgs.txt"; "-o"; "out"; "-v"]
           installed).
Proof.
  exact (proj1 (verbose_only_changes_log (os := os_ok) Sim.parse_args
                  ["msgs.txt"; "-o"; "out"] ["msgs.txt"; "-o"; "out"; "-v"] Sim.cwd
                  (Path.of_str "msgs.txt") (Path.of_str "out") [] true false true
                  installed eq_refl eq_refl eq_refl)).
Defined.


Lemma located_iff_installed_witness :
  exists idl_generators s',
    locate_idl_files (os := os_ok) [("sensor_msgs", ["Imu"; "Nope"])] tt
      (mkState installed INFO [])
    = (Return idl_generators, tt, s')
    /\ forall gen, In gen idl_generators ->
                   Sim.exists_ (idl_path gen) installed = Known true.
Proof.
  destruct (located_iff_installed (os := os_ok) [("sensor_msgs", ["Imu"; "Nope"])] tt
              (mkState installed INFO []))
    as (gens & s' & Hrun & _ & Hex).
  - intros package w.
    unfold registry_cmd, os_run, os_ok, Sim.os, generator_ok, Sim.simple_processes.
    destruct (dict_get package registry); reflexivity.
  - exists gens, s'. split; [exact Hrun | exact Hex].
Defined.

Lemma missing_packages_are_reported_witness :
  log (snd (locate_idl_files (os := os_ok)
              [("sensor_msgs", ["Imu"]); ("ghost_msgs", ["Imu"])] tt
              (mkState installed INFO [])))
  = log (snd (for_ [("sensor_msgs", ["Imu"]); ("ghost_msgs", ["Imu"])]
                   (locate_package (os := os_ok)) (mkLocate [] [])
                   (mkState installed INFO [])))
    ++ [(ERROR, MissingPackages ["ghost_msgs"])].
Proof.
  apply (missing_packages_are_reported (os := os_ok)
           [("sensor_msgs", ["Imu"]); ("ghost_msgs", ["Imu"])] tt
           (mkState installed INFO [])).
  intros package w.
  unfold registry_cmd, os_run, os_ok, Sim.os, generator_ok, Sim.simple_processes.
  destruct (dict_get package registry); reflexivity.
Defined.

Lemma generated_files_under_output_witness :
  Path.is_relative_to (Path.of_str "out/sensor_msgs/msg/imu.h") (Path.of_str "out") = true.
Proof.
  destruct (generated_files_under_output (os := os_ok) [imu; header] (Path.of_str "out")
              None true tt (mkState installed INFO [])
              (snd (generate_uxr_code (os := os_ok) [imu; header] (Path.of_str "out")
                      None true tt (mkState installed INFO [])))
              [Path.of_str "out/sensor_msgs/msg/imu.h";
               Path.of_str "out/sensor_msgs/msg/imu.c"]) as [Hunder _].
  - vm_compute. reflexivity.
  - apply Hunder. now left.
Defined.


(** The list file [damaged.txt]: the parser raises the decoding error after
    it has warned about the malformed second line. *)
Lemma partial_read_is_fatal_witness :
  exists s',
    parse_message_list (os := os_ok) (Path.of_str "damaged.txt") tt
      (mkState damaged INFO [])
    = (Raise (ValueError "invalid start byte"), tt, s')
    /\ In (WARNING, InvalidMessageFormat "no separator") (log s').
Proof.
  destruct (partial_read_is_fatal (os := os_ok) (Path.of_str "damaged.txt")
              ("sensor_msgs/Imu" ++ nl ++ "no separator" ++ nl
               ++ "std_msgs/Header" ++ nl)%string
              (DecodeError "invalid start byte") tt (mkState damaged INFO []))
    as (s' & Hrun & _ & _ & Hwarn).
  - reflexivity.
  - reflexivity.
  - vm_compute. lia.
  - exists s'. split; [exact Hrun|].
    apply (Hwarn ("no separator" ++ nl)%string); [vm_compute; auto | reflexivity..].
Defined.
